(** * Live-update reconciler (internal/controllers/core/liveupdate/reconciler.go)

    A shallow embedding of the reconciler: the monitor table, the two delta
    detectors (file watches and kubernetes-shaped dependencies), the sync
    engine [applyInternal] with its status post-processing [apply], and the
    control loop [Reconcile].

    Go pointers to monitors are addresses into an explicit heap, so that a
    mutation made through a pointer handed out by [ensureMonitorExists] is a
    mutation of the object the monitor table refers to.  Everything the
    reconciler reaches through an interface (the API client, the container
    updaters, the build helpers, the clock) is a parameter acting on an
    abstract world [W].  Logging is left out: it has no influence on any
    value the reconciler computes. *)

From Stdlib Require Import ZArith Lia.
From stdpp Require Import base option list strings gmap fin_maps.

Open Scope Z_scope.
Open Scope string_scope.
Open Scope list_scope.

(** ** Values shared with other packages *)

(** Modelled from the spec: metav1.MicroTime is declared outside src/.  A
    time is its number of microseconds; 0 is the zero value. *)
Definition MicroTime := Z.

Definition IsZero (t : MicroTime) : bool := (t =? 0)%Z.
Definition Before (t u : MicroTime) : bool := (t <? u)%Z.

(** Modelled from the spec: Go's [error] interface, with the three classes of
    error the reconciler tells apart: a not-found answer of the API server
    (apierrors.IsNotFound), a failed run step (build.RunStepFailure, with its
    command and exit code) and anything else. *)
Inductive errKind :=
| ErrNotFound
| ErrRunStepFailure (cmd : string) (exitCode : Z)
| ErrOther.

Record error := { Error : string; kind : errKind }.

Definition IsNotFound (err : option error) : bool :=
  match err with
  | Some {| kind := ErrNotFound |} => true
  | _ => false
  end.

(** Modelled from the spec: client.IgnoreNotFound, nil for a not-found error,
    the error otherwise. *)
Definition IgnoreNotFound (err : error) : option error :=
  if IsNotFound (Some err) then None else Some err.

(** Modelled from the spec: build.MaybeRunStepFailure, the run-step failure
    an error carries, if it is one. *)
Definition MaybeRunStepFailure (err : error) : option (string * Z) :=
  match kind err with
  | ErrRunStepFailure cmd code => Some (cmd, code)
  | _ => None
  end.

(** What [client.Get] leaves in its caller's hands: the object, or an error. *)
Inductive result (A : Type) :=
| Ok (a : A)
| Err (err : error).
Arguments Ok {A} a.
Arguments Err {A} err.

(** ** API types (pkg/apis/core/v1alpha1) *)

(** Modelled from the spec: v1alpha1.FileEvent, with the fields read by
    reconcileOneFileWatch. *)
Record FileEvent := { Time : MicroTime; SeenFiles : list string }.

(** Modelled from the spec: v1alpha1.FileWatch; only Status.FileEvents is
    read. *)
Record FileWatch := { FileEvents : list FileEvent }.

(** Modelled from the spec: v1alpha1.LiveUpdateKubernetesSelector. *)
Record LiveUpdateKubernetesSelector := {
  DiscoveryName : string;
  ApplyName : string;
  ImageMapName : string;
  sel_ContainerName : string;
}.

Record LiveUpdateExec := { Args : list string; TriggerPaths : list string }.

(** Modelled from the spec: v1alpha1.LiveUpdateSpec.  [Kubernetes] is
    Selector.Kubernetes, a pointer that may be nil. *)
Record LiveUpdateSpec := {
  BasePath : string;
  FileWatchNames : list string;
  Kubernetes : option LiveUpdateKubernetesSelector;
  StopPaths : list string;
  Syncs : list (string * string);
  Execs : list LiveUpdateExec;
  Restart : string;
}.

(** Modelled from the spec: v1alpha1.LiveUpdateStateFailed. *)
Record LiveUpdateStateFailed := {
  Reason : string;
  Message : string;
  LastTransitionTime : MicroTime;
}.

(** Modelled from the spec: v1alpha1.LiveUpdateContainerStatus. *)
Record LiveUpdateContainerStatus := {
  ContainerName : string;
  ContainerID : string;
  PodName : string;
  Namespace : string;
  LastFileTimeSynced : MicroTime;
  LastExecError : string;
}.

(** Modelled from the spec: v1alpha1.LiveUpdateStatus.  [Failed] is a pointer
    that may be nil, [Containers] a slice. *)
Record LiveUpdateStatus := {
  Failed : option LiveUpdateStateFailed;
  Containers : list LiveUpdateContainerStatus;
}.

(** Modelled from the spec: v1alpha1.LiveUpdate, the object itself. *)
Record LiveUpdate := {
  lu_Name : string;
  lu_Namespace : string;
  lu_ManagedBy : string;
  lu_DeletionTimestamp : option MicroTime;
  lu_Spec : LiveUpdateSpec;
  lu_Status : LiveUpdateStatus;
}.

(** apicmp.DeepEqual is structural equality; on these records it is
    decidable equality. *)
#[global] Instance FileEvent_eq_dec : EqDecision FileEvent.
Proof. solve_decision. Defined.
#[global] Instance LiveUpdateKubernetesSelector_eq_dec :
  EqDecision LiveUpdateKubernetesSelector.
Proof. solve_decision. Defined.
#[global] Instance LiveUpdateExec_eq_dec : EqDecision LiveUpdateExec.
Proof. solve_decision. Defined.
#[global] Instance LiveUpdateSpec_eq_dec : EqDecision LiveUpdateSpec.
Proof. solve_decision. Defined.
#[global] Instance LiveUpdateStateFailed_eq_dec : EqDecision LiveUpdateStateFailed.
Proof. solve_decision. Defined.
#[global] Instance LiveUpdateContainerStatus_eq_dec :
  EqDecision LiveUpdateContainerStatus.
Proof. solve_decision. Defined.
#[global] Instance LiveUpdateStatus_eq_dec : EqDecision LiveUpdateStatus.
Proof. solve_decision. Defined.

(** The zero values Go gives to freshly declared variables. *)
Definition emptySpec : LiveUpdateSpec :=
  {| BasePath := ""; FileWatchNames := []; Kubernetes := None;
     StopPaths := []; Syncs := []; Execs := []; Restart := "" |}.

Definition emptyStatus : LiveUpdateStatus :=
  {| Failed := None; Containers := [] |}.

Definition emptyLiveUpdate : LiveUpdate :=
  {| lu_Name := ""; lu_Namespace := ""; lu_ManagedBy := "";
     lu_DeletionTimestamp := None; lu_Spec := emptySpec;
     lu_Status := emptyStatus |}.

(** ** Inputs of a sync (internal/store/liveupdates, internal/build) *)

(** Modelled from the spec: liveupdates.Container. *)
Record Container := {
  c_ContainerID : string;
  c_ContainerName : string;
  c_PodID : string;
  c_Namespace : string;
}.

(** Modelled from the spec: build.PathMapping. *)
Record PathMapping := { LocalPath : string; ContainerPath : string }.

(** Modelled from the spec: liveupdate.Input. *)
Record Input := {
  IsDC : bool;
  in_Containers : list Container;
  ChangedFiles : list PathMapping;
  in_LastFileTimeSynced : MicroTime;
}.

(** Modelled from the spec: liveupdates.UpdateMode, a string enumeration. *)
Inductive UpdateMode :=
| UpdateModeAuto
| UpdateModeContainer
| UpdateModeKubectlExec
| UpdateModeOther (name : string).

#[global] Instance UpdateMode_eq_dec : EqDecision UpdateMode.
Proof. solve_decision. Defined.

(** indexer.Key: the kind and name of an object a live update depends on. *)
Inductive GVK := discoveryGVK | applyGVK | fwGVK | imageMapGVK.

Record Key := { key_Namespace : string; key_Name : string; key_GVK : GVK }.

(** Actions dispatched to the engine store. *)
Inductive Action :=
| LiveUpdateDeleteAction (name : string)
| LiveUpdateUpsertAction (lu : LiveUpdate).

(** monitorContainerKey: container id, pod name, namespace. *)
Definition monitorContainerKey : Type := string * string * string.

Record monitorContainerStatus := {
  lastFileTimeSynced : MicroTime;
  unrecoverable : bool;
}.

(** Addresses of monitor objects. *)
Definition addr := nat.

(** ** The reconciler *)

Section Reconciler.

(** The world outside the reconciler: the API server, the containers, the
    file system, the clock. *)
Context {W : Type}.

(** The status types of the three kubernetes-shaped dependencies are declared
    in v1alpha1; the reconciler only compares them. *)
Context {KubernetesApplyStatus KubernetesDiscoveryStatus ImageMapStatus : Type}.
Context `{!EqDecision KubernetesApplyStatus}
        `{!EqDecision KubernetesDiscoveryStatus}
        `{!EqDecision ImageMapStatus}.

(** Modelled from the spec: the three dependency objects of v1alpha1; only
    their Status is read. *)
Record KubernetesApply := { ka_Status : KubernetesApplyStatus }.
Record KubernetesDiscovery := { kd_Status : KubernetesDiscoveryStatus }.
Record ImageMap := { im_Status : ImageMapStatus }.

(** ctrlclient.Client: reads of the objects the reconciler depends on and the
    status-subresource write. *)
Record Client := {
  GetLiveUpdate : string -> W -> result LiveUpdate;
  GetFileWatch : string -> W -> result FileWatch;
  GetKubernetesApply : string -> W -> result KubernetesApply;
  GetKubernetesDiscovery : string -> W -> result KubernetesDiscovery;
  GetImageMap : string -> W -> result ImageMap;
  StatusUpdate : LiveUpdate -> W -> option error * W;
}.

(** containerupdate.ContainerUpdater: the container-mutation capability.  The
    archive is given by the path mappings it is built from. *)
Record ContainerUpdater := {
  UpdateContainer :
    Container -> list PathMapping -> list string -> list (list string) ->
    bool -> W -> option error * W;
}.

(** The monitor of one live update (monitor.go).  Modelled from the spec: the
    struct is declared outside src/; the fields are those the reconciler
    reads and writes. *)
Record monitor := {
  spec : LiveUpdateSpec;
  modTimeByPath : gmap string MicroTime;
  lastFileEvents : gmap string FileEvent;
  hasChangesToSync : bool;
  lastKubernetesDiscovery : option KubernetesDiscovery;
  lastKubernetesApplyStatus : option KubernetesApplyStatus;
  lastImageMapStatus : option ImageMapStatus;
  containers : gmap monitorContainerKey monitorContainerStatus;
}.

(** The monitor built by ensureMonitorExists: the three maps are empty and
    all other fields have their zero value. *)
Definition newMonitor (sp : LiveUpdateSpec) : monitor :=
  {| spec := sp; modTimeByPath := ∅; lastFileEvents := ∅;
     hasChangesToSync := false; lastKubernetesDiscovery := None;
     lastKubernetesApplyStatus := None; lastImageMapStatus := None;
     containers := ∅ |}.

#[global] Instance monitor_inhabited : Inhabited monitor :=
  populate (newMonitor emptySpec).

(** The fixed part of the Reconciler struct. *)
Record Reconciler := {
  client : Client;
  ExecUpdater : ContainerUpdater;
  DockerUpdater : ContainerUpdater;
  updateMode : UpdateMode;
  (** DockerUpdater is a *containerupdate.DockerUpdater that builds to the
      reconciler's kube context. *)
  dockerWillBuildToKubeContext : bool;
}.

(** The mutable state: the world, the monitor table, the monitor objects the
    table points to, what was sent to the engine store and to the indexer,
    and the containers handed to UpdateContainer so far (oldest first). *)
Record State := {
  world : W;
  monitors : gmap string addr;
  heap : gmap addr monitor;
  dispatched : list Action;
  indexed : gmap string (list Key);
  updateCalls : list Container;
}.

Definition set_world (w : W) (s : State) : State :=
  {| world := w; monitors := monitors s; heap := heap s;
     dispatched := dispatched s; indexed := indexed s;
     updateCalls := updateCalls s |}.

Definition set_monitors (ms : gmap string addr) (s : State) : State :=
  {| world := world s; monitors := ms; heap := heap s;
     dispatched := dispatched s; indexed := indexed s;
     updateCalls := updateCalls s |}.

Definition set_heap (h : gmap addr monitor) (s : State) : State :=
  {| world := world s; monitors := monitors s; heap := h;
     dispatched := dispatched s; indexed := indexed s;
     updateCalls := updateCalls s |}.

Definition set_dispatched (l : list Action) (s : State) : State :=
  {| world := world s; monitors := monitors s; heap := heap s;
     dispatched := l; indexed := indexed s;
     updateCalls := updateCalls s |}.

Definition set_indexed (ix : gmap string (list Key)) (s : State) : State :=
  {| world := world s; monitors := monitors s; heap := heap s;
     dispatched := dispatched s; indexed := ix;
     updateCalls := updateCalls s |}.

Definition set_updateCalls (l : list Container) (s : State) : State :=
  {| world := world s; monitors := monitors s; heap := heap s;
     dispatched := dispatched s; indexed := indexed s;
     updateCalls := l |}.

(** *** State passing *)

Definition M (A : Type) : Type := State -> A * State.

Definition ret {A} (a : A) : M A := fun s => (a, s).

Definition bind {A B} (m : M A) (k : A -> M B) : M B :=
  fun s => let (a, s') := m s in k a s'.

Notation "'let*' x ':=' m 'in' k" := (bind m (fun x => k))
  (at level 10, x pattern, m at level 100, k at level 200).

Definition gets {A} (f : State -> A) : M A := fun s => (f s, s).

Definition modify (f : State -> State) : M unit := fun s => (tt, f s).

(** Dereference a monitor pointer. *)
Definition load (a : addr) : M monitor := gets (fun s => heap s !!! a).

(** Assign through a monitor pointer. *)
Definition update (a : addr) (f : monitor -> monitor) : M unit :=
  modify (fun s => set_heap (<[a := f (heap s !!! a)]> (heap s)) s).

(** Allocate a monitor object. *)
Definition new (m : monitor) : M addr :=
  fun s => let a := fresh (dom (heap s)) in (a, set_heap (<[a := m]> (heap s)) s).

(** Read the API server. *)
Definition get {A} (f : W -> result A) : M (result A) :=
  gets (fun s => f (world s)).

(** Act on the world. *)
Definition act {A} (f : W -> A * W) : M A :=
  fun s => let (a, w) := f (world s) in (a, set_world w s).

(** r.store.Dispatch *)
Definition Dispatch (x : Action) : M unit :=
  modify (fun s => set_dispatched (dispatched s ++ [x]) s).

(** Functions of other packages the sync engine calls: liveupdate.RunSteps,
    liveupdate.ShouldRestart, build.BoilRuns, build.MissingLocalPaths (which
    looks at the local file system), build.PathMappingsToContainerPaths and
    apis.NowMicro (which reads the clock). *)
Record Imports := {
  RunSteps : LiveUpdateSpec -> list LiveUpdateExec;
  ShouldRestart : LiveUpdateSpec -> bool;
  BoilRuns : list LiveUpdateExec -> list PathMapping -> result (list (list string));
  MissingLocalPaths :
    list PathMapping -> W -> result (list PathMapping * list PathMapping);
  PathMappingsToContainerPaths : list PathMapping -> list string;
  NowMicro : W -> MicroTime * W;
}.

(** A [for ... range] loop whose body only acts on the state. *)
Fixpoint forEach {A} (l : list A) (body : A -> M unit) : M unit :=
  match l with
  | [] => ret tt
  | x :: l' => let* _ := body x in forEach l' body
  end.

Variable r : Reconciler.
Variable pkg : Imports.

(** indexLiveUpdate returns keys of objects referenced by the LiveUpdate
    object for reverse lookup. *)
Definition indexLiveUpdate (lu : LiveUpdate) : list Key :=
  let result :=
    map (fun fwn => {| key_Namespace := lu_Namespace lu; key_Name := fwn;
                       key_GVK := fwGVK |})
        (FileWatchNames (lu_Spec lu)) in
  match Kubernetes (lu_Spec lu) with
  | None => result
  | Some k =>
      let result :=
        if bool_decide (DiscoveryName k ≠ "")
        then result ++ [{| key_Namespace := lu_Namespace lu;
                           key_Name := DiscoveryName k; key_GVK := discoveryGVK |}]
        else result in
      let result :=
        if bool_decide (ApplyName k ≠ "")
        then result ++ [{| key_Namespace := lu_Namespace lu;
                           key_Name := ApplyName k; key_GVK := applyGVK |}]
        else result in
      if bool_decide (ImageMapName k ≠ "")
      then result ++ [{| key_Namespace := lu_Namespace lu;
                         key_Name := ImageMapName k; key_GVK := imageMapGVK |}]
      else result
  end.

(** Modelled from the spec: indexer.OnReconcile is outside src/; it refreshes
    the keys the object is indexed under. *)
Definition OnReconcile (name : string) (lu : LiveUpdate) : M unit :=
  modify (fun s => set_indexed (<[name := indexLiveUpdate lu]> (indexed s)) s).

(** Create the monitor that tracks a live update. If the live update spec
    changes, wipe out all accumulated state. *)
Definition ensureMonitorExists (name : string) (sp : LiveUpdateSpec) : M addr :=
  let* ms := gets monitors in
  let* hit :=
    match ms !! name with
    | Some a =>
        let* m := load a in
        ret (if decide (sp = spec m) then Some a else None)
    | None => ret None
    end in
  match hit with
  | Some a => ret a
  | None =>
      let* a := new (newMonitor sp) in
      let* _ := modify (fun s => set_monitors (<[name := a]> (monitors s)) s) in
      ret a
  end.

(** Assignments to the fields of a monitor. *)
Definition set_modTimeByPath (v : gmap string MicroTime) (m : monitor) : monitor :=
  {| spec := spec m; modTimeByPath := v; lastFileEvents := lastFileEvents m;
     hasChangesToSync := hasChangesToSync m;
     lastKubernetesDiscovery := lastKubernetesDiscovery m;
     lastKubernetesApplyStatus := lastKubernetesApplyStatus m;
     lastImageMapStatus := lastImageMapStatus m; containers := containers m |}.

Definition set_lastFileEvents (v : gmap string FileEvent) (m : monitor) : monitor :=
  {| spec := spec m; modTimeByPath := modTimeByPath m; lastFileEvents := v;
     hasChangesToSync := hasChangesToSync m;
     lastKubernetesDiscovery := lastKubernetesDiscovery m;
     lastKubernetesApplyStatus := lastKubernetesApplyStatus m;
     lastImageMapStatus := lastImageMapStatus m; containers := containers m |}.

Definition set_hasChangesToSync (v : bool) (m : monitor) : monitor :=
  {| spec := spec m; modTimeByPath := modTimeByPath m;
     lastFileEvents := lastFileEvents m; hasChangesToSync := v;
     lastKubernetesDiscovery := lastKubernetesDiscovery m;
     lastKubernetesApplyStatus := lastKubernetesApplyStatus m;
     lastImageMapStatus := lastImageMapStatus m; containers := containers m |}.

Definition set_kubernetes (kd : option KubernetesDiscovery)
    (ka : option KubernetesApplyStatus) (im : option ImageMapStatus)
    (m : monitor) : monitor :=
  {| spec := spec m; modTimeByPath := modTimeByPath m;
     lastFileEvents := lastFileEvents m; hasChangesToSync := hasChangesToSync m;
     lastKubernetesDiscovery := kd; lastKubernetesApplyStatus := ka;
     lastImageMapStatus := im; containers := containers m |}.

Definition set_containers
    (v : gmap monitorContainerKey monitorContainerStatus) (m : monitor) : monitor :=
  {| spec := spec m; modTimeByPath := modTimeByPath m;
     lastFileEvents := lastFileEvents m; hasChangesToSync := hasChangesToSync m;
     lastKubernetesDiscovery := lastKubernetesDiscovery m;
     lastKubernetesApplyStatus := lastKubernetesApplyStatus m;
     lastImageMapStatus := lastImageMapStatus m; containers := v |}.

(** The innermost statement of reconcileOneFileWatch: keep the later of the
    stored and the event's time for file [f]. *)
Definition consumeFile (monitor : addr) (event : FileEvent) (f : string) : M unit :=
  let* m := load monitor in
  let store :=
    update monitor
      (fun m => set_modTimeByPath (<[f := Time event]> (modTimeByPath m)) m) in
  match modTimeByPath m !! f with
  | Some existing => if Before existing (Time event) then store else ret tt
  | None => store
  end.

(** Consume one FileWatch object. *)
Definition reconcileOneFileWatch (monitor : addr) (fwn : string)
  : M (bool * option error) :=
  let* res := get (GetFileWatch (client r) fwn) in
  match res with
  | Err err =>
      (* Do nothing if an object hasn't appeared yet. *)
      ret (false, IgnoreNotFound err)
  | Ok fw =>
      let events := FileEvents fw in
      match last events with
      | None => ret (false, None)
      | Some newLastFileEvent =>
          let* m := load monitor in
          let event := lastFileEvents m !! fwn in
          if match event with
             | Some ev => bool_decide (newLastFileEvent = ev)
             | None => false
             end
          then ret (false, None)
          else
            let* _ := update monitor (fun m =>
              set_lastFileEvents (<[fwn := newLastFileEvent]> (lastFileEvents m)) m) in
            (* Consume all the file events. *)
            let* _ := forEach events (fun event =>
              forEach (SeenFiles event) (consumeFile monitor event)) in
            ret (true, None)
      end
  end.

(** The loop of reconcileFileWatches over the remaining watch names. *)
Fixpoint reconcileFileWatchesLoop (monitor : addr) (names : list string)
    (hasChange : bool) : M (bool * option error) :=
  match names with
  | [] => ret (hasChange, None)
  | fwn :: names' =>
      let* oneChange_err := reconcileOneFileWatch monitor fwn in
      match snd oneChange_err with
      | Some err => ret (false, Some err)
      | None =>
          reconcileFileWatchesLoop monitor names'
            (if fst oneChange_err then true else hasChange)
      end
  end.

(** Consume all FileEvents off the FileWatch objects.
    Returns true if we saw new file events. *)
Definition reconcileFileWatches (monitor : addr) : M (bool * option error) :=
  let* m := load monitor in
  if bool_decide (length (FileWatchNames (spec m)) = 0%nat)
  then ret (false, None)
  else reconcileFileWatchesLoop monitor (FileWatchNames (spec m)) false.

(** A Get guarded by [name != ""]: nil when the name is empty. *)
Definition getIfNamed {A} (f : string -> W -> result A) (name : string)
  : M (result (option A)) :=
  if bool_decide (name ≠ "")
  then
    let* res := get (f name) in
    ret (match res with Ok a => Ok (Some a) | Err err => Err err end)
  else ret (Ok None).

(** Consume all objects off the KubernetesSelector.
    Returns true if we saw any changes to the objects we're watching. *)
Definition reconcileKubernetesResource (monitor : addr) : M (bool * option error) :=
  let* m := load monitor in
  match Kubernetes (spec m) with
  | None => ret (false, None)
  | Some selector =>
      let changed := false in
      let* ka := getIfNamed (GetKubernetesApply (client r)) (ApplyName selector) in
      match ka with
      | Err err => ret (false, IgnoreNotFound err)
      | Ok ka =>
          let changed :=
            match ka with
            | Some ka' =>
                if bool_decide (lastKubernetesApplyStatus m = None)
                   || negb (bool_decide
                              (lastKubernetesApplyStatus m = Some (ka_Status ka')))
                then true else changed
            | None => changed
            end in
          let* kd :=
            getIfNamed (GetKubernetesDiscovery (client r)) (DiscoveryName selector) in
          match kd with
          | Err err => ret (false, IgnoreNotFound err)
          | Ok kd =>
              let changed :=
                match kd with
                | Some kd' =>
                    if bool_decide (lastKubernetesDiscovery m = None)
                       || negb (bool_decide
                                  (kd_Status <$> lastKubernetesDiscovery m
                                   = Some (kd_Status kd')))
                    then true else changed
                | None => changed
                end in
              let* im := getIfNamed (GetImageMap (client r)) (ImageMapName selector) in
              match im with
              | Err err => ret (false, IgnoreNotFound err)
              | Ok im =>
                  let changed :=
                    match im with
                    | Some im' =>
                        if bool_decide (lastImageMapStatus m = None)
                           || negb (bool_decide
                                      (lastImageMapStatus m = Some (im_Status im')))
                        then true else changed
                    | None => changed
                    end in
                  let* _ := update monitor
                    (set_kubernetes kd (ka_Status <$> ka) (im_Status <$> im)) in
                  ret (changed, None)
              end
          end
      end
  end.

(** Convert the currently tracked state into a set of inputs to the updater,
    then apply them.  (The source leaves this to be filled in.) *)
Definition maybeSync (lu : LiveUpdate) (monitor : addr) : M (option error) :=
  ret None.

Definition containerUpdater (input : Input) : ContainerUpdater :=
  let isDC := IsDC input in
  if isDC || bool_decide (updateMode r = UpdateModeContainer)
  then DockerUpdater r
  else if bool_decide (updateMode r = UpdateModeKubectlExec)
  then ExecUpdater r
  else if dockerWillBuildToKubeContext r
  then DockerUpdater r
  else ExecUpdater r.

(** cu.UpdateContainer, with the call recorded in [updateCalls]. *)
Definition callUpdateContainer (cu : ContainerUpdater) (cInfo : Container)
    (archive : list PathMapping) (toRemove : list string)
    (boiledSteps : list (list string)) (hotReload : bool) : M (option error) :=
  let* _ := modify (fun s => set_updateCalls (updateCalls s ++ [cInfo]) s) in
  act (UpdateContainer cu cInfo archive toRemove boiledSteps hotReload).

Definition withLastExecError (msg : string) (c : LiveUpdateContainerStatus)
  : LiveUpdateContainerStatus :=
  {| ContainerName := ContainerName c; ContainerID := ContainerID c;
     PodName := PodName c; Namespace := Namespace c;
     LastFileTimeSynced := LastFileTimeSynced c; LastExecError := msg |}.

(** [result.Failed = &v1alpha1.LiveUpdateStateFailed{Reason, Message}]; the
    other fields of [result] stay as they are. *)
Definition withFailed (reason message : string) (result : LiveUpdateStatus)
  : LiveUpdateStatus :=
  {| Failed := Some {| Reason := reason; Message := message;
                       LastTransitionTime := 0 |};
     Containers := Containers result |}.

(** The loop of applyInternal over the remaining containers; [result] and
    [lastExecErrorStatus] are the variables of that name. *)
Fixpoint applyInternalLoop (cu : ContainerUpdater) (input : Input)
    (toRemove toArchive : list PathMapping) (boiledSteps : list (list string))
    (hotReload : bool) (containers : list Container)
    (result : LiveUpdateStatus)
    (lastExecErrorStatus : option LiveUpdateContainerStatus)
  : M LiveUpdateStatus :=
  match containers with
  | [] => ret result
  | cInfo :: containers' =>
      let archive := toArchive in
      let* err := callUpdateContainer cu cInfo archive
                    (PathMappingsToContainerPaths pkg toRemove)
                    boiledSteps hotReload in
      let* lastFileTimeSynced :=
        if IsZero (in_LastFileTimeSynced input)
        then act (NowMicro pkg)
        else ret (in_LastFileTimeSynced input) in
      let cStatus :=
        {| ContainerName := c_ContainerName cInfo;
           ContainerID := c_ContainerID cInfo;
           PodName := c_PodID cInfo;
           Namespace := c_Namespace cInfo;
           LastFileTimeSynced := lastFileTimeSynced;
           LastExecError := "" |} in
      let next cStatus lastExecErrorStatus :=
        applyInternalLoop cu input toRemove toArchive boiledSteps hotReload
          containers'
          {| Failed := Failed result;
             Containers := Containers result ++ [cStatus] |}
          lastExecErrorStatus in
      match err with
      | Some err =>
          match MaybeRunStepFailure err with
          | Some runFail =>
              (* Keep running updates -- we want all containers to have the
                 same files on them even if the Runs don't succeed *)
              let cStatus := withLastExecError (Error err) cStatus in
              next cStatus (Some cStatus)
          | None =>
              (* Something went wrong with this update and it's NOT the
                 user's fault. Bail, and fall back to full build. *)
              ret (withFailed "UpdateFailed"
                     ("Updating pod " +:+ PodName cStatus +:+ ": " +:+ Error err)
                     result)
          end
      | None =>
          match lastExecErrorStatus with
          | Some failure =>
              (* This build succeeded, but previously at least one failed due
                 to user error. We may have inconsistent state--bail, and
                 fall back to full build. *)
              ret (withFailed "PodsInconsistent"
                     ("Pods in inconsistent state. Success: pod "
                        +:+ PodName cStatus +:+ ". Failure: pod "
                        +:+ PodName failure +:+ ". Error: "
                        +:+ LastExecError failure)
                     result)
          | None => next cStatus lastExecErrorStatus
          end
      end
  end.

(** Like apply, but doesn't write the status to the apiserver. *)
Definition applyInternal (sp : LiveUpdateSpec) (input : Input) : M LiveUpdateStatus :=
  let result := emptyStatus in
  let cu := containerUpdater input in
  let containers := in_Containers input in
  let runSteps := RunSteps pkg sp in
  let changedFiles := ChangedFiles input in
  let hotReload := negb (ShouldRestart pkg sp) in
  match BoilRuns pkg runSteps changedFiles with
  | Err err =>
      ret (withFailed "Invalid" ("Building exec: " +:+ Error err) result)
  | Ok boiledSteps =>
      (* rm files from container *)
      let* paths := get (MissingLocalPaths pkg changedFiles) in
      match paths with
      | Err err =>
          ret (withFailed "Invalid" ("Mapping paths: " +:+ Error err) result)
      | Ok (toRemove, toArchive) =>
          applyInternalLoop cu input toRemove toArchive boiledSteps hotReload
            containers result None
      end
  end.

(** [status.Failed.LastTransitionTime = transitionTime] *)
Definition withTransitionTime (t : MicroTime) (f : LiveUpdateStateFailed)
  : LiveUpdateStateFailed :=
  {| Reason := Reason f; Message := Message f; LastTransitionTime := t |}.

Definition withStatus (status : LiveUpdateStatus) (obj : LiveUpdate) : LiveUpdate :=
  {| lu_Name := lu_Name obj; lu_Namespace := lu_Namespace obj;
     lu_ManagedBy := lu_ManagedBy obj;
     lu_DeletionTimestamp := lu_DeletionTimestamp obj;
     lu_Spec := lu_Spec obj; lu_Status := status |}.

(** Helper function for the two live update codepaths (the reconciler path
    and the ForceApply path). *)
Definition apply (obj : LiveUpdate) (sp : LiveUpdateSpec) (input : Input)
    (monitor : option addr) : M (LiveUpdateStatus * option error) :=
  let* status := applyInternal sp input in
  let* _ :=
    match monitor with
    | Some monitor =>
        forEach (Containers status) (fun c =>
          update monitor (fun m =>
            set_containers
              (<[(ContainerID c, PodName c, Namespace c) :=
                   {| lastFileTimeSynced := LastFileTimeSynced c;
                      unrecoverable := bool_decide (Failed status ≠ None) |}]>
                 (containers m)) m))
    | None => ret tt
    end in
  (* Check to see if this is a state transition. *)
  let* status :=
    match Failed status with
    | Some failed =>
        let* transitionTime := act (NowMicro pkg) in
        let transitionTime :=
          match Failed (lu_Status obj) with
          | Some old =>
              if bool_decide (Reason old = Reason failed)
              then
                (* If the reason hasn't changed, don't treat this as a
                   transition. *)
                LastTransitionTime old
              else transitionTime
          | None => transitionTime
          end in
        ret {| Failed := Some (withTransitionTime transitionTime failed);
               Containers := Containers status |}
    | None => ret status
    end in
  if bool_decide (status ≠ lu_Status obj)
  then
    let update := withStatus status obj in
    let* err := act (StatusUpdate (client r) update) in
    match err with
    | Some err => ret (emptyStatus, Some err)
    | None => ret (status, None)
    end
  else ret (status, None).

(** Live-update containers by copying files and running exec commands.
    Update the apiserver when finished. *)
Definition ForceApply (nn : string) (sp : LiveUpdateSpec) (input : Input)
  : M (LiveUpdateStatus * option error) :=
  let* obj := get (GetLiveUpdate (client r) nn) in
  match obj with
  | Err err => ret (emptyStatus, Some err)
  | Ok obj => apply obj sp input None
  end.

Definition Reconcile (req : string) : M (option error) :=
  let* res := get (GetLiveUpdate (client r) req) in
  let lu := match res with Ok lu => lu | Err _ => emptyLiveUpdate end in
  let err := match res with Ok _ => None | Err err => Some err end in
  let* _ := OnReconcile req lu in
  match err with
  | Some e =>
      if IsNotFound err
      then
        let* _ := Dispatch (LiveUpdateDeleteAction req) in
        let* _ := modify (fun s => set_monitors (delete req (monitors s)) s) in
        ret None
      else
        ret (Some {| Error := "liveupdate reconcile: " +:+ Error e;
                     kind := ErrOther |})
  | None =>
      if bool_decide (lu_DeletionTimestamp lu ≠ None)
      then
        let* _ := Dispatch (LiveUpdateDeleteAction req) in
        let* _ := modify (fun s => set_monitors (delete req (monitors s)) s) in
        ret None
      else
        (* The apiserver is the source of truth, and will ensure the engine
           state is up to date. *)
        let* _ := Dispatch (LiveUpdateUpsertAction lu) in
        if bool_decide (lu_ManagedBy lu ≠ "")
        then ret None
        else
          let* monitor := ensureMonitorExists (lu_Name lu) (lu_Spec lu) in
          let* hasFileChanges_err := reconcileFileWatches monitor in
          match snd hasFileChanges_err with
          | Some err => ret (Some err)
          | None =>
              let hasFileChanges := fst hasFileChanges_err in
              let* hasKubernetesChanges_err := reconcileKubernetesResource monitor in
              match snd hasKubernetesChanges_err with
              | Some err => ret (Some err)
              | None =>
                  let hasKubernetesChanges := fst hasKubernetesChanges_err in
                  let* _ :=
                    if hasFileChanges || hasKubernetesChanges
                    then update monitor (set_hasChangesToSync true)
                    else ret tt in
                  let* m := load monitor in
                  let* err :=
                    if hasChangesToSync m
                    then maybeSync lu monitor
                    else ret None in
                  match err with
                  | Some err => ret (Some err)
                  | None =>
                      let* _ := update monitor (set_hasChangesToSync false) in
                      ret None
                  end
              end
          end
  end.

(** ** Reasoning about the state *)

(** Unfold the state-passing combinators in the goal. *)
Ltac run :=
  unfold bind, ret, gets, modify, load, update, get, act, Dispatch; simpl.

(** The state in which the object at [a] is [m]. *)
Definition store (a : addr) (m : monitor) (s : State) : State :=
  set_heap (<[a := m]> (heap s)) s.

Lemma store_same a m s : heap s !! a = Some m -> store a m s = s.
Proof.
  intros H. unfold store. rewrite insert_id by exact H. by destruct s.
Qed.

Lemma store_store a m1 m2 s : store a m2 (store a m1 s) = store a m2 s.
Proof. unfold store, set_heap; simpl. by rewrite insert_insert_eq. Qed.

Lemma heap_store a m s : heap (store a m s) !! a = Some m.
Proof. unfold store; simpl. apply lookup_insert_eq. Qed.

Lemma set_modTimeByPath_same m : set_modTimeByPath (modTimeByPath m) m = m.
Proof. by destruct m. Qed.

(** *** The file-event loops as functions on the path map *)

(** What [consumeFile] leaves in modTimeByPath. *)
Definition mergeFile (t : MicroTime) (mt : gmap string MicroTime) (f : string)
  : gmap string MicroTime :=
  match mt !! f with
  | Some existing => if Before existing t then <[f := t]> mt else mt
  | None => <[f := t]> mt
  end.

Definition mergeEvent (mt : gmap string MicroTime) (ev : FileEvent)
  : gmap string MicroTime :=
  foldl (mergeFile (Time ev)) mt (SeenFiles ev).

Definition mergeEvents (mt : gmap string MicroTime) (evs : list FileEvent)
  : gmap string MicroTime :=
  foldl mergeEvent mt evs.

Lemma consumeFile_run a ev f s m :
  heap s !! a = Some m ->
  consumeFile a ev f s
  = (tt, store a (set_modTimeByPath (mergeFile (Time ev) (modTimeByPath m) f) m) s).
Proof.
  intros H. unfold consumeFile, mergeFile. run.
  rewrite (lookup_total_correct _ _ _ H).
  destruct (modTimeByPath m !! f) as [existing|]; [destruct (Before existing (Time ev))|];
    run; rewrite ?(lookup_total_correct _ _ _ H); try reflexivity.
  by rewrite set_modTimeByPath_same, store_same.
Qed.

Lemma consumeEvent_run a ev files s m :
  heap s !! a = Some m ->
  forEach files (consumeFile a ev) s
  = (tt, store a (set_modTimeByPath
                    (foldl (mergeFile (Time ev)) (modTimeByPath m) files) m) s).
Proof.
  revert s m. induction files as [|f files IH]; intros s m H; simpl.
  - run. by rewrite set_modTimeByPath_same, store_same.
  - unfold bind. rewrite (consumeFile_run _ _ _ _ _ H).
    rewrite (IH _ _ (heap_store _ _ _)). by rewrite store_store.
Qed.

Lemma consumeEvents_run a evs s m :
  heap s !! a = Some m ->
  forEach evs (fun event => forEach (SeenFiles event) (consumeFile a event)) s
  = (tt, store a (set_modTimeByPath (mergeEvents (modTimeByPath m) evs) m) s).
Proof.
  revert s m. induction evs as [|ev evs IH]; intros s m H; simpl.
  - run. by rewrite set_modTimeByPath_same, store_same.
  - unfold bind. rewrite (consumeEvent_run _ _ _ _ _ H).
    rewrite (IH _ _ (heap_store _ _ _)). by rewrite store_store.
Qed.

(** [reconcileOneFileWatch] as a function of the monitor it is given. *)
Lemma reconcileOneFileWatch_run a fwn s m :
  heap s !! a = Some m ->
  reconcileOneFileWatch a fwn s
  = match GetFileWatch (client r) fwn (world s) with
    | Err err => ((false, IgnoreNotFound err), s)
    | Ok fw =>
        match last (FileEvents fw) with
        | None => ((false, None), s)
        | Some ev =>
            if decide (lastFileEvents m !! fwn = Some ev)
            then ((false, None), s)
            else ((true, None),
                  store a (set_modTimeByPath
                             (mergeEvents (modTimeByPath m) (FileEvents fw))
                             (set_lastFileEvents
                                (<[fwn := ev]> (lastFileEvents m)) m)) s)
        end
    end.
Proof.
  intros H. unfold reconcileOneFileWatch. run.
  destruct (GetFileWatch (client r) fwn (world s)) as [fw|err]; [|reflexivity].
  destruct (last (FileEvents fw)) as [ev|]; [|reflexivity].
  run. rewrite (lookup_total_correct _ _ _ H).
  destruct (decide (lastFileEvents m !! fwn = Some ev)) as [Heq|Hne].
  - rewrite Heq. by rewrite bool_decide_eq_true_2.
  - assert (match lastFileEvents m !! fwn with
            | Some ev0 => bool_decide (ev = ev0)
            | None => false
            end = false) as ->.
    { destruct (lastFileEvents m !! fwn) as [ev0|]; [|done].
      apply bool_decide_eq_false_2. congruence. }
    rewrite ?(lookup_total_correct _ _ _ H).
    fold (store a (set_lastFileEvents (<[fwn:=ev]> (lastFileEvents m)) m) s).
    rewrite (consumeEvents_run _ _ _ _ (heap_store _ _ _)).
    by rewrite store_store.
Qed.

Lemma reconcileFileWatchesLoop_app a names1 names2 hasChange s :
  reconcileFileWatchesLoop a (names1 ++ names2) hasChange s
  = match reconcileFileWatchesLoop a names1 hasChange s with
    | ((hasChange', None), s') => reconcileFileWatchesLoop a names2 hasChange' s'
    | ((_, Some err), s') => ((false, Some err), s')
    end.
Proof.
  revert hasChange s. induction names1 as [|fwn names1 IH]; intros hasChange s; simpl.
  - reflexivity.
  - unfold bind. destruct (reconcileOneFileWatch a fwn s) as [[b [err|]] s1]; simpl.
    + reflexivity.
    + apply IH.
Qed.

(** *** The later of the times seen for one path *)

Definition later (old : option MicroTime) (t : MicroTime) : MicroTime :=
  match old with
  | Some existing => Z.max existing t
  | None => t
  end.

(** The time kept for path [p] after the events [evs], starting from [old]:
    the latest of [old] and of the times of the events that list [p]. *)
Definition latest (p : string) (old : option MicroTime) (evs : list FileEvent)
  : option MicroTime :=
  foldl (fun acc ev =>
           if bool_decide (p ∈ SeenFiles ev) then Some (later acc (Time ev)) else acc)
        old evs.

Lemma later_later old t : later (Some (later old t)) t = later old t.
Proof. destruct old; simpl; unfold MicroTime in *; lia. Qed.

Lemma mergeFile_lookup t mt f p :
  mergeFile t mt f !! p
  = if decide (p = f) then Some (later (mt !! p) t) else mt !! p.
Proof.
  unfold mergeFile, Before. destruct (decide (p = f)) as [->|Hne].
  - destruct (mt !! f) as [existing|] eqn:E; simpl.
    + destruct (Z.ltb_spec existing t).
      * rewrite lookup_insert_eq. f_equal. unfold MicroTime in *; lia.
      * rewrite E. f_equal. unfold MicroTime in *; lia.
    + by rewrite lookup_insert_eq.
  - destruct (mt !! f) as [existing|]; [destruct (existing <? t)%Z|];
      by rewrite ?lookup_insert_ne.
Qed.

Lemma mergeFiles_lookup t files mt p :
  foldl (mergeFile t) mt files !! p
  = if bool_decide (p ∈ files) then Some (later (mt !! p) t) else mt !! p.
Proof.
  revert mt. induction files as [|f files IH]; intros mt; simpl.
  - done.
  - rewrite IH, mergeFile_lookup.
    destruct (decide (p = f)) as [->|Hne].
    + rewrite (bool_decide_eq_true_2 (f ∈ f :: files)) by apply list_elem_of_here.
      rewrite later_later. by destruct (bool_decide (f ∈ files)).
    + destruct (bool_decide_reflect (p ∈ files)) as [Hin|Hnin].
      * rewrite bool_decide_eq_true_2; [done | by apply list_elem_of_further].
      * rewrite bool_decide_eq_false_2; [done|].
        rewrite elem_of_cons. intros [?|?]; done.
Qed.

Lemma mergeEvents_lookup evs mt p :
  mergeEvents mt evs !! p = latest p (mt !! p) evs.
Proof.
  unfold mergeEvents, latest. revert mt.
  induction evs as [|ev evs IH]; intros mt; simpl; [done|].
  rewrite IH. unfold mergeEvent. by rewrite mergeFiles_lookup.
Qed.

Lemma latest_app p old evs1 evs2 :
  latest p old (evs1 ++ evs2) = latest p (latest p old evs1) evs2.
Proof. unfold latest. apply foldl_app. Qed.

Lemma latest_skip p old evs :
  Forall (fun ev => p ∉ SeenFiles ev) evs -> latest p old evs = old.
Proof.
  intros H. revert old. induction H as [|ev evs Hev _ IH]; intros old; [done|].
  unfold latest; simpl. rewrite bool_decide_eq_false_2 by exact Hev. apply IH.
Qed.

Lemma latest_cons_in p old ev evs :
  p ∈ SeenFiles ev -> latest p old (ev :: evs) = latest p (Some (later old (Time ev))) evs.
Proof. intros H. unfold latest; simpl. by rewrite bool_decide_eq_true_2. Qed.

(** Two events that list [p], among events that do not: the later time wins,
    whichever comes first. *)
Lemma latest_two p ea eb pre mid post :
  p ∈ SeenFiles ea -> p ∈ SeenFiles eb ->
  Forall (fun ev => p ∉ SeenFiles ev) (pre ++ mid ++ post) ->
  latest p None (pre ++ ea :: mid ++ eb :: post) = Some (Z.max (Time ea) (Time eb)).
Proof.
  intros Ha Hb H. apply Forall_app in H as [Hpre H]. apply Forall_app in H as [Hmid Hpost].
  rewrite latest_app, (latest_skip _ _ _ Hpre), (latest_cons_in _ _ _ _ Ha).
  rewrite latest_app, (latest_skip _ _ _ Hmid), (latest_cons_in _ _ _ _ Hb).
  by rewrite (latest_skip _ _ _ Hpost).
Qed.

Lemma latest_one p old ea pre post :
  p ∈ SeenFiles ea ->
  Forall (fun ev => p ∉ SeenFiles ev) (pre ++ post) ->
  latest p old (pre ++ ea :: post) = Some (later old (Time ea)).
Proof.
  intros Ha H. apply Forall_app in H as [Hpre Hpost].
  rewrite latest_app, (latest_skip _ _ _ Hpre), (latest_cons_in _ _ _ _ Ha).
  by rewrite (latest_skip _ _ _ Hpost).
Qed.

(** ** File-watch delta detection *)

(** What "no new last event" means for the watch [fwn]: it is fetched, and its
    event list is empty or ends with the event the monitor stored for it. *)
Definition noNewLastEvent (s : State) (m : monitor) (fwn : string) : Prop :=
  exists fw, GetFileWatch (client r) fwn (world s) = Ok fw /\
    (FileEvents fw = [] \/
     exists ev, last (FileEvents fw) = Some ev /\ lastFileEvents m !! fwn = Some ev).

Lemma reconcileOneFileWatch_noNewLastEvent a fwn s m :
  heap s !! a = Some m -> noNewLastEvent s m fwn ->
  reconcileOneFileWatch a fwn s = ((false, None), s).
Proof.
  intros H (fw & Hget & Hev). rewrite (reconcileOneFileWatch_run _ _ _ _ H), Hget.
  destruct Hev as [-> | (ev & -> & Hlast)]; [done|].
  by rewrite decide_True.
Qed.

Lemma reconcileFileWatchesLoop_noNewLastEvent a names hasChange s m :
  heap s !! a = Some m ->
  (forall fwn, fwn ∈ names -> noNewLastEvent s m fwn) ->
  reconcileFileWatchesLoop a names hasChange s = ((hasChange, None), s).
Proof.
  intros H. revert hasChange. induction names as [|fwn names IH]; intros hasChange Hall.
  - reflexivity.
  - simpl. unfold bind.
    rewrite (reconcileOneFileWatch_noNewLastEvent _ _ _ _ H)
      by (apply Hall, list_elem_of_here).
    simpl. apply IH. intros fwn' Hin. by apply Hall, list_elem_of_further.
Qed.

(** C8: re-observation is idempotent.  When every file watch named by the
    monitor's spec is fetched with an empty event list, or with a last event
    equal to the one stored for it in lastFileEvents, reconcileFileWatches
    returns false without error and leaves the whole state, and so
    modTimeByPath, as it was. *)
Theorem reconcileFileWatches_idempotent (a : addr) (s : State) (m : monitor) :
  heap s !! a = Some m ->
  (forall fwn, fwn ∈ FileWatchNames (spec m) -> noNewLastEvent s m fwn) ->
  reconcileFileWatches a s = ((false, None), s) /\
  modTimeByPath (heap (snd (reconcileFileWatches a s)) !!! a) = modTimeByPath m.
Proof.
  intros H Hall.
  assert (reconcileFileWatches a s = ((false, None), s)) as Hrun.
  { unfold reconcileFileWatches. run. rewrite (lookup_total_correct _ _ _ H).
    case_bool_decide; [done|].
    by apply reconcileFileWatchesLoop_noNewLastEvent with m. }
  split; [exact Hrun|]. rewrite Hrun; simpl. by rewrite (lookup_total_correct _ _ _ H).
Qed.

(** C7: the merged modification time is the later one.  Let two events list
    path [p], with times [t1 < t2], and let [ea], [eb] be these events in
    either order of arrival; let [p] be unknown to the monitor so far.
    (1) When one fetched list holds [ea] before [eb], among events that do
    not list [p], and its last event is new, reconcileOneFileWatch reports a
    change and stores [max t1 t2] for [p]: every event of the list is folded,
    not only the newest.  (2) When [ea] is fetched in one reconciliation and
    [eb] in a later one, each time with a new last event, [max t1 t2] is
    stored for [p] after the second. *)
Theorem modTimeByPath_keeps_later (a : addr) (fwn p : string)
    (t1 t2 : MicroTime) (files1 files2 : list string) (ea eb : FileEvent) :
  (t1 < t2)%Z -> p ∈ files1 -> p ∈ files2 ->
  (ea = {| Time := t1; SeenFiles := files1 |} /\
   eb = {| Time := t2; SeenFiles := files2 |}
   \/
   ea = {| Time := t2; SeenFiles := files2 |} /\
   eb = {| Time := t1; SeenFiles := files1 |}) ->
  (forall (s : State) (m : monitor) (pre mid post : list FileEvent) (ev : FileEvent),
      heap s !! a = Some m -> modTimeByPath m !! p = None ->
      Forall (fun e => p ∉ SeenFiles e) (pre ++ mid ++ post) ->
      GetFileWatch (client r) fwn (world s)
        = Ok {| FileEvents := pre ++ ea :: mid ++ eb :: post |} ->
      last (pre ++ ea :: mid ++ eb :: post) = Some ev ->
      lastFileEvents m !! fwn ≠ Some ev ->
      fst (reconcileOneFileWatch a fwn s) = (true, None) /\
      modTimeByPath (heap (snd (reconcileOneFileWatch a fwn s)) !!! a) !! p
        = Some (Z.max t1 t2))
  /\
  (forall (s : State) (m : monitor) (w2 : W)
          (pre1 post1 pre2 post2 : list FileEvent) (ev1 ev2 : FileEvent),
      heap s !! a = Some m -> modTimeByPath m !! p = None ->
      Forall (fun e => p ∉ SeenFiles e) (pre1 ++ post1) ->
      Forall (fun e => p ∉ SeenFiles e) (pre2 ++ post2) ->
      GetFileWatch (client r) fwn (world s)
        = Ok {| FileEvents := pre1 ++ ea :: post1 |} ->
      last (pre1 ++ ea :: post1) = Some ev1 ->
      lastFileEvents m !! fwn ≠ Some ev1 ->
      GetFileWatch (client r) fwn w2
        = Ok {| FileEvents := pre2 ++ eb :: post2 |} ->
      last (pre2 ++ eb :: post2) = Some ev2 ->
      ev2 ≠ ev1 ->
      let s1 := snd (reconcileOneFileWatch a fwn s) in
      let s2 := snd (reconcileOneFileWatch a fwn (set_world w2 s1)) in
      modTimeByPath (heap s2 !!! a) !! p = Some (Z.max t1 t2)).
Proof.
  intros Hlt H1 H2 Hab.
  assert (p ∈ SeenFiles ea /\ p ∈ SeenFiles eb /\
          Z.max (Time ea) (Time eb) = Z.max t1 t2) as (Ha & Hb & Hmax).
  { destruct Hab as [[-> ->] | [-> ->]]; simpl; repeat split; try done.
    unfold MicroTime in *; lia. }
  split.
  - intros s m pre mid post ev H Hnone Hnot Hget Hlast Hnew.
    rewrite (reconcileOneFileWatch_run _ _ _ _ H), Hget; simpl. rewrite Hlast.
    rewrite decide_False by exact Hnew. simpl. split; [done|].
    rewrite lookup_total_insert_eq; simpl.
    by rewrite mergeEvents_lookup, Hnone, latest_two, Hmax.
  - intros s m w2 pre1 post1 pre2 post2 ev1 ev2 H Hnone Hnot1 Hnot2
      Hget1 Hlast1 Hnew1 Hget2 Hlast2 Hnew2 s1 s2.
    subst s1 s2.
    rewrite (reconcileOneFileWatch_run _ _ _ _ H), Hget1; simpl. rewrite Hlast1.
    rewrite decide_False by exact Hnew1. simpl.
    erewrite reconcileOneFileWatch_run; [|apply lookup_insert_eq].
    simpl. rewrite Hget2; simpl. rewrite Hlast2.
    rewrite lookup_insert_eq. rewrite decide_False by congruence. simpl.
    rewrite insert_insert_eq, lookup_total_insert_eq; simpl.
    rewrite mergeEvents_lookup, mergeEvents_lookup, Hnone.
    rewrite (latest_one _ _ _ _ _ Ha Hnot1), (latest_one _ _ _ _ _ Hb Hnot2).
    simpl. by rewrite Hmax.
Qed.

(** ** The monitor table *)

(** Every pointer in the monitor table refers to a monitor object. *)
Definition wf (s : State) : Prop :=
  forall name a, monitors s !! name = Some a -> is_Some (heap s !! a).

(** A monitor is stored under [name] and was built for the spec [sp]. *)
Definition storedFor (s : State) (name : string) (sp : LiveUpdateSpec) : Prop :=
  exists a m, monitors s !! name = Some a /\ heap s !! a = Some m /\ spec m = sp.

Definition allocated (name : string) (sp : LiveUpdateSpec) (s : State)
  : addr * State :=
  let a := fresh (dom (heap s)) in
  (a, set_monitors (<[name := a]> (monitors s))
        (set_heap (<[a := newMonitor sp]> (heap s)) s)).

Lemma ensureMonitorExists_run name sp s :
  ensureMonitorExists name sp s
  = match monitors s !! name with
    | Some a => if decide (sp = spec (heap s !!! a)) then (a, s)
                else allocated name sp s
    | None => allocated name sp s
    end.
Proof.
  unfold ensureMonitorExists, allocated, new. run.
  destruct (monitors s !! name) as [a|]; [|reflexivity].
  run. by destruct (decide (sp = spec (heap s !!! a))).
Qed.

Lemma fresh_not_in_heap (s : State) : heap s !! fresh (dom (heap s)) = None.
Proof. apply not_elem_of_dom, is_fresh. Qed.

Lemma ensureMonitorExists_stored name sp s :
  storedFor s name sp ->
  exists a, monitors s !! name = Some a /\ ensureMonitorExists name sp s = (a, s).
Proof.
  intros (a & m & Hn & Ha & Hsp). exists a. split; [done|].
  rewrite ensureMonitorExists_run, Hn, (lookup_total_correct _ _ _ Ha).
  by rewrite decide_True.
Qed.

Lemma ensureMonitorExists_fresh name sp s :
  wf s -> ~ storedFor s name sp ->
  ensureMonitorExists name sp s = allocated name sp s.
Proof.
  intros Hwf Hno. rewrite ensureMonitorExists_run.
  destruct (monitors s !! name) as [a|] eqn:Hn; [|reflexivity].
  destruct (decide (sp = spec (heap s !!! a))) as [Heq|]; [|reflexivity].
  destruct (Hwf _ _ Hn) as [m Ha]. exfalso. apply Hno. exists a, m.
  by rewrite (lookup_total_correct _ _ _ Ha) in Heq.
Qed.

Lemma storedFor_dec s name sp : storedFor s name sp \/ ~ storedFor s name sp.
Proof.
  unfold storedFor.
  destruct (monitors s !! name) as [a|] eqn:Hn;
    [|right; intros (?&?&?&?&?); congruence].
  destruct (heap s !! a) as [m|] eqn:Ha;
    [|right; intros (?&?&?&?&?); congruence].
  destruct (decide (spec m = sp)); [left; by exists a, m | right].
  intros (?&?&?&?&?); congruence.
Qed.

Lemma ensureMonitorExists_wf name sp s :
  wf s -> wf (snd (ensureMonitorExists name sp s)).
Proof.
  intros Hwf. destruct (storedFor_dec s name sp) as [Hst|Hno].
  - destruct (ensureMonitorExists_stored _ _ _ Hst) as (a & _ & ->). exact Hwf.
  - rewrite (ensureMonitorExists_fresh _ _ _ Hwf Hno). unfold allocated; simpl.
    intros n a. unfold wf; simpl. rewrite lookup_insert. case_decide.
    + intros [= <-]. rewrite lookup_insert_eq. by eexists.
    + intros Hn. destruct (Hwf _ _ Hn) as [m Hm]. rewrite lookup_insert.
      case_decide; by eexists.
Qed.

(** C6: ensureMonitorExists returns the stored monitor, and leaves the state
    as it is, if and only if a monitor is stored under the name with a spec
    equal to the given one.  Otherwise it allocates a monitor, stores it under
    the name and returns it; that monitor has the given spec and empty
    modTimeByPath, lastFileEvents and containers, so that any file watch
    fetched with a non-empty event list is reported as changed again, whatever
    the replaced monitor had recorded for it. *)
Theorem ensureMonitorExists_reset (name : string) (sp : LiveUpdateSpec)
    (s s' : State) (a : addr) :
  wf s ->
  ensureMonitorExists name sp s = (a, s') ->
  (storedFor s name sp <-> monitors s !! name = Some a /\ s' = s)
  /\
  (~ storedFor s name sp ->
   heap s !! a = None /\
   monitors s' = <[name := a]> (monitors s) /\
   heap s' = <[a := newMonitor sp]> (heap s) /\
   world s' = world s /\
   (exists m', heap s' !! a = Some m' /\ spec m' = sp /\
               modTimeByPath m' = ∅ /\ lastFileEvents m' = ∅ /\ containers m' = ∅) /\
   (forall fwn fw ev,
       GetFileWatch (client r) fwn (world s') = Ok fw ->
       last (FileEvents fw) = Some ev ->
       fst (reconcileOneFileWatch a fwn s') = (true, None))).
Proof.
  intros Hwf Hrun.
  assert (~ storedFor s name sp ->
          a = fresh (dom (heap s)) /\
          s' = set_monitors (<[name := a]> (monitors s))
                 (set_heap (<[a := newMonitor sp]> (heap s)) s)) as Hfresh.
  { intros Hno. rewrite (ensureMonitorExists_fresh _ _ _ Hwf Hno) in Hrun.
    unfold allocated in Hrun. by injection Hrun as <- <-. }
  split; [split|].
  - intros Hst. destruct (ensureMonitorExists_stored _ _ _ Hst) as (a0 & Hn & Hrun').
    rewrite Hrun in Hrun'. by injection Hrun' as -> ->.
  - intros [Hn ->].
    destruct (Hwf _ _ Hn) as [m Ha].
    rewrite ensureMonitorExists_run, Hn in Hrun.
    rewrite (lookup_total_correct _ _ _ Ha) in Hrun.
    destruct (decide (sp = spec m)) as [->|Hne]; [by exists a, m|].
    unfold allocated in Hrun. injection Hrun as Hfr _.
    pose proof (fresh_not_in_heap s) as Hnone. rewrite Hfr in Hnone. congruence.
  - intros Hno. destruct (Hfresh Hno) as [Ha ->]. simpl.
    split; [rewrite Ha; apply fresh_not_in_heap|].
    do 3 (split; [reflexivity|]).
    split.
    + exists (newMonitor sp). by rewrite lookup_insert_eq.
    + intros fwn fw ev Hget Hlast.
      erewrite reconcileOneFileWatch_run by (simpl; apply lookup_insert_eq).
      simpl in Hget |- *. rewrite Hget, Hlast. simpl.
      by rewrite lookup_empty, decide_False.
Qed.

(** ** Kubernetes delta detection *)

(** The outcome of a Get guarded by [name != ""]. *)
Definition fetched {A} (f : string -> W -> result A) (name : string) (w : W)
  : result (option A) :=
  if bool_decide (name ≠ "")
  then match f name w with Ok x => Ok (Some x) | Err err => Err err end
  else Ok None.

Lemma getIfNamed_run {A} (f : string -> W -> result A) name s :
  getIfNamed f name s = (fetched f name (world s), s).
Proof. unfold getIfNamed, fetched. by case_bool_decide. Qed.

(** At least one configured kind, fetched as [ka], [kd], [im], differs from
    the monitor's last-seen snapshot of it; a missing snapshot differs from
    every status. *)
Definition someKindChanged (m : monitor) (ka : option KubernetesApply)
    (kd : option KubernetesDiscovery) (im : option ImageMap) : Prop :=
  (exists x, ka = Some x /\ lastKubernetesApplyStatus m ≠ Some (ka_Status x)) \/
  (exists x, kd = Some x /\
             kd_Status <$> lastKubernetesDiscovery m ≠ Some (kd_Status x)) \/
  (exists x, im = Some x /\ lastImageMapStatus m ≠ Some (im_Status x)).

Lemma reconcileKubernetesResource_run a s m selector :
  heap s !! a = Some m -> Kubernetes (spec m) = Some selector ->
  reconcileKubernetesResource a s
  = match fetched (GetKubernetesApply (client r)) (ApplyName selector) (world s) with
    | Err err => ((false, IgnoreNotFound err), s)
    | Ok ka =>
      match fetched (GetKubernetesDiscovery (client r)) (DiscoveryName selector)
                    (world s) with
      | Err err => ((false, IgnoreNotFound err), s)
      | Ok kd =>
        match fetched (GetImageMap (client r)) (ImageMapName selector) (world s) with
        | Err err => ((false, IgnoreNotFound err), s)
        | Ok im =>
            ((match ka with
              | Some x => bool_decide (lastKubernetesApplyStatus m ≠ Some (ka_Status x))
              | None => false
              end
              || match kd with
                 | Some x => bool_decide (kd_Status <$> lastKubernetesDiscovery m
                                          ≠ Some (kd_Status x))
                 | None => false
                 end
              || match im with
                 | Some x => bool_decide (lastImageMapStatus m ≠ Some (im_Status x))
                 | None => false
                 end,
              None),
             store a (set_kubernetes kd (ka_Status <$> ka) (im_Status <$> im) m) s)
        end
      end
    end.
Proof.
  intros H Hsel. unfold reconcileKubernetesResource. run.
  rewrite (lookup_total_correct _ _ _ H), Hsel.
  unfold bind. rewrite getIfNamed_run.
  destruct (fetched (GetKubernetesApply (client r)) _ _) as [ka|err]; [|reflexivity].
  rewrite getIfNamed_run.
  destruct (fetched (GetKubernetesDiscovery (client r)) _ _) as [kd|err]; [|reflexivity].
  rewrite getIfNamed_run.
  destruct (fetched (GetImageMap (client r)) _ _) as [im|err]; [|reflexivity].
  run. rewrite (lookup_total_correct _ _ _ H). unfold store. f_equal. f_equal.
  destruct ka as [ka|], kd as [kd|], im as [im|]; simpl;
    repeat case_bool_decide; simpl; try reflexivity; exfalso;
    destruct (lastKubernetesDiscovery m); simpl in *; intuition congruence.
Qed.

(** C3, as amended.  Let the monitor's spec have a kubernetes selector, and
    take the three dependencies in the order apply, discovery, image map.
    (1) When the first fetch that fails fails with [err], detection stops
    there: it returns false with [IgnoreNotFound err], which is no error for a
    not-found answer, and leaves the state, hence all three last-seen
    snapshots, as it was.  (2) When every configured dependency is fetched,
    detection returns no error, sets all three snapshots to what was fetched
    (empty for a kind that is not configured), whatever the comparison found,
    and returns true if and only if some configured kind differs from its
    last-seen snapshot. *)
Theorem reconcileKubernetesResource_detects (a : addr) (s : State) (m : monitor)
    (selector : LiveUpdateKubernetesSelector) :
  heap s !! a = Some m ->
  Kubernetes (spec m) = Some selector ->
  let ka := fetched (GetKubernetesApply (client r)) (ApplyName selector) (world s) in
  let kd := fetched (GetKubernetesDiscovery (client r)) (DiscoveryName selector)
              (world s) in
  let im := fetched (GetImageMap (client r)) (ImageMapName selector) (world s) in
  (forall err,
      ka = Err err \/
      (exists x, ka = Ok x) /\ kd = Err err \/
      (exists x, ka = Ok x) /\ (exists y, kd = Ok y) /\ im = Err err ->
      reconcileKubernetesResource a s = ((false, IgnoreNotFound err), s) /\
      (IsNotFound (Some err) = true ->
       reconcileKubernetesResource a s = ((false, None), s)))
  /\
  (forall ka' kd' im',
      ka = Ok ka' -> kd = Ok kd' -> im = Ok im' ->
      snd (fst (reconcileKubernetesResource a s)) = None /\
      snd (reconcileKubernetesResource a s)
        = store a (set_kubernetes kd' (ka_Status <$> ka') (im_Status <$> im') m) s /\
      (fst (fst (reconcileKubernetesResource a s)) = true
       <-> someKindChanged m ka' kd' im')).
Proof.
  intros H Hsel ka kd im. rewrite (reconcileKubernetesResource_run _ _ _ _ H Hsel).
  fold ka kd im. split.
  - intros err Hfail.
    destruct Hfail as [Ha | [[[x Ha] Hd] | [[x Ha] [[y Hd] Hi]]]];
      rewrite Ha, ?Hd, ?Hi.
    all: split; [reflexivity|]; intros Hnf; unfold IgnoreNotFound; by rewrite Hnf.
  - intros ka' kd' im' -> -> ->. simpl. split; [reflexivity|]. split; [reflexivity|].
    unfold someKindChanged. rewrite !orb_true_iff.
    assert (forall {A} (o : option A) (P : A -> Prop) `{forall x, Decision (P x)},
               match o with Some x => bool_decide (P x) | None => false end = true
               <-> exists x, o = Some x /\ P x) as Hopt.
    { intros A o P ?. destruct o as [x|]; simpl.
      - rewrite bool_decide_eq_true. split; [by exists x | by intros (? & [= <-] & ?)].
      - split; [done | by intros (? & ? & ?)]. }
    rewrite (Hopt _ ka' (fun x => lastKubernetesApplyStatus m ≠ Some (ka_Status x)) _).
    rewrite (Hopt _ kd' (fun x => kd_Status <$> lastKubernetesDiscovery m
                                  ≠ Some (kd_Status x)) _).
    rewrite (Hopt _ im' (fun x => lastImageMapStatus m ≠ Some (im_Status x)) _).
    tauto.
Qed.

(** ** The sync engine *)

(** The status entry [st] is the one of container [c]. *)
Definition statusOf (c : Container) (st : LiveUpdateContainerStatus) : Prop :=
  ContainerName st = c_ContainerName c /\ ContainerID st = c_ContainerID c /\
  PodName st = c_PodID c /\ Namespace st = c_Namespace c.

(** An updater that answers the same for a container whatever it is asked to
    do and in every world: always no error; always the run-step failure
    [err]. *)
Definition succeeds (cu : ContainerUpdater) (c : Container) : Prop :=
  forall archive toRemove steps hotReload w,
    fst (UpdateContainer cu c archive toRemove steps hotReload w) = None.

Definition runStepFails (cu : ContainerUpdater) (c : Container) (err : error) : Prop :=
  is_Some (MaybeRunStepFailure err) /\
  forall archive toRemove steps hotReload w,
    fst (UpdateContainer cu c archive toRemove steps hotReload w) = Some err.

Section Loop.

Variables (cu : ContainerUpdater) (input : Input).
Variables (toRemove toArchive : list PathMapping).
Variables (boiledSteps : list (list string)) (hotReload : bool).

Let loop := applyInternalLoop cu input toRemove toArchive boiledSteps hotReload.

Definition readTime : M MicroTime :=
  if IsZero (in_LastFileTimeSynced input)
  then act (NowMicro pkg)
  else ret (in_LastFileTimeSynced input).

Definition statusAt (cInfo : Container) (t : MicroTime) : LiveUpdateContainerStatus :=
  {| ContainerName := c_ContainerName cInfo; ContainerID := c_ContainerID cInfo;
     PodName := c_PodID cInfo; Namespace := c_Namespace cInfo;
     LastFileTimeSynced := t; LastExecError := "" |}.

Definition appended (result : LiveUpdateStatus) (st : LiveUpdateContainerStatus)
  : LiveUpdateStatus :=
  {| Failed := Failed result; Containers := Containers result ++ [st] |}.

Definition called (cInfo : Container) : M (option error) :=
  callUpdateContainer cu cInfo toArchive
    (PathMappingsToContainerPaths pkg toRemove) boiledSteps hotReload.

(** The call of UpdateContainer the loop makes for [cInfo], with the archive,
    the paths to remove and the commands of the batch, on the world [w]: its
    answer and the world it leaves. *)
Definition answer (cInfo : Container) (w : W) : option error * W :=
  UpdateContainer cu cInfo toArchive (PathMappingsToContainerPaths pkg toRemove)
    boiledSteps hotReload w.

(** The world after the loop's step for [cInfo]: after the call and, when the
    input gives no time, after the reading of the clock. *)
Definition worldAfterCall (cInfo : Container) (w : W) : W :=
  if IsZero (in_LastFileTimeSynced input)
  then snd (NowMicro pkg (snd (answer cInfo w)))
  else snd (answer cInfo w).

(** The answers of the calls for [containers], made one after the other from
    the world [w], and the world they leave. *)
Fixpoint answers (containers : list Container) (w : W) : list (option error) :=
  match containers with
  | [] => []
  | cInfo :: containers =>
      fst (answer cInfo w) :: answers containers (worldAfterCall cInfo w)
  end.

Definition worldAfter (containers : list Container) (w : W) : W :=
  foldl (fun w cInfo => worldAfterCall cInfo w) w containers.

Lemma loop_cons cInfo containers result lastExecErrorStatus s :
  loop (cInfo :: containers) result lastExecErrorStatus s
  = match called cInfo s with
    | (err, s1) =>
      match readTime s1 with
      | (t, s2) =>
        match err with
        | Some err =>
            match MaybeRunStepFailure err with
            | Some _ =>
                let st := withLastExecError (Error err) (statusAt cInfo t) in
                loop containers (appended result st) (Some st) s2
            | None =>
                (withFailed "UpdateFailed"
                   ("Updating pod " +:+ c_PodID cInfo +:+ ": " +:+ Error err)
                   result, s2)
            end
        | None =>
            match lastExecErrorStatus with
            | Some failure =>
                (withFailed "PodsInconsistent"
                   ("Pods in inconsistent state. Success: pod "
                      +:+ c_PodID cInfo +:+ ". Failure: pod "
                      +:+ PodName failure +:+ ". Error: "
                      +:+ LastExecError failure)
                   result, s2)
            | None => loop containers (appended result (statusAt cInfo t)) None s2
            end
        end
      end
    end.
Proof.
  unfold loop, called, readTime; simpl. unfold bind at 1.
  destruct (callUpdateContainer _ _ _ _ _ _ s) as [err s1].
  unfold bind at 1.
  destruct ((if IsZero (in_LastFileTimeSynced input) then act (NowMicro pkg)
             else ret (in_LastFileTimeSynced input)) s1) as [t s2].
  destruct err as [err|]; [destruct (MaybeRunStepFailure err)|
                            destruct lastExecErrorStatus]; reflexivity.
Qed.

Lemma called_run cInfo s :
  called cInfo s
  = (fst (UpdateContainer cu cInfo toArchive
            (PathMappingsToContainerPaths pkg toRemove) boiledSteps hotReload
            (world s)),
     set_world
       (snd (UpdateContainer cu cInfo toArchive
               (PathMappingsToContainerPaths pkg toRemove) boiledSteps hotReload
               (world s)))
       (set_updateCalls (updateCalls s ++ [cInfo]) s)).
Proof.
  unfold called, callUpdateContainer. run.
  by destruct (UpdateContainer cu cInfo _ _ _ _ (world s)).
Qed.

Lemma readTime_calls s : updateCalls (snd (readTime s)) = updateCalls s.
Proof.
  unfold readTime. destruct (IsZero _); run; [|done].
  by destruct (NowMicro pkg (world s)).
Qed.

Lemma step_calls cInfo s :
  updateCalls (snd (readTime (snd (called cInfo s)))) = updateCalls s ++ [cInfo].
Proof. by rewrite readTime_calls, called_run. Qed.

(** The shape of what the loop returns: the entries of the containers it went
    through are appended to [result.Containers]; either it went through all
    of them and [result.Failed] is as before, or it stopped at a container
    with UpdateFailed or PodsInconsistent, the entries of the containers
    before that one appended. *)
Lemma loop_shape containers result lastExecErrorStatus s :
  exists finished,
    Containers (fst (loop containers result lastExecErrorStatus s))
      = Containers result ++ finished /\
    ((Failed (fst (loop containers result lastExecErrorStatus s)) = Failed result /\
      Forall2 statusOf containers finished /\
      updateCalls (snd (loop containers result lastExecErrorStatus s))
        = updateCalls s ++ containers)
     \/
     (exists pre cInfo post f,
         containers = pre ++ cInfo :: post /\
         Forall2 statusOf pre finished /\
         Failed (fst (loop containers result lastExecErrorStatus s)) = Some f /\
         (Reason f = "UpdateFailed" \/ Reason f = "PodsInconsistent") /\
         updateCalls (snd (loop containers result lastExecErrorStatus s))
           = updateCalls s ++ pre ++ [cInfo])).
Proof.
  revert result lastExecErrorStatus s.
  induction containers as [|cInfo containers IH]; intros result lastErr s.
  - exists []. split; [by rewrite app_nil_r|]. left.
    repeat split; [constructor | by rewrite app_nil_r].
  - rewrite loop_cons. pose proof (step_calls cInfo s) as Hcalls.
    destruct (called cInfo s) as [err s1]. simpl in Hcalls.
    destruct (readTime s1) as [t s2]. simpl in Hcalls.
    assert (forall st lastErr',
               statusOf cInfo st ->
               exists finished,
                 Containers (fst (loop containers (appended result st) lastErr' s2))
                   = Containers result ++ finished /\
                 ((Failed (fst (loop containers (appended result st) lastErr' s2))
                     = Failed result /\
                   Forall2 statusOf (cInfo :: containers) finished /\
                   updateCalls (snd (loop containers (appended result st) lastErr' s2))
                     = updateCalls s ++ cInfo :: containers)
                  \/
                  (exists pre c post f,
                      cInfo :: containers = pre ++ c :: post /\
                      Forall2 statusOf pre finished /\
                      Failed (fst (loop containers (appended result st) lastErr' s2))
                        = Some f /\
                      (Reason f = "UpdateFailed" \/ Reason f = "PodsInconsistent") /\
                      updateCalls (snd (loop containers (appended result st) lastErr' s2))
                        = updateCalls s ++ pre ++ [c]))) as Hnext.
    { intros st lastErr' Hst.
      destruct (IH (appended result st) lastErr' s2) as (finished & Hc & Hcase).
      exists (st :: finished). split.
      { rewrite Hc. simpl. by rewrite <- app_assoc. }
      destruct Hcase as [(Hf & Hall & Hlog) | (pre & c & post & f & -> & Hall & Hf & Hr & Hlog)].
      - left. repeat split; [done | by constructor |].
        rewrite Hlog, Hcalls. by rewrite <- app_assoc.
      - right. exists (cInfo :: pre), c, post, f. repeat split; [by constructor | done..|].
        rewrite Hlog, Hcalls. by rewrite <- app_assoc. }
    assert (forall reason msg,
               reason = "UpdateFailed" \/ reason = "PodsInconsistent" ->
               exists finished,
                 Containers (withFailed reason msg result)
                   = Containers result ++ finished /\
                 (exists pre c post f,
                     cInfo :: containers = pre ++ c :: post /\
                     Forall2 statusOf pre finished /\
                     Failed (withFailed reason msg result) = Some f /\
                     (Reason f = "UpdateFailed" \/ Reason f = "PodsInconsistent") /\
                     updateCalls s2 = updateCalls s ++ pre ++ [c])) as Hstop.
    { intros reason msg Hr. exists []. split; [by rewrite app_nil_r|].
      exists [], cInfo, containers,
        {| Reason := reason; Message := msg; LastTransitionTime := 0 |}.
      repeat split; [constructor | exact Hr | exact Hcalls]. }
    destruct err as [err|]; [destruct (MaybeRunStepFailure err)|destruct lastErr].
    + apply Hnext. by repeat split.
    + destruct (Hstop "UpdateFailed"
                  ("Updating pod " +:+ c_PodID cInfo +:+ ": " +:+ Error err)
                  (or_introl eq_refl)) as (finished & Hc & Hcase).
      exists finished. split; [exact Hc | right; exact Hcase].
    + destruct (Hstop "PodsInconsistent"
                  ("Pods in inconsistent state. Success: pod "
                     +:+ c_PodID cInfo +:+ ". Failure: pod "
                     +:+ PodName l +:+ ". Error: " +:+ LastExecError l)
                  (or_intror eq_refl)) as (finished & Hc & Hcase).
      exists finished. split; [exact Hc | right; exact Hcase].
    + apply Hnext. by repeat split.
Qed.

Lemma called_fst cInfo s :
  fst (called cInfo s)
  = fst (UpdateContainer cu cInfo toArchive
           (PathMappingsToContainerPaths pkg toRemove) boiledSteps hotReload
           (world s)).
Proof. by rewrite called_run. Qed.

(** The loop's step for [cInfo] makes the call [answer cInfo] on the current
    world and leaves the world [worldAfterCall cInfo]. *)
Lemma step_answer cInfo s :
  fst (called cInfo s) = fst (answer cInfo (world s)) /\
  world (snd (readTime (snd (called cInfo s)))) = worldAfterCall cInfo (world s).
Proof.
  rewrite called_run. unfold answer, worldAfterCall, readTime. simpl.
  split; [reflexivity|].
  destruct (IsZero (in_LastFileTimeSynced input)); run; [|reflexivity].
  by destruct (NowMicro pkg _).
Qed.

Lemma answers_app l1 l2 w :
  answers (l1 ++ l2) w = answers l1 w ++ answers l2 (worldAfter l1 w).
Proof.
  revert w. induction l1 as [|c l1 IH]; intros w; simpl; [reflexivity|].
  by rewrite IH.
Qed.

Lemma worldAfter_app l1 l2 w :
  worldAfter (l1 ++ l2) w = worldAfter l2 (worldAfter l1 w).
Proof. apply foldl_app. Qed.

(** When every call of the batch answers a run-step failure, all containers
    are gone through and each gets an entry with the error of its call. *)
Lemma loop_all_fail (errs : list error) containers result lastErr s :
  answers containers (world s) = Some <$> errs ->
  Forall (fun err => is_Some (MaybeRunStepFailure err)) errs ->
  Failed (fst (loop containers result lastErr s)) = Failed result /\
  exists finished,
    Containers (fst (loop containers result lastErr s))
      = Containers result ++ finished /\
    Forall2 statusOf containers finished /\
    LastExecError <$> finished = Error <$> errs.
Proof.
  revert errs result lastErr s.
  induction containers as [|cInfo containers IH]; intros errs result lastErr s Hans Hall.
  - destruct errs; [|discriminate].
    split; [done|]. exists []. split; [by rewrite app_nil_r|]. by split; [constructor|].
  - destruct errs as [|err errs]; [discriminate|]. simpl in Hans.
    injection Hans as Herr Hrest.
    apply Forall_cons in Hall as [[runFail Hrf] Hall].
    rewrite loop_cons. destruct (step_answer cInfo s) as [Hfst Hw].
    destruct (called cInfo s) as [e s1]. simpl in Hfst, Hw.
    rewrite Herr in Hfst. subst e. rewrite Hrf.
    destruct (readTime s1) as [t s2]. simpl in Hw |- *.
    rewrite <- Hw in Hrest.
    destruct (IH errs (appended result (withLastExecError (Error err) (statusAt cInfo t)))
                 (Some (withLastExecError (Error err) (statusAt cInfo t)))
                 s2 Hrest Hall) as (Hf & finished & Hc & Hst & Hmsg).
    split; [exact Hf|].
    exists (withLastExecError (Error err) (statusAt cInfo t) :: finished).
    split; [rewrite Hc; simpl; by rewrite <- app_assoc|].
    split; [constructor; [by repeat split | exact Hst]|].
    rewrite !fmap_cons. by rewrite Hmsg.
Qed.

(** Once a run-step failure is recorded, the first container whose call
    answers no error ends the loop with PodsInconsistent. *)
Lemma loop_success_after_failure pre cInfo post result failure s :
  Forall (fun a => forall err, a = Some err -> is_Some (MaybeRunStepFailure err))
         (answers pre (world s)) ->
  fst (answer cInfo (worldAfter pre (world s))) = None ->
  Reason <$> Failed (fst (loop (pre ++ cInfo :: post) result (Some failure) s))
  = Some "PodsInconsistent".
Proof.
  revert result failure s.
  induction pre as [|c pre IH]; intros result failure s Hpre Hok; simpl in *.
  - rewrite loop_cons. destruct (step_answer cInfo s) as [Hfst _].
    destruct (called cInfo s) as [e s1]. simpl in Hfst.
    rewrite Hok in Hfst. subst e. by destruct (readTime s1).
  - apply Forall_cons in Hpre as [Hc Hpre].
    rewrite loop_cons. destruct (step_answer c s) as [Hfst Hw].
    destruct (called c s) as [e s1]. simpl in Hfst, Hw.
    destruct (readTime s1) as [t s2]. simpl in Hw.
    rewrite <- Hfst in Hc. rewrite <- Hw in Hpre, Hok.
    destruct e as [e|]; [|done].
    destruct (Hc e eq_refl) as [runFail ->]. simpl.
    by apply IH.
Qed.

(** The call for some container answers an error, a later call answers no
    error, and no call before that one answers an error other than a run-step
    failure: the loop ends with PodsInconsistent. *)
Lemma loop_failure_then_success pre cInfo post err result lastErr s :
  Some err ∈ answers pre (world s) ->
  Forall (fun a => forall err, a = Some err -> is_Some (MaybeRunStepFailure err))
         (answers pre (world s)) ->
  fst (answer cInfo (worldAfter pre (world s))) = None ->
  Reason <$> Failed (fst (loop (pre ++ cInfo :: post) result lastErr s))
  = Some "PodsInconsistent".
Proof.
  intros Hin Hpre Hok.
  destruct lastErr as [failure|]; [by apply loop_success_after_failure|].
  revert result s Hin Hpre Hok.
  induction pre as [|c pre IH]; intros result s Hin Hpre Hok; simpl in *.
  - by apply elem_of_nil in Hin.
  - apply Forall_cons in Hpre as [Hc Hpre].
    rewrite loop_cons. destruct (step_answer c s) as [Hfst Hw].
    destruct (called c s) as [e s1]. simpl in Hfst, Hw.
    destruct (readTime s1) as [t s2]. simpl in Hw.
    rewrite <- Hfst in Hc, Hin. rewrite <- Hw in Hpre, Hok, Hin.
    destruct e as [e|].
    + destruct (Hc e eq_refl) as [runFail ->]. simpl.
      by apply loop_success_after_failure.
    + apply IH; [|exact Hpre|exact Hok].
      apply elem_of_cons in Hin as [Hin|Hin]; [discriminate | exact Hin].
Qed.

End Loop.

Lemma applyInternal_run sp input s :
  applyInternal sp input s
  = match BoilRuns pkg (RunSteps pkg sp) (ChangedFiles input) with
    | Err err => (withFailed "Invalid" ("Building exec: " +:+ Error err) emptyStatus, s)
    | Ok boiledSteps =>
        match MissingLocalPaths pkg (ChangedFiles input) (world s) with
        | Err err =>
            (withFailed "Invalid" ("Mapping paths: " +:+ Error err) emptyStatus, s)
        | Ok (toRemove, toArchive) =>
            applyInternalLoop (containerUpdater input) input toRemove toArchive
              boiledSteps (negb (ShouldRestart pkg sp)) (in_Containers input)
              emptyStatus None s
        end
    end.
Proof.
  unfold applyInternal.
  destruct (BoilRuns pkg _ _) as [boiledSteps|err]; [|reflexivity].
  run. by destruct (MissingLocalPaths pkg _ _) as [[toRemove toArchive]|err].
Qed.

(** C4: a sync attempt that fails with reason Invalid never invokes
    UpdateContainer.  When the status computed by applyInternal has a failure
    with reason Invalid, the attempt left the state as it was: no call of
    UpdateContainer was recorded and the world is untouched; and the failure
    comes from BoilRuns or from MissingLocalPaths. *)
Theorem invalid_never_updates (sp : LiveUpdateSpec) (input : Input) (s : State)
    (f : LiveUpdateStateFailed) :
  Failed (fst (applyInternal sp input s)) = Some f ->
  Reason f = "Invalid" ->
  updateCalls (snd (applyInternal sp input s)) = updateCalls s /\
  snd (applyInternal sp input s) = s /\
  ((exists err, BoilRuns pkg (RunSteps pkg sp) (ChangedFiles input) = Err err) \/
   (exists err, MissingLocalPaths pkg (ChangedFiles input) (world s) = Err err)).
Proof.
  rewrite applyInternal_run. intros Hf Hr.
  destruct (BoilRuns pkg _ _) as [boiledSteps|err]; [|by eauto].
  destruct (MissingLocalPaths pkg _ _) as [[toRemove toArchive]|err]; [|by eauto].
  exfalso.
  destruct (loop_shape (containerUpdater input) input toRemove toArchive boiledSteps
              (negb (ShouldRestart pkg sp)) (in_Containers input) emptyStatus None s)
    as (finished & _ & [(Hnone & _) | (pre & c & post & f' & _ & _ & Hf' & Hr' & _)]).
  - rewrite Hf in Hnone. discriminate.
  - rewrite Hf in Hf'. injection Hf' as <-. rewrite Hr in Hr'.
    destruct Hr' as [Hr'|Hr']; discriminate.
Qed.

(** C2, as amended.  A failure descriptor does not empty the container list:
    when the status computed by applyInternal has a failure, either its reason
    is Invalid, the list is empty and UpdateContainer was not called, or its
    reason is UpdateFailed or PodsInconsistent and the list holds, in order,
    the entries of exactly the containers gone through before the one at
    which the attempt stopped. *)
Theorem failed_keeps_finished_containers (sp : LiveUpdateSpec) (input : Input)
    (s : State) (f : LiveUpdateStateFailed) :
  Failed (fst (applyInternal sp input s)) = Some f ->
  (Reason f = "Invalid" /\
   Containers (fst (applyInternal sp input s)) = [] /\
   updateCalls (snd (applyInternal sp input s)) = updateCalls s)
  \/
  (exists pre cInfo post,
      in_Containers input = pre ++ cInfo :: post /\
      Forall2 statusOf pre (Containers (fst (applyInternal sp input s))) /\
      (Reason f = "UpdateFailed" \/ Reason f = "PodsInconsistent") /\
      updateCalls (snd (applyInternal sp input s)) = updateCalls s ++ pre ++ [cInfo]).
Proof.
  rewrite applyInternal_run. intros Hf.
  destruct (BoilRuns pkg _ _) as [boiledSteps|err];
    [|left; simpl in *; by injection Hf as <-].
  destruct (MissingLocalPaths pkg _ _) as [[toRemove toArchive]|err];
    [|left; simpl in *; by injection Hf as <-].
  right.
  destruct (loop_shape (containerUpdater input) input toRemove toArchive boiledSteps
              (negb (ShouldRestart pkg sp)) (in_Containers input) emptyStatus None s)
    as (finished & Hc & [(Hnone & _) | (pre & c & post & f' & Hsplit & Hall & Hf' & Hr' & Hlog)]).
  - rewrite Hf in Hnone. discriminate.
  - rewrite Hf in Hf'. injection Hf' as <-.
    exists pre, c, post. rewrite Hc. by repeat split.
Qed.

(** C5: uniform run-step failure is not fatal.  When BoilRuns and
    MissingLocalPaths succeed and every call of UpdateContainer the batch
    makes (with the batch's archive, paths and commands, on the world left by
    the calls before it) answers a run-step failure, the status computed by
    applyInternal has no failure descriptor and holds one entry per
    container, in order, with the message of the error of its call in
    LastExecError. *)
Theorem uniform_run_step_failure (sp : LiveUpdateSpec) (input : Input) (s : State)
    (errs : list error) (boiledSteps : list (list string))
    (toRemove toArchive : list PathMapping) :
  BoilRuns pkg (RunSteps pkg sp) (ChangedFiles input) = Ok boiledSteps ->
  MissingLocalPaths pkg (ChangedFiles input) (world s) = Ok (toRemove, toArchive) ->
  answers (containerUpdater input) input toRemove toArchive boiledSteps
    (negb (ShouldRestart pkg sp)) (in_Containers input) (world s)
  = Some <$> errs ->
  Forall (fun err => is_Some (MaybeRunStepFailure err)) errs ->
  Failed (fst (applyInternal sp input s)) = None /\
  Forall2 statusOf (in_Containers input) (Containers (fst (applyInternal sp input s))) /\
  LastExecError <$> Containers (fst (applyInternal sp input s)) = Error <$> errs.
Proof.
  intros Hboil Hpaths Hans Hall. rewrite applyInternal_run, Hboil, Hpaths.
  destruct (loop_all_fail (containerUpdater input) input toRemove toArchive
              boiledSteps (negb (ShouldRestart pkg sp)) errs (in_Containers input)
              emptyStatus None s Hans Hall) as (Hf & finished & Hc & Hst & Hmsg).
  split; [exact Hf|]. by rewrite Hc.
Qed.

(** C1, as amended.  The order matters: when BoilRuns and MissingLocalPaths
    succeed, the call of UpdateContainer the batch makes for some container
    answers an error, the call for a container gone through after it answers
    no error, and no call before that one answers an error other than a
    run-step failure, the status computed by applyInternal carries the
    failure reason PodsInconsistent.  The calls are the batch's own: made
    with its archive, paths and commands, each on the world left by the calls
    before it. *)
Theorem failure_then_success_is_inconsistent (sp : LiveUpdateSpec) (input : Input)
    (s : State) (boiledSteps : list (list string))
    (toRemove toArchive : list PathMapping)
    (pre post : list Container) (cInfo : Container) (err : error) :
  let cu := containerUpdater input in
  let hotReload := negb (ShouldRestart pkg sp) in
  BoilRuns pkg (RunSteps pkg sp) (ChangedFiles input) = Ok boiledSteps ->
  MissingLocalPaths pkg (ChangedFiles input) (world s) = Ok (toRemove, toArchive) ->
  in_Containers input = pre ++ cInfo :: post ->
  Some err ∈ answers cu input toRemove toArchive boiledSteps hotReload pre (world s) ->
  Forall (fun a => forall err, a = Some err -> is_Some (MaybeRunStepFailure err))
         (answers cu input toRemove toArchive boiledSteps hotReload pre (world s)) ->
  fst (answer cu toRemove toArchive boiledSteps hotReload cInfo
         (worldAfter cu input toRemove toArchive boiledSteps hotReload pre (world s)))
  = None ->
  Reason <$> Failed (fst (applyInternal sp input s)) = Some "PodsInconsistent".
Proof.
  intros cu hotReload Hboil Hpaths Hsplit Hin Hpre Hok.
  rewrite applyInternal_run, Hboil, Hpaths, Hsplit.
  by eapply loop_failure_then_success.
Qed.

(** ** Status post-processing *)

(** A loop of assignments through a monitor pointer changes the heap only. *)
Lemma forEach_update_heap_only {A} (l : list A) (a : addr)
    (g : A -> monitor -> monitor) (s : State) :
  exists h, forEach l (fun x => update a (g x)) s = (tt, set_heap h s).
Proof.
  revert s. induction l as [|x l IH]; intros s; simpl.
  - exists (heap s). run. by destruct s.
  - unfold bind. destruct (update a (g x) s) as [[] s1] eqn:E.
    unfold update, modify in E. injection E as <-.
    destruct (IH (set_heap (<[a:=g x (heap s !!! a)]> (heap s)) s)) as [h ->].
    by exists h.
Qed.

(** The transition time [apply] gives to a failure with reason [reason],
    given the stored status and the current time. *)
Definition transitionTimeFor (stored : LiveUpdateStatus) (reason : string)
    (now : MicroTime) : MicroTime :=
  match Failed stored with
  | Some old => if bool_decide (Reason old = reason) then LastTransitionTime old else now
  | None => now
  end.

Lemma apply_failed_run obj sp input monitor s f :
  Failed (fst (applyInternal sp input s)) = Some f ->
  let s1 := snd (applyInternal sp input s) in
  let now := fst (NowMicro pkg (world s1)) in
  let w2 := snd (NowMicro pkg (world s1)) in
  let new :=
    {| Failed := Some (withTransitionTime
                         (transitionTimeFor (lu_Status obj) (Reason f) now) f);
       Containers := Containers (fst (applyInternal sp input s)) |} in
  fst (apply obj sp input monitor s)
  = if bool_decide (new ≠ lu_Status obj)
    then match fst (StatusUpdate (client r) (withStatus new obj) w2) with
         | Some err => (emptyStatus, Some err)
         | None => (new, None)
         end
    else (new, None).
Proof.
  intros Hf s1 now w2 new. subst s1 now w2 new. unfold apply, transitionTimeFor.
  unfold bind at 1. destruct (applyInternal sp input s) as [st s1]. simpl in Hf |- *.
  unfold bind at 1.
  assert (exists h,
             match monitor with
             | Some monitor0 =>
                 forEach (Containers st) (fun c =>
                   update monitor0 (fun m =>
                     set_containers
                       (<[(ContainerID c, PodName c, Namespace c) :=
                            {| lastFileTimeSynced := LastFileTimeSynced c;
                               unrecoverable := bool_decide (Failed st ≠ None) |}]>
                          (containers m)) m))
             | None => ret tt
             end s1 = (tt, set_heap h s1)) as [h ->].
  { destruct monitor as [a|].
    - apply (forEach_update_heap_only (Containers st) a
               (fun c m =>
                  set_containers
                    (<[(ContainerID c, PodName c, Namespace c) :=
                         {| lastFileTimeSynced := LastFileTimeSynced c;
                            unrecoverable := bool_decide (Failed st ≠ None) |}]>
                       (containers m)) m)).
    - exists (heap s1). run. by destruct s1. }
  rewrite Hf. run. destruct (NowMicro pkg (world s1)) as [now w2]. simpl.
  set (new := {| Failed := _; Containers := Containers st |}).
  destruct (bool_decide (new ≠ lu_Status obj)); [|reflexivity].
  run. by destruct (StatusUpdate (client r) (withStatus new obj) w2) as [[err|] w3].
Qed.

(** C9: the transition time of a failure.  When the status computed by a sync
    attempt has a failure descriptor, the new status is that status with a
    transition time [t]: apply returns it, or returns the error of the failed
    write of exactly that status.  If the stored status has a failure with the
    same reason, [t] is the stored LastTransitionTime; if it has no failure,
    or one with another reason, [t] is the current time read by apply. *)
Theorem transition_time_of_failure (obj : LiveUpdate) (sp : LiveUpdateSpec)
    (input : Input) (monitor : option addr) (s : State) (f : LiveUpdateStateFailed) :
  Failed (fst (applyInternal sp input s)) = Some f ->
  let now := fst (NowMicro pkg (world (snd (applyInternal sp input s)))) in
  let w2 := snd (NowMicro pkg (world (snd (applyInternal sp input s)))) in
  exists t,
    let new := {| Failed := Some {| Reason := Reason f; Message := Message f;
                                    LastTransitionTime := t |};
                  Containers := Containers (fst (applyInternal sp input s)) |} in
    (fst (apply obj sp input monitor s) = (new, None) \/
     exists err,
       fst (StatusUpdate (client r) (withStatus new obj) w2) = Some err /\
       fst (apply obj sp input monitor s) = (emptyStatus, Some err)) /\
    (forall old, Failed (lu_Status obj) = Some old -> Reason old = Reason f ->
                 t = LastTransitionTime old) /\
    (forall old, Failed (lu_Status obj) = Some old -> Reason old ≠ Reason f ->
                 t = now) /\
    (Failed (lu_Status obj) = None -> t = now).
Proof.
  intros Hf now w2.
  exists (transitionTimeFor (lu_Status obj) (Reason f) now). split; [|split; [|split]].
  - rewrite (apply_failed_run _ _ _ _ _ _ Hf). fold now w2.
    unfold withTransitionTime.
    set (new := {| Failed := _; Containers := _ |}).
    destruct (bool_decide (new ≠ lu_Status obj)); [|by left].
    destruct (fst (StatusUpdate (client r) (withStatus new obj) w2)) as [err|] eqn:E.
    + right. by exists err.
    + by left.
  - intros old Hold Hr. unfold transitionTimeFor. rewrite Hold.
    by rewrite bool_decide_eq_true_2.
  - intros old Hold Hr. unfold transitionTimeFor. rewrite Hold.
    by rewrite bool_decide_eq_false_2.
  - intros Hnone. unfold transitionTimeFor. by rewrite Hnone.
Qed.

(** ** A reconciliation pass that fails while fetching a file watch *)

(** What reconcileOneFileWatch makes of the monitor it is given. *)
Definition stepMonitor (w : W) (m : monitor) (fwn : string) : monitor :=
  match GetFileWatch (client r) fwn w with
  | Err _ => m
  | Ok fw =>
      match last (FileEvents fw) with
      | None => m
      | Some ev =>
          if decide (lastFileEvents m !! fwn = Some ev) then m
          else set_modTimeByPath (mergeEvents (modTimeByPath m) (FileEvents fw))
                 (set_lastFileEvents (<[fwn := ev]> (lastFileEvents m)) m)
      end
  end.

(** The error reconcileOneFileWatch returns for the watch [fwn]. *)
Definition fetchError (w : W) (fwn : string) : option error :=
  match GetFileWatch (client r) fwn w with
  | Err err => IgnoreNotFound err
  | Ok _ => None
  end.

Lemma reconcileOneFileWatch_step a fwn s m :
  heap s !! a = Some m ->
  snd (fst (reconcileOneFileWatch a fwn s)) = fetchError (world s) fwn /\
  snd (reconcileOneFileWatch a fwn s) = store a (stepMonitor (world s) m fwn) s /\
  (fst (fst (reconcileOneFileWatch a fwn s)) = false ->
   stepMonitor (world s) m fwn = m).
Proof.
  intros H. rewrite (reconcileOneFileWatch_run _ _ _ _ H).
  unfold fetchError, stepMonitor.
  destruct (GetFileWatch (client r) fwn (world s)) as [fw|err];
    [|by rewrite store_same].
  destruct (last (FileEvents fw)) as [ev|]; [|by rewrite store_same].
  destruct (decide (lastFileEvents m !! fwn = Some ev)); [by rewrite store_same|].
  done.
Qed.

(** The watch [fwn] holds nothing new for the monitor [m]. *)
Definition nothingNew (w : W) (m : monitor) (fwn : string) : Prop :=
  forall fw ev, GetFileWatch (client r) fwn w = Ok fw ->
                last (FileEvents fw) = Some ev ->
                lastFileEvents m !! fwn = Some ev.

Lemma stepMonitor_nothingNew w m fwn : nothingNew w m fwn -> stepMonitor w m fwn = m.
Proof.
  intros H. unfold stepMonitor.
  destruct (GetFileWatch (client r) fwn w) as [fw|] eqn:Hget; [|done].
  destruct (last (FileEvents fw)) as [ev|] eqn:E; [|done].
  rewrite decide_True; [done | by apply (H fw)].
Qed.

Lemma stepMonitor_establishes w m fwn : nothingNew w (stepMonitor w m fwn) fwn.
Proof.
  intros fw ev Hget Hlast. unfold stepMonitor. rewrite Hget, Hlast.
  destruct (decide (lastFileEvents m !! fwn = Some ev)); [done|].
  simpl. apply lookup_insert_eq.
Qed.

Lemma stepMonitor_preserves w m fwn fwn' :
  nothingNew w m fwn' -> nothingNew w (stepMonitor w m fwn) fwn'.
Proof.
  intros H. destruct (decide (fwn' = fwn)) as [->|Hne];
    [apply stepMonitor_establishes|].
  intros fw ev Hget Hlast. unfold stepMonitor.
  destruct (GetFileWatch (client r) fwn w) as [fw0|]; [|by apply (H fw)].
  destruct (last (FileEvents fw0)) as [ev0|]; [|by apply (H fw)].
  destruct (decide (lastFileEvents m !! fwn = Some ev0)); [by apply (H fw)|].
  simpl. rewrite lookup_insert_ne by done. by apply (H fw).
Qed.

Lemma stepMonitor_fields w m fwn :
  spec (stepMonitor w m fwn) = spec m /\
  hasChangesToSync (stepMonitor w m fwn) = hasChangesToSync m.
Proof.
  unfold stepMonitor.
  destruct (GetFileWatch (client r) fwn w) as [fw|]; [|done].
  destruct (last (FileEvents fw)) as [ev|]; [|done].
  by destruct (decide (lastFileEvents m !! fwn = Some ev)).
Qed.

(** Every file of every event of [fw] has a time in [mt] that is not earlier
    than the event. *)
Definition covered (mt : gmap string MicroTime) (fw : FileWatch) : Prop :=
  forall e p, e ∈ FileEvents fw -> p ∈ SeenFiles e ->
              exists t, mt !! p = Some t /\ (Time e <= t)%Z.

Lemma latest_grows p t0 evs :
  exists t, latest p (Some t0) evs = Some t /\ (t0 <= t)%Z.
Proof.
  revert t0. induction evs as [|ev evs IH]; intros t0.
  - exists t0. split; [done | lia].
  - unfold latest; simpl. destruct (bool_decide (p ∈ SeenFiles ev)).
    + destruct (IH (Z.max t0 (Time ev))) as (t & Ht & Hle).
      exists t. split; [exact Ht | unfold MicroTime in *; lia].
    + apply IH.
Qed.

Lemma latest_covers p old e evs :
  e ∈ evs -> p ∈ SeenFiles e ->
  exists t, latest p old evs = Some t /\ (Time e <= t)%Z.
Proof.
  revert old. induction evs as [|ev evs IH]; intros old Hin Hp.
  - by apply elem_of_nil in Hin.
  - apply elem_of_cons in Hin as [<-|Hin].
    + rewrite (latest_cons_in _ _ _ _ Hp).
      destruct (latest_grows p (later old (Time e)) evs) as (t & Ht & Hle).
      exists t. split; [exact Ht|]. destruct old; simpl in Hle; unfold MicroTime in *; lia.
    + unfold latest; simpl. by apply IH.
Qed.

Lemma stepMonitor_covered_new w m fwn fw ev :
  GetFileWatch (client r) fwn w = Ok fw -> last (FileEvents fw) = Some ev ->
  lastFileEvents m !! fwn ≠ Some ev ->
  covered (modTimeByPath (stepMonitor w m fwn)) fw.
Proof.
  intros Hget Hlast Hnew e p He Hp. unfold stepMonitor. rewrite Hget, Hlast.
  rewrite decide_False by exact Hnew. simpl. rewrite mergeEvents_lookup.
  by apply latest_covers with (e := e).
Qed.

Lemma stepMonitor_covered w m fwn fw :
  covered (modTimeByPath m) fw -> covered (modTimeByPath (stepMonitor w m fwn)) fw.
Proof.
  intros Hc e p He Hp. destruct (Hc e p He Hp) as (t0 & Ht0 & Hle).
  unfold stepMonitor.
  destruct (GetFileWatch (client r) fwn w) as [fw0|]; [|by exists t0].
  destruct (last (FileEvents fw0)) as [ev0|]; [|by exists t0].
  destruct (decide (lastFileEvents m !! fwn = Some ev0)); [by exists t0|].
  simpl. rewrite mergeEvents_lookup. unfold MicroTime in *. rewrite Ht0.
  destruct (latest_grows p t0 (FileEvents fw0)) as (t & Ht & Hle').
  exists t. split; [exact Ht | lia].
Qed.

(** Relative to the monitor [m0] the pass started from, the watch [fwn] is
    either as it was, or its last event is recorded and its events merged. *)
Definition progress (w : W) (m0 m : monitor) (fwn : string) : Prop :=
  forall fw ev, GetFileWatch (client r) fwn w = Ok fw ->
                last (FileEvents fw) = Some ev ->
                lastFileEvents m !! fwn = lastFileEvents m0 !! fwn \/
                covered (modTimeByPath m) fw.

Lemma stepMonitor_progress w m0 m fwn fwn' :
  progress w m0 m fwn' -> progress w m0 (stepMonitor w m fwn) fwn'.
Proof.
  intros H fw ev Hget Hlast.
  destruct (H fw ev Hget Hlast) as [Hsame|Hcov];
    [|right; by apply stepMonitor_covered].
  destruct (decide (fwn' = fwn)) as [->|Hne].
  - destruct (decide (lastFileEvents m !! fwn = Some ev)) as [Heq|Hnew].
    + left. rewrite stepMonitor_nothingNew; [done|].
      intros fw' ev' Hget' Hlast'. congruence.
    + right. by apply stepMonitor_covered_new with ev.
  - left. rewrite <- Hsame. unfold stepMonitor.
    destruct (GetFileWatch (client r) fwn w) as [fw0|]; [|done].
    destruct (last (FileEvents fw0)) as [ev0|]; [|done].
    destruct (decide (lastFileEvents m !! fwn = Some ev0)); [done|].
    simpl. by rewrite lookup_insert_ne.
Qed.

Lemma foldl_stepMonitor_fields w names m :
  spec (foldl (stepMonitor w) m names) = spec m /\
  hasChangesToSync (foldl (stepMonitor w) m names) = hasChangesToSync m.
Proof.
  revert m. induction names as [|fwn names IH]; intros m; simpl; [done|].
  destruct (IH (stepMonitor w m fwn)) as [-> ->]. apply stepMonitor_fields.
Qed.

Lemma foldl_stepMonitor_preserves w names m fwn :
  nothingNew w m fwn -> nothingNew w (foldl (stepMonitor w) m names) fwn.
Proof.
  revert m. induction names as [|fwn' names IH]; intros m H; simpl; [done|].
  by apply IH, stepMonitor_preserves.
Qed.

Lemma foldl_stepMonitor_nothingNew w names m fwn :
  fwn ∈ names -> nothingNew w (foldl (stepMonitor w) m names) fwn.
Proof.
  revert m. induction names as [|fwn' names IH]; intros m Hin; simpl.
  - by apply elem_of_nil in Hin.
  - apply elem_of_cons in Hin as [->|Hin]; [|by apply IH].
    apply foldl_stepMonitor_preserves, stepMonitor_establishes.
Qed.

Lemma foldl_stepMonitor_progress w names m0 m fwn :
  progress w m0 m fwn -> progress w m0 (foldl (stepMonitor w) m names) fwn.
Proof.
  revert m. induction names as [|fwn' names IH]; intros m H; simpl; [done|].
  by apply IH, stepMonitor_progress.
Qed.

Lemma foldl_stepMonitor_same w names m :
  (forall fwn, fwn ∈ names -> nothingNew w m fwn) ->
  foldl (stepMonitor w) m names = m.
Proof.
  induction names as [|fwn names IH]; intros H; simpl; [done|].
  rewrite stepMonitor_nothingNew by apply H, list_elem_of_here.
  apply IH. intros fwn' Hin. by apply H, list_elem_of_further.
Qed.

(** The loop over watches that are all fetched or not found. *)
Lemma reconcileFileWatchesLoop_steps a names hasChange s m :
  heap s !! a = Some m ->
  (forall fwn, fwn ∈ names -> fetchError (world s) fwn = None) ->
  exists hasChange',
    reconcileFileWatchesLoop a names hasChange s
    = ((hasChange', None), store a (foldl (stepMonitor (world s)) m names) s).
Proof.
  revert hasChange s m.
  induction names as [|fwn names IH]; intros hasChange s m H Hok; simpl.
  - exists hasChange. by rewrite store_same.
  - unfold bind.
    destruct (reconcileOneFileWatch_step a fwn s m H) as (Herr & Hs & _).
    destruct (reconcileOneFileWatch a fwn s) as [[b e] s1]. simpl in Herr, Hs.
    rewrite Herr, (Hok fwn (list_elem_of_here _ _)). simpl. subst s1.
    destruct (IH (if b then true else hasChange)
                 (store a (stepMonitor (world s) m fwn) s)
                 (stepMonitor (world s) m fwn) (heap_store _ _ _))
      as [hasChange' ->].
    { intros fwn' Hin. by apply Hok, list_elem_of_further. }
    exists hasChange'. by rewrite store_store.
Qed.

(** The loop that meets a watch whose fetch fails: the error comes back, and
    with it the state reached after the watches before. *)
Lemma reconcileFileWatchesLoop_error a pre bad post hasChange s m err :
  heap s !! a = Some m ->
  (forall fwn, fwn ∈ pre -> fetchError (world s) fwn = None) ->
  fetchError (world s) bad = Some err ->
  reconcileFileWatchesLoop a (pre ++ bad :: post) hasChange s
  = ((false, Some err), store a (foldl (stepMonitor (world s)) m pre) s).
Proof.
  intros H Hpre Hbad. rewrite reconcileFileWatchesLoop_app.
  destruct (reconcileFileWatchesLoop_steps a pre hasChange s m H Hpre) as [hc ->].
  simpl. unfold bind.
  destruct (reconcileOneFileWatch_step a bad _ _ (heap_store a
              (foldl (stepMonitor (world s)) m pre) s)) as (Herr & Hs & Hsame).
  destruct (reconcileOneFileWatch a bad _) as [[b e] s1]. simpl in Herr, Hs, Hsame.
  rewrite Herr. simpl. rewrite Hbad. f_equal. rewrite Hs, store_store.
  f_equal. unfold stepMonitor. unfold fetchError in Hbad.
  by destruct (GetFileWatch (client r) bad (world s)).
Qed.

(** The state in which Reconcile, having fetched [lu], looks for its monitor:
    the index is refreshed and the upsert dispatched. *)
Definition entered (req : string) (lu : LiveUpdate) (s : State) : State :=
  set_dispatched (dispatched s ++ [LiveUpdateUpsertAction lu])
    (set_indexed (<[req := indexLiveUpdate lu]> (indexed s)) s).

Lemma ensureMonitorExists_cases name sp s :
  wf s ->
  exists a m s',
    ensureMonitorExists name sp s = (a, s') /\
    heap s' !! a = Some m /\ spec m = sp /\
    monitors s' !! name = Some a /\ world s' = world s /\
    ((monitors s !! name = Some a /\ heap s !! a = Some m) \/ m = newMonitor sp).
Proof.
  intros Hwf. destruct (storedFor_dec s name sp) as [Hst|Hno].
  - destruct Hst as (a & m & Hn & Ha & Hsp). exists a, m, s.
    rewrite ensureMonitorExists_run, Hn, (lookup_total_correct _ _ _ Ha).
    rewrite decide_True by done. repeat split; try done. by left.
  - rewrite (ensureMonitorExists_fresh _ _ _ Hwf Hno). unfold allocated.
    eexists _, (newMonitor sp), _. split; [reflexivity|]. simpl.
    rewrite !lookup_insert_eq. repeat split. by right.
Qed.

Lemma Reconcile_fetch_error req s lu pre bad post err :
  wf s ->
  GetLiveUpdate (client r) req (world s) = Ok lu ->
  lu_DeletionTimestamp lu = None ->
  lu_ManagedBy lu = "" ->
  FileWatchNames (lu_Spec lu) = pre ++ bad :: post ->
  (forall fwn, fwn ∈ pre -> fetchError (world s) fwn = None) ->
  fetchError (world s) bad = Some err ->
  exists a m s1,
    ensureMonitorExists (lu_Name lu) (lu_Spec lu) (entered req lu s) = (a, s1) /\
    heap s1 !! a = Some m /\ spec m = lu_Spec lu /\
    monitors s1 !! lu_Name lu = Some a /\ world s1 = world s /\
    ((monitors s !! lu_Name lu = Some a /\ heap s !! a = Some m)
     \/ m = newMonitor (lu_Spec lu)) /\
    Reconcile req s
    = (Some err, store a (foldl (stepMonitor (world s)) m pre) s1).
Proof.
  intros Hwf Hget Hdel Hman Hnames Hpre Hbad.
  destruct (ensureMonitorExists_cases (lu_Name lu) (lu_Spec lu) (entered req lu s))
    as (a & m & s1 & Hens & Ha & Hsp & Hn & Hw & Hcase); [exact Hwf|].
  exists a, m, s1. do 6 (split; [done|]).
  unfold Reconcile. run. rewrite Hget. unfold OnReconcile. run.
  rewrite Hdel, Hman. simpl.
  fold (entered req lu s). rewrite Hens.
  unfold reconcileFileWatches. run. rewrite (lookup_total_correct _ _ _ Ha).
  rewrite Hsp, Hnames.
  rewrite bool_decide_eq_false_2 by (rewrite length_app; simpl; lia).
  simpl in Hw. rewrite <- Hw in Hpre, Hbad |- *.
  by rewrite (reconcileFileWatchesLoop_error _ _ _ _ _ _ _ _ Ha Hpre Hbad).
Qed.

Lemma wf_store a m s : wf s -> wf (store a m s).
Proof.
  intros Hwf name a' Hn. destruct (Hwf name a' Hn) as [m' Hm'].
  unfold store; simpl. rewrite lookup_insert. case_decide; by eexists.
Qed.

Lemma fetchError_not_found w fwn :
  (forall e, GetFileWatch (client r) fwn w = Err e -> IsNotFound (Some e) = true) ->
  fetchError w fwn = None.
Proof.
  intros H. unfold fetchError.
  destruct (GetFileWatch (client r) fwn w) as [fw|e]; [done|].
  unfold IgnoreNotFound. by rewrite (H e).
Qed.

Lemma reconcileOneFileWatch_nothingNew a fwn s m :
  heap s !! a = Some m -> fetchError (world s) fwn = None ->
  nothingNew (world s) m fwn ->
  reconcileOneFileWatch a fwn s = ((false, None), s).
Proof.
  intros H Herr Hnew. rewrite (reconcileOneFileWatch_run _ _ _ _ H).
  unfold fetchError in Herr.
  destruct (GetFileWatch (client r) fwn (world s)) as [fw|e] eqn:Hget;
    [|by rewrite Herr].
  destruct (last (FileEvents fw)) as [ev|] eqn:Hlast; [|done].
  by rewrite decide_True by (by apply (Hnew fw)).
Qed.

(** C10: a pass that fails on a later file watch keeps what it did for the
    earlier ones.  Let the live update be active, and let the fetch of the
    watch [bad] fail with an error that is not a not-found, the watches [pre]
    before it being fetched or not found.  Then Reconcile returns that error;
    in the state it leaves, the monitor stored for the live update records
    the last event of every earlier watch that has one, with the files of
    that watch's events merged into modTimeByPath (unless the stored monitor
    already recorded that last event before the pass); hasChangesToSync is
    not set by the pass; and on a retry with the same events every earlier
    watch reports nothing new, the pass failing again with the heap left as
    it is. *)
Theorem reconcile_keeps_progress_on_fetch_error (req : string) (s : State)
    (lu : LiveUpdate) (pre post : list string) (bad : string) (err : error) :
  wf s ->
  GetLiveUpdate (client r) req (world s) = Ok lu ->
  lu_DeletionTimestamp lu = None ->
  lu_ManagedBy lu = "" ->
  FileWatchNames (lu_Spec lu) = pre ++ bad :: post ->
  (forall fwn e, fwn ∈ pre -> GetFileWatch (client r) fwn (world s) = Err e ->
                 IsNotFound (Some e) = true) ->
  GetFileWatch (client r) bad (world s) = Err err ->
  IsNotFound (Some err) = false ->
  let s' := snd (Reconcile req s) in
  fst (Reconcile req s) = Some err /\
  exists a m',
    monitors s' !! lu_Name lu = Some a /\
    heap s' !! a = Some m' /\
    (forall fwn fw ev,
        fwn ∈ pre -> GetFileWatch (client r) fwn (world s) = Ok fw ->
        last (FileEvents fw) = Some ev ->
        lastFileEvents m' !! fwn = Some ev /\
        (covered (modTimeByPath m') fw \/
         exists a0 m0, monitors s !! lu_Name lu = Some a0 /\ heap s !! a0 = Some m0 /\
                       lastFileEvents m0 !! fwn = Some ev)) /\
    (hasChangesToSync m' = true ->
     exists a0 m0, monitors s !! lu_Name lu = Some a0 /\ heap s !! a0 = Some m0 /\
                   hasChangesToSync m0 = true) /\
    (forall fwn, fwn ∈ pre -> reconcileOneFileWatch a fwn s' = ((false, None), s')) /\
    fst (Reconcile req s') = Some err /\
    heap (snd (Reconcile req s')) = heap s'.
Proof.
  intros Hwf Hget Hdel Hman Hnames Hpre Hbad Hnf s'.
  assert (forall fwn, fwn ∈ pre -> fetchError (world s) fwn = None) as Hpre'.
  { intros fwn Hin. apply fetchError_not_found. intros e. by apply Hpre. }
  assert (fetchError (world s) bad = Some err) as Hbad'.
  { unfold fetchError, IgnoreNotFound. by rewrite Hbad, Hnf. }
  destruct (Reconcile_fetch_error req s lu pre bad post err
              Hwf Hget Hdel Hman Hnames Hpre' Hbad')
    as (a & m & s1 & Hens & Ha & Hsp & Hn & Hw & Hcase & Hrun).
  subst s'. rewrite Hrun. simpl.
  set (m1 := foldl (stepMonitor (world s)) m pre).
  split; [done|]. exists a, m1.
  split; [exact Hn|]. split; [apply lookup_insert_eq|].
  assert (forall fwn, fwn ∈ pre -> nothingNew (world s) m1 fwn) as Hseen.
  { intros fwn Hin. by apply foldl_stepMonitor_nothingNew. }
  split; [|split; [|split]].
  - intros fwn fw ev Hin Hfw Hlast. split; [by apply (Hseen fwn Hin fw)|].
    assert (progress (world s) m m1 fwn) as Hprog.
    { apply foldl_stepMonitor_progress. intros ? ? _ _. by left. }
    destruct (Hprog fw ev Hfw Hlast) as [Hsame|Hcov]; [|by left].
    right. rewrite (Hseen fwn Hin fw ev Hfw Hlast) in Hsame.
    destruct Hcase as [[Hn0 Ha0] | ->].
    + by exists a, m.
    + simpl in Hsame. by rewrite lookup_empty in Hsame.
  - intros Htrue.
    destruct (foldl_stepMonitor_fields (world s) pre m) as [_ Hflag].
    fold m1 in Hflag. rewrite Hflag in Htrue.
    destruct Hcase as [[Hn0 Ha0] | ->]; [by exists a, m | discriminate].
  - intros fwn Hin.
    apply reconcileOneFileWatch_nothingNew with m1.
    + apply lookup_insert_eq.
    + simpl. rewrite Hw. by apply Hpre'.
    + simpl. rewrite Hw. by apply Hseen.
  - assert (wf (store a m1 s1)) as Hwf'.
    { apply wf_store. pose proof (ensureMonitorExists_wf (lu_Name lu) (lu_Spec lu)
                                    (entered req lu s) Hwf) as Hwf1.
      by rewrite Hens in Hwf1. }
    assert (world (store a m1 s1) = world s) as Hw' by exact Hw.
    assert (GetLiveUpdate (client r) req (world (store a m1 s1)) = Ok lu) as Hget2
      by (by rewrite Hw').
    assert (forall fwn, fwn ∈ pre -> fetchError (world (store a m1 s1)) fwn = None)
      as Hpre2 by (by rewrite Hw').
    assert (fetchError (world (store a m1 s1)) bad = Some err) as Hbad2
      by (by rewrite Hw').
    destruct (Reconcile_fetch_error req (store a m1 s1) lu pre bad post err
                Hwf' Hget2 Hdel Hman Hnames Hpre2 Hbad2)
      as (a2 & m2 & s2 & Hens2 & Ha2 & _ & _ & _ & _ & Hrun2).
    destruct (foldl_stepMonitor_fields (world s) pre m) as [Hspec1 _].
    fold m1 in Hspec1.
    destruct (ensureMonitorExists_stored (lu_Name lu) (lu_Spec lu)
                (entered req lu (store a m1 s1))) as (a3 & Hn3 & Hens3).
    { exists a, m1. repeat split; [exact Hn | apply lookup_insert_eq | congruence]. }
    simpl in Hn3. rewrite Hn in Hn3. injection Hn3 as <-.
    rewrite Hens3 in Hens2. injection Hens2 as <- <-.
    simpl in Ha2. rewrite lookup_insert_eq in Ha2. injection Ha2 as <-.
    rewrite Hrun2. simpl. split; [done|].
    rewrite Hw. fold m1. rewrite (foldl_stepMonitor_same _ _ _ Hseen).
    by rewrite insert_insert_eq.
Qed.

(** ** Further properties of file-watch delta detection *)

(** No time stored in [mt] is lost or moved back in [mt']. *)
Definition grows (mt mt' : gmap string MicroTime) : Prop :=
  forall p t, mt !! p = Some t -> exists t', mt' !! p = Some t' /\ (t <= t')%Z.

(** The watch [fwn] is fetched with a last event other than the one the
    monitor [m] stored for it. *)
Definition hasNew (w : W) (m : monitor) (fwn : string) : Prop :=
  exists fw ev, GetFileWatch (client r) fwn w = Ok fw /\
                last (FileEvents fw) = Some ev /\
                lastFileEvents m !! fwn ≠ Some ev.

Lemma grows_refl mt : grows mt mt.
Proof. intros p t H. exists t. split; [done | lia]. Qed.

Lemma grows_trans mt1 mt2 mt3 : grows mt1 mt2 -> grows mt2 mt3 -> grows mt1 mt3.
Proof.
  intros H12 H23 p t H. destruct (H12 p t H) as (t2 & H2 & Hle2).
  destruct (H23 p t2 H2) as (t3 & H3 & Hle3). exists t3. split; [done | lia].
Qed.

Lemma mergeEvents_grows mt evs : grows mt (mergeEvents mt evs).
Proof.
  intros p t H. rewrite mergeEvents_lookup. unfold MicroTime in *. rewrite H.
  apply latest_grows.
Qed.

Lemma stepMonitor_grows w m fwn :
  grows (modTimeByPath m) (modTimeByPath (stepMonitor w m fwn)).
Proof.
  unfold stepMonitor.
  destruct (GetFileWatch (client r) fwn w) as [fw|]; [|apply grows_refl].
  destruct (last (FileEvents fw)) as [ev|]; [|apply grows_refl].
  destruct (decide (lastFileEvents m !! fwn = Some ev)); [apply grows_refl|].
  simpl. apply mergeEvents_grows.
Qed.

Lemma foldl_stepMonitor_grows w names m :
  grows (modTimeByPath m) (modTimeByPath (foldl (stepMonitor w) m names)).
Proof.
  revert m. induction names as [|fwn names IH]; intros m; simpl; [apply grows_refl|].
  eapply grows_trans; [apply stepMonitor_grows | apply IH].
Qed.

(** Either no fetch of [names] fails, or there is a first one that does. *)
Lemma first_fetchError w names :
  (forall fwn, fwn ∈ names -> fetchError w fwn = None) \/
  exists pre bad post err,
    names = pre ++ bad :: post /\
    (forall fwn, fwn ∈ pre -> fetchError w fwn = None) /\
    fetchError w bad = Some err.
Proof.
  induction names as [|fwn names IH].
  - left. intros fwn Hin. by apply elem_of_nil in Hin.
  - destruct (fetchError w fwn) as [err|] eqn:E.
    + right. exists [], fwn, names, err. repeat split; [|done].
      intros fwn' Hin. by apply elem_of_nil in Hin.
    + destruct IH as [Hall | (pre & bad & post & err & -> & Hpre & Hbad)].
      * left. intros fwn' Hin. apply elem_of_cons in Hin as [->|Hin]; [done|].
        by apply Hall.
      * right. exists (fwn :: pre), bad, post, err. repeat split; [|done].
        intros fwn' Hin. apply elem_of_cons in Hin as [->|Hin]; [done|].
        by apply Hpre.
Qed.

(** Whatever reconcileFileWatches returns, it leaves the monitor as the
    watches it went through made it. *)
Lemma reconcileFileWatches_shape a s m :
  heap s !! a = Some m ->
  exists names,
    snd (reconcileFileWatches a s) = store a (foldl (stepMonitor (world s)) m names) s.
Proof.
  intros H. unfold reconcileFileWatches. run. rewrite (lookup_total_correct _ _ _ H).
  case_bool_decide.
  - exists []. simpl. by rewrite store_same.
  - destruct (first_fetchError (world s) (FileWatchNames (spec m)))
      as [Hall | (pre & bad & post & err & -> & Hpre & Hbad)].
    + destruct (reconcileFileWatchesLoop_steps a _ false s m H Hall) as [hc ->].
      by eexists.
    + rewrite (reconcileFileWatchesLoop_error _ _ _ _ _ _ _ _ H Hpre Hbad).
      by eexists.
Qed.

(** X1: what a new last event does to the monitor.  When the watch is fetched
    with a last event other than the stored one, reconcileOneFileWatch
    reports a change, records that event for the watch, and leaves for every
    path the latest of its stored time and of the times of all fetched events
    that list it; the other fields of the monitor stay as they are. *)
Theorem reconcileOneFileWatch_merges (a : addr) (fwn : string) (s : State)
    (m : monitor) (fw : FileWatch) (ev : FileEvent) :
  heap s !! a = Some m ->
  GetFileWatch (client r) fwn (world s) = Ok fw ->
  last (FileEvents fw) = Some ev ->
  lastFileEvents m !! fwn ≠ Some ev ->
  fst (reconcileOneFileWatch a fwn s) = (true, None) /\
  exists m',
    heap (snd (reconcileOneFileWatch a fwn s)) !! a = Some m' /\
    (forall p, modTimeByPath m' !! p
               = latest p (modTimeByPath m !! p) (FileEvents fw)) /\
    lastFileEvents m' = <[fwn := ev]> (lastFileEvents m) /\
    spec m' = spec m /\
    hasChangesToSync m' = hasChangesToSync m /\
    lastKubernetesDiscovery m' = lastKubernetesDiscovery m /\
    lastKubernetesApplyStatus m' = lastKubernetesApplyStatus m /\
    lastImageMapStatus m' = lastImageMapStatus m /\
    containers m' = containers m.
Proof.
  intros H Hget Hlast Hnew.
  rewrite (reconcileOneFileWatch_run _ _ _ _ H), Hget, Hlast.
  rewrite decide_False by exact Hnew. split; [done|].
  eexists. split; [apply heap_store|]. simpl.
  split; [intros p; apply mergeEvents_lookup|]. done.
Qed.

(** X2: stored modification times only move forward.  Whatever
    reconcileFileWatches returns, also when it stops at a fetch error, every
    path the monitor had a time for still has one afterwards, and it is not
    earlier. *)
Theorem reconcileFileWatches_monotone (a : addr) (s : State) (m : monitor) :
  heap s !! a = Some m ->
  exists m',
    heap (snd (reconcileFileWatches a s)) !! a = Some m' /\
    grows (modTimeByPath m) (modTimeByPath m').
Proof.
  intros H. destruct (reconcileFileWatches_shape a s m H) as [names ->].
  eexists. split; [apply heap_store | apply foldl_stepMonitor_grows].
Qed.

Lemma hasNew_iff_changed a fwn s m :
  heap s !! a = Some m ->
  fst (fst (reconcileOneFileWatch a fwn s)) = true <-> hasNew (world s) m fwn.
Proof.
  intros H. rewrite (reconcileOneFileWatch_run _ _ _ _ H). unfold hasNew.
  destruct (GetFileWatch (client r) fwn (world s)) as [fw|err]; simpl.
  - destruct (last (FileEvents fw)) as [ev|] eqn:Hlast; simpl.
    + destruct (decide (lastFileEvents m !! fwn = Some ev)) as [Heq|Hne]; simpl.
      * split; [done|]. intros (fw' & ev' & [= <-] & Hl & Hn). congruence.
      * split; [|done]. intros _. by exists fw, ev.
    + split; [done|]. intros (fw' & ev' & [= <-] & Hl & Hn). congruence.
  - split; [done|]. by intros (fw' & ev' & ? & _).
Qed.

Lemma stepMonitor_hasNew_other w m fwn fwn' :
  fwn' ≠ fwn -> hasNew w (stepMonitor w m fwn) fwn' <-> hasNew w m fwn'.
Proof.
  intros Hne. unfold hasNew.
  assert (lastFileEvents (stepMonitor w m fwn) !! fwn' = lastFileEvents m !! fwn')
    as ->; [|done].
  unfold stepMonitor.
  destruct (GetFileWatch (client r) fwn w) as [fw|]; [|done].
  destruct (last (FileEvents fw)) as [ev|]; [|done].
  destruct (decide (lastFileEvents m !! fwn = Some ev)); [done|].
  simpl. by rewrite lookup_insert_ne.
Qed.

Lemma stepMonitor_hasNew_same w m fwn : ~ hasNew w (stepMonitor w m fwn) fwn.
Proof.
  intros (fw & ev & Hget & Hlast & Hnew). apply Hnew.
  by apply (stepMonitor_establishes w m fwn fw).
Qed.

Lemma reconcileFileWatchesLoop_changed a names hasChange s m :
  heap s !! a = Some m ->
  (forall fwn, fwn ∈ names -> fetchError (world s) fwn = None) ->
  fst (fst (reconcileFileWatchesLoop a names hasChange s)) = true
  <-> hasChange = true \/ exists fwn, fwn ∈ names /\ hasNew (world s) m fwn.
Proof.
  revert hasChange s m.
  induction names as [|fwn names IH]; intros hasChange s m H Hok; simpl.
  - split; [by left|]. intros [?|(fwn & Hin & _)]; [done|].
    by apply elem_of_nil in Hin.
  - unfold bind.
    destruct (reconcileOneFileWatch_step a fwn s m H) as (Herr & Hs & _).
    pose proof (hasNew_iff_changed a fwn s m H) as Hone.
    destruct (reconcileOneFileWatch a fwn s) as [[b e] s1]. simpl in Herr, Hs, Hone.
    rewrite Herr, (Hok fwn (list_elem_of_here _ _)). simpl. subst s1.
    rewrite (IH _ _ _ (heap_store _ _ _))
      by (intros fwn' Hin; by apply Hok, list_elem_of_further).
    simpl. split.
    + intros [Hb | (fwn' & Hin & Hnew)].
      * destruct b; [right; exists fwn; split; [apply list_elem_of_here|by apply Hone]
                    | by left].
      * right. exists fwn'. split; [by apply list_elem_of_further|].
        destruct (decide (fwn' = fwn)) as [->|Hne];
          [by apply stepMonitor_hasNew_same in Hnew|].
        by apply (stepMonitor_hasNew_other (world s) m fwn fwn' Hne).
    + intros [-> | (fwn' & Hin & Hnew)]; [left; by destruct b|].
      destruct (decide (fwn' = fwn)) as [->|Hne].
      * left. apply Hone in Hnew. by rewrite Hnew.
      * apply elem_of_cons in Hin as [->|Hin]; [done|].
        right. exists fwn'. split; [done|].
        by apply (stepMonitor_hasNew_other (world s) m fwn fwn' Hne).
Qed.

(** X3: when file-watch detection reports a change.  If no fetch fails with
    an error other than not-found, reconcileFileWatches returns no error, and
    returns true if and only if some watch named by the spec is fetched with
    a last event other than the one the monitor stored for it. *)
Theorem reconcileFileWatches_true_iff (a : addr) (s : State) (m : monitor) :
  heap s !! a = Some m ->
  (forall fwn e, fwn ∈ FileWatchNames (spec m) ->
                 GetFileWatch (client r) fwn (world s) = Err e ->
                 IsNotFound (Some e) = true) ->
  snd (fst (reconcileFileWatches a s)) = None /\
  (fst (fst (reconcileFileWatches a s)) = true
   <-> exists fwn, fwn ∈ FileWatchNames (spec m) /\ hasNew (world s) m fwn).
Proof.
  intros H Hnf.
  assert (forall fwn, fwn ∈ FileWatchNames (spec m) -> fetchError (world s) fwn = None)
    as Hok.
  { intros fwn Hin. apply fetchError_not_found. intros e. by apply Hnf. }
  unfold reconcileFileWatches. run. rewrite (lookup_total_correct _ _ _ H).
  case_bool_decide as Hlen.
  - simpl. split; [done|]. split; [done|]. intros (fwn & Hin & _).
    destruct (FileWatchNames (spec m)); [by apply elem_of_nil in Hin | done].
  - split.
    + by destruct (reconcileFileWatchesLoop_steps a _ false s m H Hok) as [hc ->].
    + rewrite (reconcileFileWatchesLoop_changed _ _ _ _ _ H Hok).
      split; [by intros [?|?] | by right].
Qed.

(** X4: consuming a watch twice.  Running reconcileOneFileWatch again on the
    state it left, the world being the same, reports no change, returns the
    same error as the first run, and leaves the state as it is. *)
Theorem reconcileOneFileWatch_twice (a : addr) (fwn : string) (s : State) (m : monitor) :
  heap s !! a = Some m ->
  reconcileOneFileWatch a fwn (snd (reconcileOneFileWatch a fwn s))
  = ((false, snd (fst (reconcileOneFileWatch a fwn s))),
     snd (reconcileOneFileWatch a fwn s)).
Proof.
  intros H. destruct (reconcileOneFileWatch_step a fwn s m H) as (Herr & Hs & _).
  rewrite Herr, Hs.
  rewrite (reconcileOneFileWatch_run _ _ _ _ (heap_store _ _ _)). simpl.
  unfold fetchError.
  destruct (GetFileWatch (client r) fwn (world s)) as [fw|err] eqn:Hget; [|done].
  destruct (last (FileEvents fw)) as [ev|] eqn:Hlast; [|done].
  rewrite decide_True; [done|].
  by apply (stepMonitor_establishes (world s) m fwn fw).
Qed.

(** ** Further properties of kubernetes delta detection *)

Lemma reconcileKubernetesResource_no_selector a s m :
  heap s !! a = Some m -> Kubernetes (spec m) = None ->
  reconcileKubernetesResource a s = ((false, None), s).
Proof.
  intros H Hsel. unfold reconcileKubernetesResource. run.
  by rewrite (lookup_total_correct _ _ _ H), Hsel.
Qed.

Lemma reconcileKubernetesResource_shape a s m :
  heap s !! a = Some m ->
  exists m',
    snd (reconcileKubernetesResource a s) = store a m' s /\
    spec m' = spec m /\
    modTimeByPath m' = modTimeByPath m /\
    lastFileEvents m' = lastFileEvents m /\
    hasChangesToSync m' = hasChangesToSync m /\
    containers m' = containers m /\
    (snd (fst (reconcileKubernetesResource a s)) ≠ None -> m' = m).
Proof.
  intros H. destruct (Kubernetes (spec m)) as [selector|] eqn:Hsel.
  - rewrite (reconcileKubernetesResource_run _ _ _ _ H Hsel).
    destruct (fetched (GetKubernetesApply (client r)) _ _) as [ka|err];
      [|exists m; by rewrite store_same].
    destruct (fetched (GetKubernetesDiscovery (client r)) _ _) as [kd|err];
      [|exists m; by rewrite store_same].
    destruct (fetched (GetImageMap (client r)) _ _) as [im|err];
      [|exists m; by rewrite store_same].
    eexists. split; [reflexivity|]. by repeat split.
  - rewrite (reconcileKubernetesResource_no_selector _ _ _ H Hsel).
    exists m. by rewrite store_same.
Qed.

(** X5: kubernetes detection changes the three snapshots only.  Whatever it
    returns, reconcileKubernetesResource leaves the state as it was except for
    the monitor it is given, and in that monitor the spec, the merged
    modification times, the last file events, hasChangesToSync and the
    container statuses as they were; when it returns an error, the monitor is
    untouched as well. *)
Theorem reconcileKubernetesResource_frame (a : addr) (s : State) (m : monitor) :
  heap s !! a = Some m ->
  exists m',
    snd (reconcileKubernetesResource a s) = store a m' s /\
    spec m' = spec m /\
    modTimeByPath m' = modTimeByPath m /\
    lastFileEvents m' = lastFileEvents m /\
    hasChangesToSync m' = hasChangesToSync m /\
    containers m' = containers m /\
    (snd (fst (reconcileKubernetesResource a s)) ≠ None -> m' = m).
Proof. apply reconcileKubernetesResource_shape. Qed.

Lemma reconcileKubernetesResource_again a s m :
  heap s !! a = Some m ->
  reconcileKubernetesResource a (snd (reconcileKubernetesResource a s))
  = ((false, snd (fst (reconcileKubernetesResource a s))),
     snd (reconcileKubernetesResource a s)).
Proof.
  intros H. destruct (Kubernetes (spec m)) as [selector|] eqn:Hsel.
  - rewrite (reconcileKubernetesResource_run _ _ _ _ H Hsel).
    destruct (fetched (GetKubernetesApply (client r)) _ _) as [ka|err] eqn:Eka;
      [|simpl; by rewrite (reconcileKubernetesResource_run _ _ _ _ H Hsel), Eka].
    destruct (fetched (GetKubernetesDiscovery (client r)) _ _) as [kd|err] eqn:Ekd;
      [|simpl; by rewrite (reconcileKubernetesResource_run _ _ _ _ H Hsel), Eka, Ekd].
    destruct (fetched (GetImageMap (client r)) _ _) as [im|err] eqn:Eim;
      [|simpl; by rewrite (reconcileKubernetesResource_run _ _ _ _ H Hsel), Eka, Ekd, Eim].
    simpl.
    erewrite reconcileKubernetesResource_run;
      [|apply lookup_insert_eq | exact Hsel].
    simpl. rewrite Eka, Ekd, Eim. rewrite store_store.
    destruct ka as [ka|], kd as [kd|], im as [im|]; simpl;
      rewrite ?bool_decide_eq_false_2 by auto; reflexivity.
  - rewrite (reconcileKubernetesResource_no_selector _ _ _ H Hsel). simpl.
    by rewrite (reconcileKubernetesResource_no_selector _ _ _ H Hsel).
Qed.

(** X6: detecting twice.  Running reconcileKubernetesResource again on the
    state it left, the world being the same, returns false with the same
    error as the first run and leaves the state as it is: a change is
    reported once. *)
Theorem reconcileKubernetesResource_twice (a : addr) (s : State) (m : monitor) :
  heap s !! a = Some m ->
  reconcileKubernetesResource a (snd (reconcileKubernetesResource a s))
  = ((false, snd (fst (reconcileKubernetesResource a s))),
     snd (reconcileKubernetesResource a s)).
Proof. apply reconcileKubernetesResource_again. Qed.

(** ** Further properties of the monitor table *)

(** X7: ensuring a monitor twice.  On a well-formed table, a second
    ensureMonitorExists with the same name and spec returns the monitor the
    first one returned and leaves the state as it is. *)
Theorem ensureMonitorExists_twice (name : string) (sp : LiveUpdateSpec) (s : State) :
  wf s ->
  ensureMonitorExists name sp (snd (ensureMonitorExists name sp s))
  = (fst (ensureMonitorExists name sp s), snd (ensureMonitorExists name sp s)).
Proof.
  intros Hwf.
  destruct (ensureMonitorExists_cases name sp s Hwf)
    as (a & m & s1 & Hrun & Ha & Hsp & Hn & _ & _).
  rewrite Hrun. simpl.
  destruct (ensureMonitorExists_stored name sp s1) as (a' & Hn' & ->).
  { by exists a, m. }
  congruence.
Qed.

(** X8: ensuring a monitor leaves the others alone.  ensureMonitorExists
    changes no other entry of the monitor table and no existing monitor
    object (a replaced monitor stays where it was, out of the table's reach),
    and nothing outside the table and the heap. *)
Theorem ensureMonitorExists_frame (name : string) (sp : LiveUpdateSpec) (s : State) :
  let s' := snd (ensureMonitorExists name sp s) in
  (forall n, n ≠ name -> monitors s' !! n = monitors s !! n) /\
  (forall a m, heap s !! a = Some m -> heap s' !! a = Some m) /\
  world s' = world s /\ dispatched s' = dispatched s /\
  indexed s' = indexed s /\ updateCalls s' = updateCalls s.
Proof.
  rewrite ensureMonitorExists_run.
  assert (let s' := snd (allocated name sp s) in
          (forall n, n ≠ name -> monitors s' !! n = monitors s !! n) /\
          (forall a m, heap s !! a = Some m -> heap s' !! a = Some m) /\
          world s' = world s /\ dispatched s' = dispatched s /\
          indexed s' = indexed s /\ updateCalls s' = updateCalls s) as Halloc.
  { unfold allocated; simpl. split; [|split; [|done]].
    - intros n Hne. by rewrite lookup_insert_ne.
    - intros a m Ha. rewrite lookup_insert_ne; [done|].
      intros <-. by rewrite fresh_not_in_heap in Ha. }
  destruct (monitors s !! name) as [a|]; [|exact Halloc].
  destruct (decide (sp = spec (heap s !!! a))); [done | exact Halloc].
Qed.

(** ** Further properties of a reconciliation pass *)

(** An active pass, whatever it returns, leaves the state reached by
    ensureMonitorExists with the monitor of the live update changed in its
    accumulated fields only. *)
Lemma Reconcile_active_shape req s lu :
  wf s ->
  GetLiveUpdate (client r) req (world s) = Ok lu ->
  lu_DeletionTimestamp lu = None ->
  lu_ManagedBy lu = "" ->
  exists a m1 s1 m',
    ensureMonitorExists (lu_Name lu) (lu_Spec lu) (entered req lu s) = (a, s1) /\
    heap s1 !! a = Some m1 /\ spec m1 = lu_Spec lu /\
    monitors s1 !! lu_Name lu = Some a /\ world s1 = world s /\
    ((monitors s !! lu_Name lu = Some a /\ heap s !! a = Some m1)
     \/ m1 = newMonitor (lu_Spec lu)) /\
    snd (Reconcile req s) = store a m' s1 /\
    spec m' = spec m1 /\ containers m' = containers m1 /\
    grows (modTimeByPath m1) (modTimeByPath m') /\
    (fst (Reconcile req s) = None -> hasChangesToSync m' = false) /\
    (fst (Reconcile req s) ≠ None -> hasChangesToSync m' = hasChangesToSync m1).
Proof.
  intros Hwf Hget Hdel Hman.
  destruct (ensureMonitorExists_cases (lu_Name lu) (lu_Spec lu) (entered req lu s))
    as (a & m1 & s1 & Hens & Ha & Hsp & Hn & Hw & Hcase); [exact Hwf|].
  exists a, m1, s1. unfold Reconcile. run. rewrite Hget. unfold OnReconcile. run.
  rewrite Hdel, Hman. simpl. fold (entered req lu s). rewrite Hens.
  destruct (reconcileFileWatches_shape a s1 m1 Ha) as [names Hs2].
  destruct (foldl_stepMonitor_fields (world s1) names m1) as [Hspec2 Hflag2].
  pose proof (foldl_stepMonitor_grows (world s1) names m1) as Hgrow2.
  assert (containers (foldl (stepMonitor (world s1)) m1 names) = containers m1) as Hcont2.
  { clear. revert m1. induction names as [|fwn names IH]; intros m1; simpl; [done|].
    rewrite IH. unfold stepMonitor.
    destruct (GetFileWatch (client r) fwn (world s1)) as [fw|]; [|done].
    destruct (last (FileEvents fw)) as [ev|]; [|done].
    by destruct (decide (lastFileEvents m1 !! fwn = Some ev)). }
  set (m2 := foldl (stepMonitor (world s1)) m1 names) in *.
  destruct (reconcileFileWatches a s1) as [[hasFileChanges e1] s2]. simpl in Hs2.
  subst s2. simpl.
  destruct e1 as [e1|].
  { exists m2. simpl. repeat split; try done. }
  destruct (reconcileKubernetesResource_shape a (store a m2 s1) m2 (heap_store _ _ _))
    as (m3 & Hs3 & Hspec3 & Hmod3 & _ & Hflag3 & Hcont3 & _).
  rewrite store_store in Hs3.
  destruct (reconcileKubernetesResource a (store a m2 s1))
    as [[hasKubernetesChanges e2] s3]. simpl in Hs3. subst s3. simpl.
  destruct e2 as [e2|].
  { exists m3. simpl. repeat split; try done; try congruence.
    by rewrite Hmod3. }
  clear Hflag2 Hflag3.
  exists (set_hasChangesToSync false m3).
  assert (Reconcile_tail :
            (let (_, s') :=
               (if hasFileChanges || hasKubernetesChanges
                then update a (set_hasChangesToSync true)
                else ret tt) (store a m3 s1) in
             let (err, s'0) :=
               (if hasChangesToSync (heap s' !!! a) then maybeSync lu a else ret None) s' in
             match err with
             | Some err => ret (Some err)
             | None => fun s0 =>
                 (None, set_heap (<[a:=set_hasChangesToSync false (heap s0 !!! a)]>
                                    (heap s0)) s0)
             end s'0)
            = (None, store a (set_hasChangesToSync false m3) s1)).
  { unfold maybeSync, store. run.
    destruct (hasFileChanges || hasKubernetesChanges); simpl;
      rewrite ?lookup_total_insert_eq; simpl;
      [|destruct (hasChangesToSync m3)]; simpl;
      by rewrite ?lookup_total_insert_eq, ?insert_insert_eq. }
  unfold maybeSync, update, modify, ret in Reconcile_tail |- *. simpl in Reconcile_tail |- *.
  rewrite Reconcile_tail. simpl.
  rewrite Hmod3. repeat split; try done; congruence.
Qed.

(** X9: reconciling a live update that is gone.  When the fetch answers
    not-found, or the object carries a deletion timestamp, Reconcile returns
    no error, dispatches the delete action for the requested name, and
    removes the name from the monitor table; the monitor objects, the world
    and the record of UpdateContainer calls stay as they are. *)
Theorem Reconcile_deleted (req : string) (s : State) :
  (exists e, GetLiveUpdate (client r) req (world s) = Err e /\
             IsNotFound (Some e) = true) \/
  (exists lu, GetLiveUpdate (client r) req (world s) = Ok lu /\
              lu_DeletionTimestamp lu ≠ None) ->
  fst (Reconcile req s) = None /\
  monitors (snd (Reconcile req s)) = delete req (monitors s) /\
  monitors (snd (Reconcile req s)) !! req = None /\
  dispatched (snd (Reconcile req s)) = dispatched s ++ [LiveUpdateDeleteAction req] /\
  heap (snd (Reconcile req s)) = heap s /\
  world (snd (Reconcile req s)) = world s /\
  updateCalls (snd (Reconcile req s)) = updateCalls s.
Proof.
  intros [(e & Hget & Hnf) | (lu & Hget & Hdel)];
    unfold Reconcile; run; rewrite Hget; unfold OnReconcile; run.
  - destruct e as [msg []]; try discriminate Hnf. simpl. by rewrite lookup_delete_eq.
  - rewrite bool_decide_eq_true_2 by exact Hdel. simpl. by rewrite lookup_delete_eq.
Qed.

(** X10: a failed fetch of the live update.  When the fetch fails with an
    error other than not-found, Reconcile returns an error whose message is
    that of the fetch error after the prefix "liveupdate reconcile: ",
    dispatches nothing, and leaves the monitor table, the monitor objects and
    the world as they are. *)
Theorem Reconcile_get_error (req : string) (s : State) (e : error) :
  GetLiveUpdate (client r) req (world s) = Err e ->
  IsNotFound (Some e) = false ->
  (Error <$> fst (Reconcile req s)) = Some ("liveupdate reconcile: " +:+ Error e) /\
  dispatched (snd (Reconcile req s)) = dispatched s /\
  monitors (snd (Reconcile req s)) = monitors s /\
  heap (snd (Reconcile req s)) = heap s /\
  world (snd (Reconcile req s)) = world s.
Proof.
  intros Hget Hnf. unfold Reconcile. run. rewrite Hget. unfold OnReconcile. run.
  by destruct e as [msg []]; try discriminate Hnf.
Qed.

(** X11: a live update managed elsewhere.  When the live update carries the
    managed-by annotation (and is not being deleted), Reconcile dispatches its
    upsert and returns no error without creating or touching any monitor. *)
Theorem Reconcile_managed (req : string) (s : State) (lu : LiveUpdate) :
  GetLiveUpdate (client r) req (world s) = Ok lu ->
  lu_DeletionTimestamp lu = None ->
  lu_ManagedBy lu ≠ "" ->
  fst (Reconcile req s) = None /\
  dispatched (snd (Reconcile req s)) = dispatched s ++ [LiveUpdateUpsertAction lu] /\
  monitors (snd (Reconcile req s)) = monitors s /\
  heap (snd (Reconcile req s)) = heap s /\
  world (snd (Reconcile req s)) = world s.
Proof.
  intros Hget Hdel Hman. unfold Reconcile. run. rewrite Hget. unfold OnReconcile. run.
  rewrite Hdel. simpl. by rewrite bool_decide_eq_true_2 by exact Hman.
Qed.

(** The fetch of the live update decides which way Reconcile goes. *)
Lemma Reconcile_cases req s :
  (exists e, GetLiveUpdate (client r) req (world s) = Err e /\
             IsNotFound (Some e) = true) \/
  (exists lu, GetLiveUpdate (client r) req (world s) = Ok lu /\
              lu_DeletionTimestamp lu ≠ None) \/
  (exists e, GetLiveUpdate (client r) req (world s) = Err e /\
             IsNotFound (Some e) = false) \/
  (exists lu, GetLiveUpdate (client r) req (world s) = Ok lu /\
              lu_DeletionTimestamp lu = None /\ lu_ManagedBy lu ≠ "") \/
  (exists lu, GetLiveUpdate (client r) req (world s) = Ok lu /\
              lu_DeletionTimestamp lu = None /\ lu_ManagedBy lu = "").
Proof.
  destruct (GetLiveUpdate (client r) req (world s)) as [lu|e].
  - destruct (lu_DeletionTimestamp lu) as [t|] eqn:Hdel.
    + right; left. exists lu. by rewrite Hdel.
    + destruct (decide (lu_ManagedBy lu = "")).
      * do 4 right. by exists lu.
      * do 3 right; left. by exists lu.
  - destruct (IsNotFound (Some e)) eqn:Hnf.
    + left. by exists e.
    + do 2 right; left. by exists e.
Qed.

(** X12: the reconciler path never syncs.  On a well-formed table, whatever
    the fetches answer, Reconcile leaves the world as it is and records no
    call of UpdateContainer: it updates no container, writes no status and
    does not read the clock. *)
Theorem Reconcile_never_syncs (req : string) (s : State) :
  wf s ->
  world (snd (Reconcile req s)) = world s /\
  updateCalls (snd (Reconcile req s)) = updateCalls s.
Proof.
  intros Hwf.
  destruct (Reconcile_cases req s)
    as [Hc | [Hc | [(e & Hget & Hnf) | [(lu & Hget & Hdel & Hman)
                                       | (lu & Hget & Hdel & Hman)]]]].
  - destruct Hc as (e & Hget & Hnf).
    unfold Reconcile. run. rewrite Hget. unfold OnReconcile. run.
    by destruct e as [msg []]; try discriminate Hnf.
  - destruct Hc as (lu & Hget & Hdel).
    unfold Reconcile. run. rewrite Hget. unfold OnReconcile. run.
    by rewrite bool_decide_eq_true_2 by exact Hdel.
  - unfold Reconcile. run. rewrite Hget. unfold OnReconcile. run.
    by destruct e as [msg []]; try discriminate Hnf.
  - unfold Reconcile. run. rewrite Hget. unfold OnReconcile. run.
    rewrite Hdel. simpl. by rewrite bool_decide_eq_true_2 by exact Hman.
  - destruct (Reconcile_active_shape req s lu Hwf Hget Hdel Hman)
      as (a & m1 & s1 & m' & Hens & _ & _ & _ & Hw & _ & -> & _).
    simpl. split; [exact Hw|].
    pose proof (ensureMonitorExists_run (lu_Name lu) (lu_Spec lu) (entered req lu s))
      as Hrun. rewrite Hens in Hrun.
    destruct (monitors (entered req lu s) !! lu_Name lu) as [a0|].
    + destruct (decide (lu_Spec lu = spec (heap (entered req lu s) !!! a0)));
        unfold allocated in Hrun; by injection Hrun as _ ->.
    + unfold allocated in Hrun. by injection Hrun as _ ->.
Qed.

(** X13: a pass that succeeds.  When the live update is active and Reconcile
    returns no error, the monitor table holds for it a monitor built for its
    current spec whose hasChangesToSync is false. *)
Theorem Reconcile_ok_clears_flag (req : string) (s : State) (lu : LiveUpdate) :
  wf s ->
  GetLiveUpdate (client r) req (world s) = Ok lu ->
  lu_DeletionTimestamp lu = None ->
  lu_ManagedBy lu = "" ->
  fst (Reconcile req s) = None ->
  exists a m',
    monitors (snd (Reconcile req s)) !! lu_Name lu = Some a /\
    heap (snd (Reconcile req s)) !! a = Some m' /\
    spec m' = lu_Spec lu /\
    hasChangesToSync m' = false.
Proof.
  intros Hwf Hget Hdel Hman Hok.
  destruct (Reconcile_active_shape req s lu Hwf Hget Hdel Hman)
    as (a & m1 & s1 & m' & _ & _ & Hsp & Hn & _ & _ & Hs & Hspec & _ & _ & Hflag & _).
  exists a, m'. rewrite Hs. simpl.
  split; [exact Hn|]. split; [apply lookup_insert_eq|].
  split; [congruence | by apply Hflag].
Qed.

(** ** Further properties of the sync engine *)

(** The reconciler's own bookkeeping is the same in [s] and [s']. *)
Definition sameTable (s s' : State) : Prop :=
  monitors s' = monitors s /\ heap s' = heap s /\
  dispatched s' = dispatched s /\ indexed s' = indexed s.

Section LoopMore.

Variables (cu : ContainerUpdater) (input : Input).
Variables (toRemove toArchive : list PathMapping).
Variables (boiledSteps : list (list string)) (hotReload : bool).

Let loop := applyInternalLoop cu input toRemove toArchive boiledSteps hotReload.
Let step := loop_cons cu input toRemove toArchive boiledSteps hotReload.
Let call := called cu toRemove toArchive boiledSteps hotReload.
Let stepped := step_answer cu input toRemove toArchive boiledSteps hotReload.
Let answer := answer cu toRemove toArchive boiledSteps hotReload.
Let answers := answers cu input toRemove toArchive boiledSteps hotReload.
Let worldAfter := worldAfter cu input toRemove toArchive boiledSteps hotReload.

Lemma readTime_frame s : sameTable s (snd (readTime input s)).
Proof.
  unfold readTime. destruct (IsZero _); run; [|done].
  by destruct (NowMicro pkg (world s)).
Qed.

Lemma called_frame c s : sameTable s (snd (call c s)).
Proof. unfold call. by rewrite called_run. Qed.

Lemma sameTable_trans s1 s2 s3 : sameTable s1 s2 -> sameTable s2 s3 -> sameTable s1 s3.
Proof. intros (?&?&?&?) (?&?&?&?). unfold sameTable. by repeat split; congruence. Qed.

Lemma loop_frame containers result lastErr s :
  sameTable s (snd (loop containers result lastErr s)).
Proof.
  revert result lastErr s.
  induction containers as [|c containers IH]; intros result lastErr s; [done|].
  unfold loop. rewrite step.
  pose proof (called_frame c s) as H1. unfold call in H1.
  destruct (called cu toRemove toArchive boiledSteps hotReload c s) as [err s1].
  pose proof (readTime_frame s1) as H2.
  destruct (readTime input s1) as [t s2]. simpl in H1, H2.
  pose proof (sameTable_trans _ _ _ H1 H2) as H12.
  destruct err as [err|]; [destruct (MaybeRunStepFailure err)|destruct lastErr];
    try exact H12; eapply sameTable_trans; try exact H12; apply IH.
Qed.

Lemma readTime_fixed s :
  IsZero (in_LastFileTimeSynced input) = false ->
  readTime input s = (in_LastFileTimeSynced input, s).
Proof. intros H. unfold readTime. by rewrite H. Qed.

Lemma loop_times containers result lastErr s :
  IsZero (in_LastFileTimeSynced input) = false ->
  Forall (fun st => LastFileTimeSynced st = in_LastFileTimeSynced input)
         (Containers result) ->
  Forall (fun st => LastFileTimeSynced st = in_LastFileTimeSynced input)
         (Containers (fst (loop containers result lastErr s))).
Proof.
  intros Hnz. revert result lastErr s.
  induction containers as [|c containers IH]; intros result lastErr s Hall; [done|].
  unfold loop. rewrite step.
  destruct (called cu toRemove toArchive boiledSteps hotReload c s) as [err s1].
  rewrite (readTime_fixed s1 Hnz).
  destruct err as [err|]; [destruct (MaybeRunStepFailure err)|destruct lastErr];
    try exact Hall; apply IH; simpl; apply Forall_app; split; try done;
    by repeat constructor.
Qed.

(** Every call answers no error: all containers are gone through, with empty
    exec errors. *)
Lemma loop_all_succeed containers result s :
  Forall (fun a => a = None) (answers containers (world s)) ->
  Failed (fst (loop containers result None s)) = Failed result /\
  exists finished,
    Containers (fst (loop containers result None s)) = Containers result ++ finished /\
    Forall2 (fun c st => statusOf c st /\ LastExecError st = "") containers finished.
Proof.
  revert result s. induction containers as [|c containers IH]; intros result s Hall.
  - split; [done|]. exists []. split; [by rewrite app_nil_r | constructor].
  - unfold answers in Hall. simpl in Hall. apply Forall_cons in Hall as [Hc Hall].
    unfold loop. rewrite step. destruct (stepped c s) as [Hfst Hw].
    destruct (called cu toRemove toArchive boiledSteps hotReload c s) as [err s1].
    simpl in Hfst, Hw. rewrite Hc in Hfst. subst err.
    destruct (readTime input s1) as [t s2]. simpl in Hw. rewrite <- Hw in Hall.
    destruct (IH (appended result (statusAt c t)) s2 Hall) as (Hf & finished & Hfin & Hall').
    split; [exact Hf|]. exists (statusAt c t :: finished).
    split; [unfold loop in Hfin; rewrite Hfin; simpl; by rewrite <- app_assoc|].
    constructor; [by repeat split | exact Hall'].
Qed.

(** Run-step failures, then an error that is none: UpdateFailed, naming the
    pod and the error, with the entries of the containers before. *)
Lemma loop_failures_then_error failures c post err result lastErr s :
  Forall (fun a => exists e, a = Some e /\ is_Some (MaybeRunStepFailure e))
         (answers failures (world s)) ->
  fst (answer c (worldAfter failures (world s))) = Some err ->
  MaybeRunStepFailure err = None ->
  Failed (fst (loop (failures ++ c :: post) result lastErr s))
  = Some {| Reason := "UpdateFailed";
            Message := "Updating pod " +:+ c_PodID c +:+ ": " +:+ Error err;
            LastTransitionTime := 0 |} /\
  (exists finished,
      Containers (fst (loop (failures ++ c :: post) result lastErr s))
        = Containers result ++ finished /\
      Forall2 statusOf failures finished) /\
  updateCalls (snd (loop (failures ++ c :: post) result lastErr s))
  = updateCalls s ++ failures ++ [c].
Proof.
  intros Hfail Hbad Hnone. revert result lastErr s Hfail Hbad.
  induction failures as [|c' failures IH]; intros result lastErr s Hfail Hbad;
    unfold answers, worldAfter in Hfail, Hbad; simpl in Hfail, Hbad |- *.
  - unfold loop. rewrite step. destruct (stepped c s) as [Hfst _].
    pose proof (step_calls cu input toRemove toArchive boiledSteps hotReload c s)
      as Hcalls.
    destruct (called cu toRemove toArchive boiledSteps hotReload c s) as [e s1].
    simpl in Hfst, Hcalls. unfold answer in Hbad. rewrite Hbad in Hfst. subst e.
    rewrite Hnone.
    destruct (readTime input s1) as [t s2]. simpl in Hcalls |- *.
    split; [done|]. split; [|done]. exists []. by rewrite app_nil_r.
  - apply Forall_cons in Hfail as [(e' & He' & [runFail Hrf]) Hfail].
    unfold loop. rewrite step. destruct (stepped c' s) as [Hfst Hw].
    pose proof (step_calls cu input toRemove toArchive boiledSteps hotReload c' s)
      as Hcalls.
    destruct (called cu toRemove toArchive boiledSteps hotReload c' s) as [e s1].
    simpl in Hfst, Hw, Hcalls. rewrite He' in Hfst. subst e. rewrite Hrf.
    destruct (readTime input s1) as [t s2]. simpl in Hw, Hcalls |- *.
    rewrite <- Hw in Hfail, Hbad.
    destruct (IH (appended result (withLastExecError (Error e') (statusAt c' t)))
                 (Some (withLastExecError (Error e') (statusAt c' t))) s2 Hfail Hbad)
      as (Hf & (finished & Hc & Hall) & Hlog).
    unfold loop in Hf, Hc, Hlog.
    split; [exact Hf|]. split.
    + exists (withLastExecError (Error e') (statusAt c' t) :: finished).
      split; [rewrite Hc; simpl; by rewrite <- app_assoc|].
      constructor; [by repeat split | exact Hall].
    + rewrite Hlog, Hcalls. by rewrite <- app_assoc.
Qed.

Lemma loop_successes_then_error oks failures c post err result s :
  Forall (fun a => a = None) (answers oks (world s)) ->
  Forall (fun a => exists e, a = Some e /\ is_Some (MaybeRunStepFailure e))
         (answers failures (worldAfter oks (world s))) ->
  fst (answer c (worldAfter (oks ++ failures) (world s))) = Some err ->
  MaybeRunStepFailure err = None ->
  Failed (fst (loop (oks ++ failures ++ c :: post) result None s))
  = Some {| Reason := "UpdateFailed";
            Message := "Updating pod " +:+ c_PodID c +:+ ": " +:+ Error err;
            LastTransitionTime := 0 |} /\
  (exists finished,
      Containers (fst (loop (oks ++ failures ++ c :: post) result None s))
        = Containers result ++ finished /\
      Forall2 statusOf (oks ++ failures) finished) /\
  updateCalls (snd (loop (oks ++ failures ++ c :: post) result None s))
  = updateCalls s ++ (oks ++ failures) ++ [c].
Proof.
  intros Hoks Hfail Hbad Hnone. revert result s Hoks Hfail Hbad.
  induction oks as [|c' oks IH]; intros result s Hoks Hfail Hbad;
    unfold answers, worldAfter in Hoks, Hfail, Hbad; simpl in Hoks, Hfail, Hbad |- *.
  - by apply loop_failures_then_error.
  - apply Forall_cons in Hoks as [Hc' Hoks].
    unfold loop. rewrite step. destruct (stepped c' s) as [Hfst Hw].
    pose proof (step_calls cu input toRemove toArchive boiledSteps hotReload c' s)
      as Hcalls.
    destruct (called cu toRemove toArchive boiledSteps hotReload c' s) as [e s1].
    simpl in Hfst, Hw, Hcalls. rewrite Hc' in Hfst. subst e.
    destruct (readTime input s1) as [t s2]. simpl in Hw, Hcalls |- *.
    rewrite <- Hw in Hoks, Hfail, Hbad.
    destruct (IH (appended result (statusAt c' t)) s2 Hoks Hfail Hbad)
      as (Hf & (finished & Hc & Hall) & Hlog).
    unfold loop in Hf, Hc, Hlog.
    split; [exact Hf|]. split.
    + exists (statusAt c' t :: finished).
      split; [rewrite Hc; simpl; by rewrite <- app_assoc|].
      constructor; [by repeat split | exact Hall].
    + rewrite Hlog, Hcalls. by rewrite <- !app_assoc.
Qed.

End LoopMore.



(** X15: a batch in which every update succeeds.  When BoilRuns and
    MissingLocalPaths succeed and every call of UpdateContainer the batch
    makes (with the batch's archive, paths and commands, on the world left by
    the calls before it) answers no error, the status has no failure and one
    entry per container, in order, each with an empty LastExecError. *)
Theorem applyInternal_all_succeed (sp : LiveUpdateSpec) (input : Input) (s : State)
    (boiledSteps : list (list string)) (toRemove toArchive : list PathMapping) :
  BoilRuns pkg (RunSteps pkg sp) (ChangedFiles input) = Ok boiledSteps ->
  MissingLocalPaths pkg (ChangedFiles input) (world s) = Ok (toRemove, toArchive) ->
  Forall (fun a => a = None)
         (answers (containerUpdater input) input toRemove toArchive boiledSteps
            (negb (ShouldRestart pkg sp)) (in_Containers input) (world s)) ->
  Failed (fst (applyInternal sp input s)) = None /\
  Forall2 (fun c st => statusOf c st /\ LastExecError st = "")
          (in_Containers input) (Containers (fst (applyInternal sp input s))).
Proof.
  intros Hboil Hpaths Hall. rewrite applyInternal_run, Hboil, Hpaths.
  destruct (loop_all_succeed (containerUpdater input) input toRemove toArchive
              boiledSteps (negb (ShouldRestart pkg sp)) (in_Containers input)
              emptyStatus s Hall) as (Hf & finished & Hc & Hall').
  split; [exact Hf|]. by rewrite Hc.
Qed.

(** X16: the first error that is no run-step failure.  When BoilRuns and
    MissingLocalPaths succeed, the calls of UpdateContainer the batch makes
    for the containers before [cInfo] first answer no error and then run-step
    failures, and its call for [cInfo] answers an error [err] that is no
    run-step failure, the status has the failure UpdateFailed with the
    message "Updating pod <pod of cInfo>: <err>", its list holds the entries
    of the containers before [cInfo], and no container after [cInfo] is
    updated.  The calls are the batch's own: made with its archive, paths and
    commands, each on the world left by the calls before it. *)
Theorem applyInternal_update_failed (sp : LiveUpdateSpec) (input : Input) (s : State)
    (boiledSteps : list (list string)) (toRemove toArchive : list PathMapping)
    (oks failures post : list Container) (cInfo : Container) (err : error) :
  let cu := containerUpdater input in
  let hotReload := negb (ShouldRestart pkg sp) in
  BoilRuns pkg (RunSteps pkg sp) (ChangedFiles input) = Ok boiledSteps ->
  MissingLocalPaths pkg (ChangedFiles input) (world s) = Ok (toRemove, toArchive) ->
  in_Containers input = oks ++ failures ++ cInfo :: post ->
  Forall (fun a => a = None)
         (answers cu input toRemove toArchive boiledSteps hotReload oks (world s)) ->
  Forall (fun a => exists e, a = Some e /\ is_Some (MaybeRunStepFailure e))
         (answers cu input toRemove toArchive boiledSteps hotReload failures
            (worldAfter cu input toRemove toArchive boiledSteps hotReload oks
               (world s))) ->
  fst (answer cu toRemove toArchive boiledSteps hotReload cInfo
         (worldAfter cu input toRemove toArchive boiledSteps hotReload
            (oks ++ failures) (world s)))
  = Some err ->
  MaybeRunStepFailure err = None ->
  Failed (fst (applyInternal sp input s))
  = Some {| Reason := "UpdateFailed";
            Message := "Updating pod " +:+ c_PodID cInfo +:+ ": " +:+ Error err;
            LastTransitionTime := 0 |} /\
  Forall2 statusOf (oks ++ failures) (Containers (fst (applyInternal sp input s))) /\
  updateCalls (snd (applyInternal sp input s))
  = updateCalls s ++ (oks ++ failures) ++ [cInfo].
Proof.
  intros cu hotReload Hboil Hpaths Hsplit Hoks Hfail Hbad Hnone.
  rewrite applyInternal_run, Hboil, Hpaths, Hsplit.
  destruct (loop_successes_then_error (containerUpdater input) input toRemove
              toArchive boiledSteps (negb (ShouldRestart pkg sp)) oks failures
              cInfo post err emptyStatus s Hoks Hfail Hbad Hnone)
    as (Hf & (finished & Hc & Hall) & Hlog).
  split; [exact Hf|]. split; [by rewrite Hc | exact Hlog].
Qed.

(** X17: the time carried by the entries.  When the input gives a
    LastFileTimeSynced that is not zero, every entry of the status computed by
    applyInternal carries that time, whatever the outcome of the attempt. *)
Theorem applyInternal_times (sp : LiveUpdateSpec) (input : Input) (s : State) :
  IsZero (in_LastFileTimeSynced input) = false ->
  Forall (fun st => LastFileTimeSynced st = in_LastFileTimeSynced input)
         (Containers (fst (applyInternal sp input s))).
Proof.
  intros Hnz. rewrite applyInternal_run.
  destruct (BoilRuns pkg _ _) as [boiledSteps|err]; [|constructor].
  destruct (MissingLocalPaths pkg _ _) as [[toRemove toArchive]|err]; [|constructor].
  apply loop_times; [exact Hnz | constructor].
Qed.

Lemma applyInternal_frame sp input s : sameTable s (snd (applyInternal sp input s)).
Proof.
  rewrite applyInternal_run.
  destruct (BoilRuns pkg _ _) as [boiledSteps|err]; [|done].
  destruct (MissingLocalPaths pkg _ _) as [[toRemove toArchive]|err]; [|done].
  apply loop_frame.
Qed.

(** ** Further properties of the status post-processing *)

(** The assignments [apply] makes to monitor.containers. *)
Definition recorded (failed : bool) (m : monitor) (c : LiveUpdateContainerStatus)
  : monitor :=
  set_containers
    (<[(ContainerID c, PodName c, Namespace c) :=
         {| lastFileTimeSynced := LastFileTimeSynced c; unrecoverable := failed |}]>
       (containers m)) m.

Lemma forEach_update_run {A} (l : list A) (a : addr)
    (g : A -> monitor -> monitor) (s : State) (m : monitor) :
  heap s !! a = Some m ->
  forEach l (fun x => update a (g x)) s = (tt, store a (foldl (fun m x => g x m) m l) s).
Proof.
  revert s m. induction l as [|x l IH]; intros s m H; simpl.
  - run. by rewrite store_same.
  - unfold bind. destruct (update a (g x) s) as [[] s1] eqn:E.
    unfold update, modify in E. injection E as <-.
    rewrite (lookup_total_correct _ _ _ H). fold (store a (g x m) s).
    rewrite (IH _ _ (heap_store _ _ _)). by rewrite store_store.
Qed.

(** What [apply] does with the status [st] computed in the state [s1]. *)
Definition stamped (obj : LiveUpdate) (st : LiveUpdateStatus) (w : W)
  : LiveUpdateStatus * W :=
  match Failed st with
  | Some failed =>
      ({| Failed := Some (withTransitionTime
                            (transitionTimeFor (lu_Status obj) (Reason failed)
                               (fst (NowMicro pkg w))) failed);
          Containers := Containers st |},
       snd (NowMicro pkg w))
  | None => (st, w)
  end.

(** The loop of [apply] over status.Containers. *)
Definition recordContainers (monitor : option addr) (st : LiveUpdateStatus) : M unit :=
  match monitor with
  | Some a =>
      forEach (Containers st) (fun c =>
        update a (fun m => recorded (bool_decide (Failed st ≠ None)) m c))
  | None => ret tt
  end.

Lemma recordContainers_heap_only monitor st s :
  exists h, recordContainers monitor st s = (tt, set_heap h s).
Proof.
  destruct monitor as [a|]; simpl.
  - apply (forEach_update_heap_only (Containers st) a
             (fun c m => recorded (bool_decide (Failed st ≠ None)) m c)).
  - exists (heap s). run. by destruct s.
Qed.

Lemma recordContainers_none st s : recordContainers None st s = (tt, s).
Proof. reflexivity. Qed.

Lemma recordContainers_some a st s m :
  heap s !! a = Some m ->
  recordContainers (Some a) st s
  = (tt, store a (foldl (recorded (bool_decide (Failed st ≠ None))) m (Containers st)) s).
Proof.
  intros H.
  apply (forEach_update_run (Containers st) a
           (fun c m => recorded (bool_decide (Failed st ≠ None)) m c) s m H).
Qed.

Lemma apply_run obj sp input monitor s :
  let st := fst (applyInternal sp input s) in
  let s2 := snd (recordContainers monitor st (snd (applyInternal sp input s))) in
  let new := fst (stamped obj st (world s2)) in
  let w2 := snd (stamped obj st (world s2)) in
  apply obj sp input monitor s
  = if bool_decide (new ≠ lu_Status obj)
    then (match fst (StatusUpdate (client r) (withStatus new obj) w2) with
          | Some err => (emptyStatus, Some err)
          | None => (new, None)
          end,
          set_world (snd (StatusUpdate (client r) (withStatus new obj) w2)) s2)
    else ((new, None), set_world w2 s2).
Proof.
  unfold apply, stamped, transitionTimeFor. unfold bind at 1.
  destruct (applyInternal sp input s) as [st s1]. simpl.
  unfold bind at 1.
  change (match monitor with
          | Some monitor0 =>
              forEach (Containers st) (fun c =>
                update monitor0 (fun m =>
                  set_containers
                    (<[(ContainerID c, PodName c, Namespace c) :=
                         {| lastFileTimeSynced := LastFileTimeSynced c;
                            unrecoverable := bool_decide (Failed st ≠ None) |}]>
                       (containers m)) m))
          | None => ret tt
          end) with (recordContainers monitor st).
  destruct (recordContainers_heap_only monitor st s1) as [h ->]. simpl.
  destruct (Failed st) as [failed|] eqn:Hf; run.
  - destruct (NowMicro pkg (world s1)) as [now w2]. simpl.
    set (new := {| Failed := _; Containers := Containers st |}).
    destruct (bool_decide (new ≠ lu_Status obj)); [|reflexivity].
    run. by destruct (StatusUpdate (client r) (withStatus new obj) w2) as [[err|] w3].
  - destruct (bool_decide (st ≠ lu_Status obj)); [|by destruct s1].
    run. destruct (StatusUpdate (client r) (withStatus st obj) (world s1)) as [[err|] w3];
      by destruct s1.
Qed.


Lemma recorded_lookup b l m k :
  (forall c, c ∈ l -> (ContainerID c, PodName c, Namespace c) ≠ k) ->
  containers (foldl (recorded b) m l) !! k = containers m !! k.
Proof.
  revert m. induction l as [|x l IH]; intros m Hall; simpl; [done|].
  rewrite IH by (intros c Hin; by apply Hall, list_elem_of_further).
  simpl. rewrite lookup_insert_ne; [done|]. apply Hall, list_elem_of_here.
Qed.

Lemma recorded_listed b l m c :
  c ∈ l ->
  exists c', c' ∈ l /\
    (ContainerID c', PodName c', Namespace c') = (ContainerID c, PodName c, Namespace c) /\
    containers (foldl (recorded b) m l) !! (ContainerID c, PodName c, Namespace c)
    = Some {| lastFileTimeSynced := LastFileTimeSynced c'; unrecoverable := b |}.
Proof.
  revert m. induction l as [|x l IH] using rev_ind; intros m Hin.
  - by apply elem_of_nil in Hin.
  - rewrite foldl_app. simpl.
    destruct (decide ((ContainerID x, PodName x, Namespace x)
                      = (ContainerID c, PodName c, Namespace c))) as [Heq|Hne].
    + exists x. split; [apply elem_of_app; right; apply list_elem_of_here|].
      split; [exact Heq|]. rewrite <- Heq. apply lookup_insert_eq.
    + apply elem_of_app in Hin as [Hin|Hin].
      * destruct (IH m Hin) as (c' & Hin' & Hkey & Hlook).
        exists c'. split; [apply elem_of_app; by left|]. split; [exact Hkey|].
        by rewrite lookup_insert_ne.
      * apply list_elem_of_singleton in Hin as ->. done.
Qed.

(** X19: what apply records in the monitor.  When apply is given a monitor,
    it leaves in monitor.containers, for every entry of the computed status,
    a record under the entry's container id, pod name and namespace, marked
    unrecoverable exactly when the status has a failure, with the time of an
    entry of that identity; records under other identities, and all seven
    other fields of the monitor (the spec, the merged modification times, the
    last file events, hasChangesToSync and the three kubernetes snapshots),
    stay as they are. *)
Theorem apply_records_containers (obj : LiveUpdate) (sp : LiveUpdateSpec)
    (input : Input) (a : addr) (s : State) (m : monitor) :
  heap s !! a = Some m ->
  let st := fst (applyInternal sp input s) in
  exists m',
    heap (snd (apply obj sp input (Some a) s)) !! a = Some m' /\
    (forall c, c ∈ Containers st ->
       exists c', c' ∈ Containers st /\
         (ContainerID c', PodName c', Namespace c')
           = (ContainerID c, PodName c, Namespace c) /\
         containers m' !! (ContainerID c, PodName c, Namespace c)
         = Some {| lastFileTimeSynced := LastFileTimeSynced c';
                   unrecoverable := bool_decide (Failed st ≠ None) |}) /\
    (forall k, (forall c, c ∈ Containers st ->
                          (ContainerID c, PodName c, Namespace c) ≠ k) ->
               containers m' !! k = containers m !! k) /\
    spec m' = spec m /\ modTimeByPath m' = modTimeByPath m /\
    lastFileEvents m' = lastFileEvents m /\
    hasChangesToSync m' = hasChangesToSync m /\
    lastKubernetesDiscovery m' = lastKubernetesDiscovery m /\
    lastKubernetesApplyStatus m' = lastKubernetesApplyStatus m /\
    lastImageMapStatus m' = lastImageMapStatus m.
Proof.
  intros H st.
  destruct (applyInternal_frame sp input s) as (_ & Hheap & _).
  assert (heap (snd (applyInternal sp input s)) !! a = Some m) as H1 by by rewrite Hheap.
  exists (foldl (recorded (bool_decide (Failed st ≠ None))) m (Containers st)).
  split.
  - rewrite apply_run. fold st. rewrite (recordContainers_some _ _ _ _ H1).
    simpl. case_bool_decide; simpl; apply lookup_insert_eq.
  - split; [intros c Hin; by apply recorded_listed|].
    split; [intros k Hk; by apply recorded_lookup|].
    generalize (Containers st). intros l. revert m H H1.
    induction l as [|x l IH] using rev_ind; intros m H H1; [done|].
    rewrite foldl_app. simpl. by apply IH.
Qed.

Lemma ForceApply_table_unchanged nn sp input s :
  monitors (snd (ForceApply nn sp input s)) = monitors s /\
  heap (snd (ForceApply nn sp input s)) = heap s.
Proof.
  unfold ForceApply. run.
  destruct (GetLiveUpdate (client r) nn (world s)) as [obj|err]; [|done].
  rewrite apply_run, recordContainers_none.
  destruct (applyInternal_frame sp input s) as (H1 & H2 & _).
  by case_bool_decide.
Qed.

(** X20: the force-apply path and the reconciler's bookkeeping.  ForceApply,
    whatever it returns, leaves the monitor table, the monitor objects, the
    dispatched actions and the index as they are. *)
Theorem ForceApply_frame (nn : string) (sp : LiveUpdateSpec) (input : Input)
    (s : State) :
  sameTable s (snd (ForceApply nn sp input s)).
Proof.
  unfold ForceApply. run.
  destruct (GetLiveUpdate (client r) nn (world s)) as [obj|err]; [|done].
  rewrite apply_run, recordContainers_none.
  destruct (applyInternal_frame sp input s) as (H1 & H2 & H3 & H4).
  case_bool_decide; simpl; by repeat split.
Qed.

(** ** Invariants of the reconciler *)

(** The state NewReconciler and NewFakeReconciler start from: an empty
    monitor table; nothing dispatched, indexed or updated yet. *)
Definition initialState (w : W) : State :=
  {| world := w; monitors := ∅; heap := ∅; dispatched := []; indexed := ∅;
     updateCalls := [] |}.

(** The states the reconciler goes through: from the initial one, by
    reconciliation passes and forced applies, the world changing at will in
    between. *)
Inductive reachable : State -> Prop :=
| reachable_initial (w : W) : reachable (initialState w)
| reachable_world (s : State) (w : W) : reachable s -> reachable (set_world w s)
| reachable_Reconcile (s : State) (req : string) :
    reachable s -> reachable (snd (Reconcile req s))
| reachable_ForceApply (s : State) (nn : string) (sp : LiveUpdateSpec)
    (input : Input) :
    reachable s -> reachable (snd (ForceApply nn sp input s)).

(** No two names of the monitor table share a monitor. *)
Definition tableInjective (s : State) : Prop :=
  forall n1 n2 a, monitors s !! n1 = Some a -> monitors s !! n2 = Some a -> n1 = n2.

(** No monitor of the table is left with hasChangesToSync set. *)
Definition flagsClear (s : State) : Prop :=
  forall n a m, monitors s !! n = Some a -> heap s !! a = Some m ->
                hasChangesToSync m = false.

Definition inv (s : State) : Prop := wf s /\ tableInjective s /\ flagsClear s.

(** What a pass does to the monitor table and the monitor objects. *)
Lemma Reconcile_table req s :
  wf s ->
  (monitors (snd (Reconcile req s)) = delete req (monitors s) /\
   heap (snd (Reconcile req s)) = heap s)
  \/
  (monitors (snd (Reconcile req s)) = monitors s /\
   heap (snd (Reconcile req s)) = heap s)
  \/
  (exists lu a m1 m',
      GetLiveUpdate (client r) req (world s) = Ok lu /\
      heap (snd (Reconcile req s)) = <[a := m']> (heap s) /\
      (hasChangesToSync m' = false \/ hasChangesToSync m' = hasChangesToSync m1) /\
      ((monitors s !! lu_Name lu = Some a /\ heap s !! a = Some m1 /\
        monitors (snd (Reconcile req s)) = monitors s)
       \/
       (heap s !! a = None /\ m1 = newMonitor (lu_Spec lu) /\
        monitors (snd (Reconcile req s)) = <[lu_Name lu := a]> (monitors s)))).
Proof.
  intros Hwf.
  destruct (Reconcile_cases req s)
    as [Hc | [Hc | [(e & Hget & Hnf) | [(lu & Hget & Hdel & Hman)
                                       | (lu & Hget & Hdel & Hman)]]]].
  - left. destruct Hc as (e & Hget & Hnf).
    unfold Reconcile. run. rewrite Hget. unfold OnReconcile. run.
    by destruct e as [msg []]; try discriminate Hnf.
  - left. destruct Hc as (lu & Hget & Hdel).
    unfold Reconcile. run. rewrite Hget. unfold OnReconcile. run.
    by rewrite bool_decide_eq_true_2 by exact Hdel.
  - right; left. unfold Reconcile. run. rewrite Hget. unfold OnReconcile. run.
    by destruct e as [msg []]; try discriminate Hnf.
  - right; left. unfold Reconcile. run. rewrite Hget. unfold OnReconcile. run.
    rewrite Hdel. simpl. by rewrite bool_decide_eq_true_2 by exact Hman.
  - right; right.
    destruct (Reconcile_active_shape req s lu Hwf Hget Hdel Hman)
      as (a & m1 & s1 & m' & Hens & Ha & _ & _ & _ & _ & Hs & _ & _ & _ & Hok & Herr).
    exists lu, a, m1, m'. split; [exact Hget|]. rewrite Hs. simpl.
    assert (hasChangesToSync m' = false \/ hasChangesToSync m' = hasChangesToSync m1)
      as Hflag.
    { destruct (fst (Reconcile req s)) as [e|]; [right; by apply Herr | left; by apply Hok]. }
    destruct (storedFor_dec (entered req lu s) (lu_Name lu) (lu_Spec lu)) as [Hst|Hno].
    + destruct (ensureMonitorExists_stored _ _ _ Hst) as (a0 & Hn0 & Hrun).
      rewrite Hens in Hrun. injection Hrun as <- ->.
      split; [done|]. split; [exact Hflag|]. left. by repeat split.
    + rewrite (ensureMonitorExists_fresh (lu_Name lu) (lu_Spec lu)
                 (entered req lu s) Hwf Hno) in Hens.
      unfold allocated in Hens. injection Hens as <- <-. simpl in Ha |- *.
      rewrite lookup_insert_eq in Ha. injection Ha as <-.
      split; [by rewrite insert_insert_eq|]. split; [exact Hflag|].
      right. split; [apply (fresh_not_in_heap (entered req lu s)) | done].
Qed.

Lemma inv_same s s' : monitors s' = monitors s -> heap s' = heap s -> inv s -> inv s'.
Proof.
  intros Hm Hh (Hwf & Hinj & Hflags). unfold inv, wf, tableInjective, flagsClear.
  rewrite Hm, Hh. done.
Qed.

Lemma Reconcile_inv req s : inv s -> inv (snd (Reconcile req s)).
Proof.
  intros Hinv. pose proof Hinv as (Hwf & Hinj & Hflags).
  destruct (Reconcile_table req s Hwf)
    as [[Hm Hh] | [[Hm Hh] | (lu & a & m1 & m' & _ & Hh & Hflag & Hcase)]].
  - unfold inv, wf, tableInjective, flagsClear. rewrite Hm, Hh.
    split; [|split].
    + intros n a Hn. apply lookup_delete_Some in Hn as [_ Hn]. by apply (Hwf n).
    + intros n1 n2 a H1 H2. apply lookup_delete_Some in H1 as [_ H1].
      apply lookup_delete_Some in H2 as [_ H2]. by apply (Hinj n1 n2 a).
    + intros n a m Hn Ha. apply lookup_delete_Some in Hn as [_ Hn].
      by apply (Hflags n a m).
  - by apply (inv_same s).
  - unfold inv, wf, tableInjective, flagsClear. rewrite Hh.
    destruct Hcase as [(Hn & Ha & ->) | (Hnone & -> & ->)].
    + split; [|split].
      * intros n a' Hn'. destruct (Hwf n a' Hn') as [m Hm].
        rewrite lookup_insert. case_decide; by eexists.
      * exact Hinj.
      * intros n a' m Hn' Ha'. rewrite lookup_insert in Ha'.
        case_decide as Heq; [|by apply (Hflags n a' m)].
        subst a'. injection Ha' as <-.
        destruct Hflag as [->| ->]; [done|]. by apply (Hflags (lu_Name lu) a m1).
    + assert (forall n a', n ≠ lu_Name lu -> monitors s !! n = Some a' -> a' ≠ a)
        as Hfresh.
      { intros n a' _ Hn' ->. destruct (Hwf n a Hn') as [m Hm]. congruence. }
      split; [|split].
      * intros n a' Hn'. rewrite lookup_insert in Hn'. case_decide as Heq.
        -- injection Hn' as <-. rewrite lookup_insert_eq. by eexists.
        -- destruct (Hwf n a' Hn') as [m Hm]. rewrite lookup_insert.
           case_decide; by eexists.
      * intros n1 n2 a' H1 H2. rewrite lookup_insert in H1, H2.
        repeat case_decide; try congruence; try (by apply (Hinj n1 n2 a')).
        all: exfalso; simplify_eq;
          eapply Hfresh; [|eassumption|reflexivity]; congruence.
      * intros n a' m Hn' Ha'. rewrite lookup_insert in Hn'. case_decide as Heq.
        -- injection Hn' as <-. rewrite lookup_insert_eq in Ha'. injection Ha' as <-.
           by destruct Hflag as [->| ->].
        -- rewrite lookup_insert_ne in Ha' by (symmetry; by apply (Hfresh n)).
           by apply (Hflags n a' m).
Qed.

(** X21: the invariants of the monitor table.  In every state the reconciler
    can reach from its initial state by reconciliation passes and forced
    applies, whatever the world does in between, every pointer of the monitor
    table refers to a monitor object, no two names share a monitor, and no
    monitor of the table is left with hasChangesToSync set. *)
Theorem reachable_inv (s : State) :
  reachable s -> wf s /\ tableInjective s /\ flagsClear s.
Proof.
  induction 1 as [w | s w _ IH | s req _ IH | s nn sp input _ IH].
  - unfold wf, tableInjective, flagsClear. simpl.
    repeat split; intros; by rewrite lookup_empty in *.
  - exact IH.
  - by apply Reconcile_inv.
  - destruct (ForceApply_table_unchanged nn sp input s) as [Hm Hh].
    by apply (inv_same s).
Qed.

(** X22: a pass leaves the other live updates alone.  On a state with the
    invariants of the monitor table, Reconcile changes neither the table entry
    nor the monitor object of any name other than the requested one and the
    name of the fetched live update. *)
Theorem Reconcile_other_names (req : string) (s : State) (n : string) (a : addr)
    (m : monitor) :
  wf s -> tableInjective s ->
  n ≠ req ->
  (forall lu, GetLiveUpdate (client r) req (world s) = Ok lu -> lu_Name lu ≠ n) ->
  monitors s !! n = Some a ->
  heap s !! a = Some m ->
  monitors (snd (Reconcile req s)) !! n = Some a /\
  heap (snd (Reconcile req s)) !! a = Some m.
Proof.
  intros Hwf Hinj Hreq Hname Hn Ha.
  destruct (Reconcile_table req s Hwf)
    as [[Hm Hh] | [[Hm Hh] | (lu & a0 & m1 & m' & Hget & Hh & _ & Hcase)]].
  - rewrite Hm, Hh. by rewrite lookup_delete_ne.
  - by rewrite Hm, Hh.
  - rewrite Hh. specialize (Hname lu Hget).
    destruct Hcase as [(Hn0 & Ha0 & ->) | (Hnone & _ & ->)].
    + split; [done|]. rewrite lookup_insert_ne; [done|].
      intros ->. by apply Hname, (Hinj (lu_Name lu) n a).
    + rewrite lookup_insert_ne by done. split; [done|].
      rewrite lookup_insert_ne; [done|]. intros ->. congruence.
Qed.

(** ** The dependency index *)

Lemma elem_of_if_app (b : bool) (l : list Key) (x k : Key) :
  k ∈ (if b then l ++ [x] else l) <-> k ∈ l \/ (b = true /\ k = x).
Proof.
  destruct b.
  - rewrite elem_of_app, list_elem_of_singleton.
    split; [intros [?|?]; [by left | by right] | intros [?|[_ ?]]; [by left | by right]].
  - split; [by left | by intros [?|[? _]]].
Qed.

(** X23: the keys a live update is indexed under.  indexLiveUpdate lists
    exactly these keys, all in the namespace of the live update: a FileWatch
    key for every file watch name of the spec and, when the spec has a
    kubernetes selector, a KubernetesDiscovery, a KubernetesApply and an
    ImageMap key for each of the selector's three names that is not empty. *)
Theorem indexLiveUpdate_elem (lu : LiveUpdate) (k : Key) :
  k ∈ indexLiveUpdate lu
  <->
  key_Namespace k = lu_Namespace lu /\
  ((key_GVK k = fwGVK /\ key_Name k ∈ FileWatchNames (lu_Spec lu)) \/
   exists selector,
     Kubernetes (lu_Spec lu) = Some selector /\ key_Name k ≠ "" /\
     ((key_GVK k = discoveryGVK /\ key_Name k = DiscoveryName selector) \/
      (key_GVK k = applyGVK /\ key_Name k = ApplyName selector) \/
      (key_GVK k = imageMapGVK /\ key_Name k = ImageMapName selector))).
Proof.
  assert (k ∈ map (fun fwn => {| key_Namespace := lu_Namespace lu; key_Name := fwn;
                                 key_GVK := fwGVK |}) (FileWatchNames (lu_Spec lu))
          <-> key_Namespace k = lu_Namespace lu /\ key_GVK k = fwGVK /\
              key_Name k ∈ FileWatchNames (lu_Spec lu)) as Hfw.
  { rewrite list_elem_of_In, in_map_iff. split.
    - intros (fwn & <- & Hin). simpl. by rewrite list_elem_of_In.
    - intros (Hns & Hgvk & Hin). exists (key_Name k).
      rewrite <- list_elem_of_In. split; [|done]. destruct k; simpl in *; congruence. }
  unfold indexLiveUpdate. destruct (Kubernetes (lu_Spec lu)) as [selector|].
  - rewrite !elem_of_if_app, Hfw, !bool_decide_eq_true. split.
    + intros [[[H | [Hne ->]] | [Hne ->]] | [Hne ->]]; simpl.
      * destruct H as (Hns & Hgvk & Hin). split; [done|]. by left.
      * split; [done|]. right. exists selector. do 2 (split; [done|]). by left.
      * split; [done|]. right. exists selector. do 2 (split; [done|]). right; by left.
      * split; [done|]. right. exists selector. do 2 (split; [done|]). right; by right.
    + intros (Hns & [[Hgvk Hin] | (sel & [= <-] & Hne & Hcase)]).
      * by do 3 left.
      * destruct k as [ns name gvk]; simpl in *. subst ns.
        destruct Hcase as [[-> ->] | [[-> ->] | [-> ->]]].
        -- left; left; right. done.
        -- left; right. done.
        -- right. done.
  - rewrite Hfw. split.
    + intros (Hns & Hgvk & Hin). split; [done | by left].
    + intros (Hns & [[Hgvk Hin] | (sel & Hsel & _)]); [done | discriminate].
Qed.

(** ** Two passes in a row *)

(** An active pass as the composition of its steps. *)
Lemma Reconcile_active_run req s lu a s1 :
  GetLiveUpdate (client r) req (world s) = Ok lu ->
  lu_DeletionTimestamp lu = None ->
  lu_ManagedBy lu = "" ->
  ensureMonitorExists (lu_Name lu) (lu_Spec lu) (entered req lu s) = (a, s1) ->
  Reconcile req s
  = match reconcileFileWatches a s1 with
    | ((_, Some err), s2) => (Some err, s2)
    | ((_, None), s2) =>
        match reconcileKubernetesResource a s2 with
        | ((_, Some err), s3) => (Some err, s3)
        | ((_, None), s3) =>
            (None, store a (set_hasChangesToSync false (heap s3 !!! a)) s3)
        end
    end.
Proof.
  intros Hget Hdel Hman Hens.
  unfold Reconcile. run. rewrite Hget. unfold OnReconcile. run.
  rewrite Hdel, Hman. simpl. fold (entered req lu s). rewrite Hens.
  destruct (reconcileFileWatches a s1) as [[hasFileChanges [e1|]] s2]; [done|].
  simpl.
  destruct (reconcileKubernetesResource a s2) as [[hasKubernetesChanges [e2|]] s3];
    [done|].
  unfold maybeSync, store. run.
  destruct (hasFileChanges || hasKubernetesChanges); simpl;
    rewrite ?lookup_total_insert_eq; simpl;
    [|destruct (hasChangesToSync (heap s3 !!! a))]; simpl;
    by rewrite ?lookup_total_insert_eq, ?insert_insert_eq.
Qed.

(** Detection that found nothing finds nothing either when only the flag of
    the monitor differs. *)
Lemma reconcileKubernetesResource_settled a s m b s' :
  heap s !! a = Some m ->
  reconcileKubernetesResource a s = ((false, None), s) ->
  heap s' !! a = Some (set_hasChangesToSync b m) ->
  world s' = world s ->
  reconcileKubernetesResource a s' = ((false, None), s').
Proof.
  intros H Hrun H' Hw.
  destruct (Kubernetes (spec m)) as [selector|] eqn:Hsel;
    [|by apply (reconcileKubernetesResource_no_selector a s' _ H')].
  rewrite (reconcileKubernetesResource_run _ _ _ _ H Hsel) in Hrun.
  rewrite (reconcileKubernetesResource_run a s' _ selector H' Hsel), Hw.
  destruct (fetched (GetKubernetesApply (client r)) _ _) as [ka|err];
    [|by injection Hrun as ->].
  destruct (fetched (GetKubernetesDiscovery (client r)) _ _) as [kd|err];
    [|by injection Hrun as ->].
  destruct (fetched (GetImageMap (client r)) _ _) as [im|err];
    [|by injection Hrun as ->].
  injection Hrun as Hchanged Hstate. simpl. rewrite Hchanged.
  assert (set_kubernetes kd (ka_Status <$> ka) (im_Status <$> im) m = m) as Hm.
  { pose proof (heap_store a (set_kubernetes kd (ka_Status <$> ka)
                                (im_Status <$> im) m) s) as Hl.
    rewrite Hstate, H in Hl. by injection Hl. }
  assert (set_kubernetes kd (ka_Status <$> ka) (im_Status <$> im)
            (set_hasChangesToSync b m) = set_hasChangesToSync b m) as ->.
  { transitivity (set_hasChangesToSync b
                    (set_kubernetes kd (ka_Status <$> ka) (im_Status <$> im) m));
      [reflexivity | by rewrite Hm]. }
  f_equal. by apply store_same.
Qed.

Lemma reconcileFileWatchesLoop_nothingNew a names hasChange s m :
  heap s !! a = Some m ->
  (forall fwn, fwn ∈ names ->
               fetchError (world s) fwn = None /\ nothingNew (world s) m fwn) ->
  reconcileFileWatchesLoop a names hasChange s = ((hasChange, None), s).
Proof.
  intros H. revert hasChange.
  induction names as [|fwn names IH]; intros hasChange Hall; [done|].
  simpl. unfold bind.
  destruct (Hall fwn (list_elem_of_here _ _)) as [Herr Hnew].
  rewrite (reconcileOneFileWatch_nothingNew a fwn s m H Herr Hnew). simpl.
  apply IH. intros fwn' Hin. by apply Hall, list_elem_of_further.
Qed.

Lemma reconcileFileWatches_nothingNew a s m :
  heap s !! a = Some m ->
  (forall fwn, fwn ∈ FileWatchNames (spec m) ->
               fetchError (world s) fwn = None /\ nothingNew (world s) m fwn) ->
  reconcileFileWatches a s = ((false, None), s).
Proof.
  intros H Hall. unfold reconcileFileWatches. run.
  rewrite (lookup_total_correct _ _ _ H). case_bool_decide; [done|].
  by apply reconcileFileWatchesLoop_nothingNew with m.
Qed.

(** X25: a second pass with nothing new.  When an active pass has returned
    no error, a second pass for the same live update in the same world
    returns no error either and changes neither the monitor table nor any
    monitor object: the events and statuses consumed by the first pass are
    not consumed again. *)
Theorem Reconcile_twice (req : string) (s : State) (lu : LiveUpdate) :
  wf s ->
  GetLiveUpdate (client r) req (world s) = Ok lu ->
  lu_DeletionTimestamp lu = None ->
  lu_ManagedBy lu = "" ->
  fst (Reconcile req s) = None ->
  fst (Reconcile req (snd (Reconcile req s))) = None /\
  monitors (snd (Reconcile req (snd (Reconcile req s))))
    = monitors (snd (Reconcile req s)) /\
  heap (snd (Reconcile req (snd (Reconcile req s)))) = heap (snd (Reconcile req s)).
Proof.
  intros Hwf Hget Hdel Hman Hok.
  destruct (ensureMonitorExists_cases (lu_Name lu) (lu_Spec lu) (entered req lu s))
    as (a & m1 & s1 & Hens & Ha & Hsp & Hn & Hw & _); [exact Hwf|].
  (* the first pass *)
  assert (exists m3,
             Reconcile req s = (None, store a (set_hasChangesToSync false m3) s1) /\
             spec m3 = lu_Spec lu /\
             (forall fwn, fwn ∈ FileWatchNames (lu_Spec lu) ->
                          fetchError (world s1) fwn = None /\
                          nothingNew (world s1) m3 fwn) /\
             reconcileKubernetesResource a (store a m3 s1)
             = ((false, None), store a m3 s1)) as (m3 & Hfirst & Hspec3 & Hseen & Hk8s).
  { rewrite (Reconcile_active_run req s lu a s1 Hget Hdel Hman Hens) in Hok |- *.
    assert (forall fwn, fwn ∈ FileWatchNames (spec m1) ->
                        fetchError (world s1) fwn = None) as Hfetch.
    { destruct (first_fetchError (world s1) (FileWatchNames (spec m1)))
        as [Hall | (pre & bad & post & err & Hsplit & Hpre & Hbad)]; [exact Hall|].
      exfalso. revert Hok. unfold reconcileFileWatches. run.
      rewrite (lookup_total_correct _ _ _ Ha), Hsplit.
      rewrite bool_decide_eq_false_2 by (rewrite length_app; simpl; lia).
      by rewrite (reconcileFileWatchesLoop_error _ _ _ _ _ _ _ _ Ha Hpre Hbad). }
    set (m2 := foldl (stepMonitor (world s1)) m1 (FileWatchNames (spec m1))).
    assert (exists hc, reconcileFileWatches a s1 = ((hc, None), store a m2 s1))
      as [hc Hfw].
    { unfold reconcileFileWatches. run. rewrite (lookup_total_correct _ _ _ Ha).
      case_bool_decide as Hlen.
      - exists false. subst m2. destruct (FileWatchNames (spec m1)); [|done].
        simpl. by rewrite store_same.
      - apply (reconcileFileWatchesLoop_steps a _ false s1 m1 Ha Hfetch). }
    rewrite Hfw in Hok |- *.
    pose proof (reconcileKubernetesResource_again a (store a m2 s1) m2
                  (heap_store _ _ _)) as Htwice.
    destruct (reconcileKubernetesResource_shape a (store a m2 s1) m2
                (heap_store _ _ _)) as (m3 & Hs3 & Hspec3 & _ & Hlast3 & _).
    rewrite store_store in Hs3.
    destruct (reconcileKubernetesResource a (store a m2 s1)) as [[hkc [e2|]] s3];
      [discriminate Hok|].
    simpl in Hs3, Htwice. subst s3. exists m3.
    rewrite (lookup_total_correct _ _ _ (heap_store a m3 s1)), store_store.
    split; [done|].
    destruct (foldl_stepMonitor_fields (world s1) (FileWatchNames (spec m1)) m1)
      as [Hspec2 _]. fold m2 in Hspec2.
    split; [congruence|]. split; [|exact Htwice].
    intros fwn Hin. rewrite <- Hsp in Hin. split; [by apply Hfetch|].
    intros fw ev Hgetfw Hlast. rewrite Hlast3.
    by apply (foldl_stepMonitor_nothingNew (world s1) _ m1 fwn Hin fw). }
  rewrite Hfirst. simpl.
  set (mF := set_hasChangesToSync false m3) in *.
  fold (store a mF s1).
  (* the second pass *)
  assert (GetLiveUpdate (client r) req (world (store a mF s1)) = Ok lu) as Hget2
    by (simpl; by rewrite Hw).
  destruct (ensureMonitorExists_stored (lu_Name lu) (lu_Spec lu)
              (entered req lu (store a mF s1))) as (a' & Hn' & Hens2).
  { exists a, mF. repeat split; [exact Hn | apply lookup_insert_eq | exact Hspec3]. }
  simpl in Hn'. rewrite Hn in Hn'. injection Hn' as <-.
  rewrite (Reconcile_active_run req (store a mF s1) lu a _ Hget2 Hdel Hman Hens2).
  assert (heap (entered req lu (store a mF s1)) !! a = Some mF) as HaF
    by apply lookup_insert_eq.
  assert (reconcileFileWatches a (entered req lu (store a mF s1))
          = ((false, None), entered req lu (store a mF s1))) as ->.
  { apply (reconcileFileWatches_nothingNew a _ mF HaF).
    intros fwn Hin. simpl in Hin |- *. rewrite Hspec3 in Hin.
    split; [by apply Hseen|]. intros fw ev Hgetfw Hlast.
    by apply (proj2 (Hseen fwn Hin) fw). }
  rewrite (reconcileKubernetesResource_settled a (store a m3 s1) m3 false
             (entered req lu (store a mF s1)) (heap_store _ _ _) Hk8s HaF eq_refl).
  rewrite (lookup_total_correct _ _ _ HaF).
  simpl. split; [done|]. split; [done|].
  by rewrite insert_insert_eq.
Qed.

End Reconciler.

(** ** A concrete reconciler *)

(** The world is the reading of the clock; the three kubernetes statuses are
    strings. *)

Definition ex_notFound : error := {| Error := "not found"; kind := ErrNotFound |}.
Definition ex_refused : error := {| Error := "connection refused"; kind := ErrOther |}.
Definition ex_runFail : error :=
  {| Error := "run step failed with exit code: 2";
     kind := ErrRunStepFailure "make" 2 |}.
Definition ex_copyFailed : error := {| Error := "copy failed"; kind := ErrOther |}.

Definition ex_container (id : string) : Container :=
  {| c_ContainerID := id; c_ContainerName := "app";
     c_PodID := "pod-" +:+ id; c_Namespace := "default" |}.

(** An updater that succeeds on every container but "b" and "b2", where a run
    step fails, and "c", where the copy fails. *)
Definition ex_updater : @ContainerUpdater Z :=
  {| UpdateContainer c _ _ _ _ w :=
       (if bool_decide (c_ContainerID c = "b") || bool_decide (c_ContainerID c = "b2")
        then Some ex_runFail
        else if bool_decide (c_ContainerID c = "c") then Some ex_copyFailed
        else None, w) |}.

Definition ex_early : FileEvent := {| Time := 3; SeenFiles := ["/src/a.go"; "/src/b.go"] |}.
Definition ex_late : FileEvent := {| Time := 5; SeenFiles := ["/src/a.go"] |}.

Definition ex_selector (applyName : string) : LiveUpdateKubernetesSelector :=
  {| DiscoveryName := "kd"; ApplyName := applyName; ImageMapName := "";
     sel_ContainerName := "app" |}.

Definition ex_spec (watches : list string) (applyName : string)
    (execs : list LiveUpdateExec) : LiveUpdateSpec :=
  {| BasePath := "/src"; FileWatchNames := watches;
     Kubernetes := Some (ex_selector applyName);
     StopPaths := []; Syncs := [("/src", "/app")]; Execs := execs;
     Restart := "none" |}.

Definition ex_failed (reason message : string) (t : MicroTime) : LiveUpdateStatus :=
  {| Failed := Some {| Reason := reason; Message := message;
                       LastTransitionTime := t |};
     Containers := [] |}.

Definition ex_lu (status : LiveUpdateStatus) : LiveUpdate :=
  {| lu_Name := "lu"; lu_Namespace := "default"; lu_ManagedBy := "";
     lu_DeletionTimestamp := None;
     lu_Spec := ex_spec ["fw-src"; "fw-down"] "" [];
     lu_Status := status |}.

(** The API server: the live update "lu"; the file watch "fw-src", with the
    later event listed first; the file watch "fw-log", which lists the later
    event until the clock reads 10 and the early one from then on; the file
    watch "fw-down", whose fetch is refused; the discovery "kd".  Anything
    else is not found. *)
Definition ex_client : @Client Z string string string :=
  {| GetLiveUpdate name w :=
       if bool_decide (name = "lu") then Ok (ex_lu emptyStatus) else Err ex_notFound;
     GetFileWatch name w :=
       if bool_decide (name = "fw-src")
       then Ok {| FileEvents := [ex_late; ex_early] |}
       else if bool_decide (name = "fw-log")
       then Ok {| FileEvents := if (w <? 10)%Z then [ex_late] else [ex_early] |}
       else if bool_decide (name = "fw-down") then Err ex_refused
       else Err ex_notFound;
     GetKubernetesApply name w := Err ex_notFound;
     GetKubernetesDiscovery name w :=
       if bool_decide (name = "kd") then Ok {| kd_Status := "running" |}
       else Err ex_notFound;
     GetImageMap name w := Err ex_notFound;
     StatusUpdate obj w := (None, w) |}.

Definition ex_r : Reconciler :=
  {| client := ex_client; ExecUpdater := ex_updater; DockerUpdater := ex_updater;
     updateMode := UpdateModeAuto; dockerWillBuildToKubeContext := false |}.

(** Build helpers: boiling fails on a step without arguments; every changed
    file is still there locally. *)
Definition ex_pkg : @Imports Z :=
  {| RunSteps sp := Execs sp;
     ShouldRestart sp := bool_decide (Restart sp = "always");
     BoilRuns steps files :=
       if existsb (fun st => bool_decide (Args st = [])) steps
       then Err {| Error := "empty command"; kind := ErrOther |}
       else Ok (map Args steps);
     MissingLocalPaths files w := Ok ([], files);
     PathMappingsToContainerPaths := map ContainerPath;
     NowMicro w := (w, (w + 1)%Z) |}.

Definition ex_state (w : Z) (ms : gmap string addr)
    (h : gmap addr (@monitor string string string))
  : @State Z string string string :=
  {| world := w; monitors := ms; heap := h; dispatched := []; indexed := ∅;
     updateCalls := [] |}.

Definition ex_input (ids : list string) : Input :=
  {| IsDC := false; in_Containers := map ex_container ids;
     ChangedFiles := [{| LocalPath := "/src/a.go"; ContainerPath := "/app/a.go" |}];
     in_LastFileTimeSynced := 7 |}.

Definition ex_make : LiveUpdateExec := {| Args := ["make"]; TriggerPaths := [] |}.

(** An updater whose answer depends on what it is asked to do and on the
    world: with no command to run it succeeds; with one, the run step fails
    as long as the clock reads less than [n].  Every call advances the
    clock. *)
Definition ex_updater_flaky (n : Z) : @ContainerUpdater Z :=
  {| UpdateContainer c _ _ steps _ w :=
       (match steps with
        | [] => None
        | _ :: _ => if (w <? n)%Z then Some ex_runFail else None
        end, (w + 1)%Z) |}.

Definition ex_r_flaky (n : Z) : Reconciler :=
  {| client := ex_client; ExecUpdater := ex_updater_flaky n;
     DockerUpdater := ex_updater_flaky n;
     updateMode := UpdateModeAuto; dockerWillBuildToKubeContext := false |}.

Definition ex_sync_flaky (n : Z) (execs : list LiveUpdateExec) (ids : list string)
  : LiveUpdateStatus * State :=
  applyInternal (ex_r_flaky n) ex_pkg (ex_spec [] "" execs) (ex_input ids)
    (ex_state 0 ∅ ∅).

(** *** The sync engine on concrete batches *)

Definition ex_sync (ids : list string) : LiveUpdateStatus * State :=
  applyInternal ex_r ex_pkg (ex_spec [] "" [ex_make]) (ex_input ids) (ex_state 0 ∅ ∅).

Lemma ex_updater_succeeds id :
  id ≠ "b" -> id ≠ "b2" -> id ≠ "c" -> succeeds ex_updater (ex_container id).
Proof.
  intros Hb Hb2 Hc archive toRemove steps hotReload w. simpl.
  by rewrite !bool_decide_eq_false_2.
Qed.

Lemma ex_updater_runStepFails_b : runStepFails ex_updater (ex_container "b") ex_runFail.
Proof. split; [by eexists | by intros]. Qed.

Example ex_sync_success_first :
  fst (ex_sync ["a"; "b"])
  = {| Failed := None;
       Containers :=
         [ {| ContainerName := "app"; ContainerID := "a"; PodName := "pod-a";
              Namespace := "default"; LastFileTimeSynced := 7;
              LastExecError := "" |};
           {| ContainerName := "app"; ContainerID := "b"; PodName := "pod-b";
              Namespace := "default"; LastFileTimeSynced := 7;
              LastExecError := "run step failed with exit code: 2" |} ] |}.
Proof. reflexivity. Qed.

Example ex_sync_failure_first :
  fst (ex_sync ["b"; "a"])
  = {| Failed :=
         Some {| Reason := "PodsInconsistent";
                 Message := "Pods in inconsistent state. Success: pod pod-a. "
                            +:+ "Failure: pod pod-b. "
                            +:+ "Error: run step failed with exit code: 2";
                 LastTransitionTime := 0 |};
       Containers :=
         [ {| ContainerName := "app"; ContainerID := "b"; PodName := "pod-b";
              Namespace := "default"; LastFileTimeSynced := 7;
              LastExecError := "run step failed with exit code: 2" |} ] |}.
Proof. reflexivity. Qed.

Example ex_sync_calls :
  updateCalls (snd (ex_sync ["a"; "c"; "b"])) = [ex_container "a"; ex_container "c"].
Proof. reflexivity. Qed.

(** C1, the claim as stated fails: container "a" succeeds, then container "b"
    reports a run-step failure, and the status has no failure at all. *)
Lemma success_then_failure_not_inconsistent :
  succeeds (containerUpdater ex_r (ex_input ["a"; "b"])) (ex_container "a") /\
  runStepFails (containerUpdater ex_r (ex_input ["a"; "b"])) (ex_container "b")
    ex_runFail /\
  Failed (fst (ex_sync ["a"; "b"])) = None /\
  Reason <$> Failed (fst (ex_sync ["a"; "b"])) ≠ Some "PodsInconsistent".
Proof.
  split; [by apply ex_updater_succeeds|].
  split; [apply ex_updater_runStepFails_b|].
  split; [reflexivity | discriminate].
Qed.

(** The run step of "x" fails when the clock reads 0; by the time "y" is
    updated the clock reads 1 and the same command succeeds. *)
Lemma failure_then_success_witness :
  Reason <$> Failed (fst (ex_sync_flaky 1 [ex_make] ["x"; "y"]))
  = Some "PodsInconsistent".
Proof.
  apply (failure_then_success_is_inconsistent (ex_r_flaky 1) ex_pkg
           (ex_spec [] "" [ex_make]) (ex_input ["x"; "y"]) (ex_state 0 ∅ ∅)
           [["make"]] [] (ChangedFiles (ex_input ["x"; "y"]))
           [ex_container "x"] [] (ex_container "y") ex_runFail).
  - reflexivity.
  - reflexivity.
  - reflexivity.
  - apply list_elem_of_here.
  - repeat constructor. intros err [= <-]. by eexists.
  - reflexivity.
Defined.

(** C2, the claim as stated fails: container "a" is updated, the copy to
    container "c" fails, and the status has both the failure UpdateFailed and
    the entry of "a". *)
Lemma failed_with_containers :
  Failed (fst (ex_sync ["a"; "c"])) ≠ None /\ Containers (fst (ex_sync ["a"; "c"])) ≠ [].
Proof. split; discriminate. Qed.

Definition ex_updateFailed : LiveUpdateStateFailed :=
  {| Reason := "UpdateFailed"; Message := "Updating pod pod-c: copy failed";
     LastTransitionTime := 0 |}.

Lemma failed_keeps_finished_witness :
  (Reason ex_updateFailed = "Invalid" /\
   Containers (fst (ex_sync ["a"; "c"])) = [] /\
   updateCalls (snd (ex_sync ["a"; "c"])) = updateCalls (ex_state 0 ∅ ∅))
  \/
  (exists pre cInfo post,
      in_Containers (ex_input ["a"; "c"]) = pre ++ cInfo :: post /\
      Forall2 statusOf pre (Containers (fst (ex_sync ["a"; "c"]))) /\
      (Reason ex_updateFailed = "UpdateFailed" \/
       Reason ex_updateFailed = "PodsInconsistent") /\
      updateCalls (snd (ex_sync ["a"; "c"]))
        = updateCalls (ex_state 0 ∅ ∅) ++ pre ++ [cInfo]).
Proof.
  apply (failed_keeps_finished_containers ex_r ex_pkg (ex_spec [] "" [ex_make])
           (ex_input ["a"; "c"]) (ex_state 0 ∅ ∅) ex_updateFailed).
  reflexivity.
Defined.

Definition ex_noArgs : LiveUpdateExec := {| Args := []; TriggerPaths := [] |}.

Definition ex_invalid : LiveUpdateStateFailed :=
  {| Reason := "Invalid"; Message := "Building exec: empty command";
     LastTransitionTime := 0 |}.

Definition ex_sync_invalid : LiveUpdateStatus * State :=
  applyInternal ex_r ex_pkg (ex_spec [] "" [ex_noArgs]) (ex_input ["a"; "b"])
    (ex_state 0 ∅ ∅).

Lemma invalid_never_updates_witness :
  updateCalls (snd ex_sync_invalid) = updateCalls (ex_state 0 ∅ ∅) /\
  snd ex_sync_invalid = ex_state 0 ∅ ∅ /\
  ((exists err, BoilRuns ex_pkg (RunSteps ex_pkg (ex_spec [] "" [ex_noArgs]))
                  (ChangedFiles (ex_input ["a"; "b"])) = Err err) \/
   (exists err, MissingLocalPaths ex_pkg (ChangedFiles (ex_input ["a"; "b"]))
                  (world (ex_state 0 ∅ ∅)) = Err err)).
Proof.
  apply (invalid_never_updates ex_r ex_pkg (ex_spec [] "" [ex_noArgs])
           (ex_input ["a"; "b"]) (ex_state 0 ∅ ∅) ex_invalid); reflexivity.
Defined.

(** With a command to run, the run step fails in both containers. *)
Lemma uniform_run_step_failure_witness :
  Failed (fst (ex_sync_flaky 10 [ex_make] ["x"; "y"])) = None /\
  Forall2 statusOf (in_Containers (ex_input ["x"; "y"]))
          (Containers (fst (ex_sync_flaky 10 [ex_make] ["x"; "y"]))) /\
  LastExecError <$> Containers (fst (ex_sync_flaky 10 [ex_make] ["x"; "y"]))
  = Error <$> [ex_runFail; ex_runFail].
Proof.
  apply (uniform_run_step_failure (ex_r_flaky 10) ex_pkg (ex_spec [] "" [ex_make])
           (ex_input ["x"; "y"]) (ex_state 0 ∅ ∅) [ex_runFail; ex_runFail]
           [["make"]] [] (ChangedFiles (ex_input ["x"; "y"]))).
  - reflexivity.
  - reflexivity.
  - reflexivity.
  - repeat constructor; by eexists.
Defined.

(** With no command to run, the same updater succeeds in both. *)
Example ex_sync_flaky_no_command :
  Failed (fst (ex_sync_flaky 10 [] ["x"; "y"])) = None /\
  LastExecError <$> Containers (fst (ex_sync_flaky 10 [] ["x"; "y"])) = [""; ""].
Proof. split; reflexivity. Qed.

(** *** Kubernetes delta detection on concrete monitors *)

(** A monitor whose selector names an apply object that does not exist yet,
    and the discovery "kd". *)
Definition ex_monitor_ka : @monitor string string string :=
  newMonitor (ex_spec [] "ka" []).

(** C3, the claim as stated fails: the apply object is not found; the
    discovery is configured, is fetched with a status and has no last-seen
    snapshot, hence changed; yet detection returns false, and the snapshot of
    the discovery is not updated. *)
Lemma kubernetes_not_found_hides_change :
  fetched (GetKubernetesApply ex_client) "ka" 0 = Err ex_notFound /\
  fetched (GetKubernetesDiscovery ex_client) "kd" 0
    = Ok (Some {| kd_Status := "running" |}) /\
  kd_Status <$> lastKubernetesDiscovery ex_monitor_ka ≠ Some "running" /\
  fst (reconcileKubernetesResource ex_r 0%nat (ex_state 0 ∅ {[0%nat := ex_monitor_ka]}))
    = (false, None) /\
  lastKubernetesDiscovery
    (heap (snd (reconcileKubernetesResource ex_r 0%nat
                  (ex_state 0 ∅ {[0%nat := ex_monitor_ka]}))) !!! 0%nat)
    = None.
Proof. repeat split; try reflexivity. discriminate. Qed.

(** A monitor whose selector names the discovery "kd" only. *)
Definition ex_monitor_kd : @monitor string string string :=
  newMonitor (ex_spec [] "" []).

Definition ex_detect : bool * option error * State :=
  reconcileKubernetesResource ex_r 0%nat (ex_state 0 ∅ {[0%nat := ex_monitor_kd]}).

Lemma reconcileKubernetesResource_witness :
  snd (fst ex_detect) = None /\
  snd ex_detect
    = store 0%nat
        (set_kubernetes (Some {| kd_Status := "running" |}) None None ex_monitor_kd)
        (ex_state 0 ∅ {[0%nat := ex_monitor_kd]}) /\
  (fst (fst ex_detect) = true
   <-> someKindChanged ex_monitor_kd None (Some {| kd_Status := "running" |}) None).
Proof.
  pose proof (reconcileKubernetesResource_detects ex_r 0%nat
                (ex_state 0 ∅ {[0%nat := ex_monitor_kd]}) ex_monitor_kd
                (ex_selector "") eq_refl eq_refl) as H.
  destruct H as [_ H].
  exact (H None (Some {| kd_Status := "running" |}) None eq_refl eq_refl eq_refl).
Defined.

(** *** The monitor table and the file watches on concrete states *)

(** A monitor of "lu" that has consumed the file watch "fw-src". *)
Definition ex_monitor_seen : @monitor string string string :=
  set_lastFileEvents {["fw-src" := ex_early]}
    (set_modTimeByPath {["/src/a.go" := 5%Z; "/src/b.go" := 3%Z]}
       (newMonitor (ex_spec ["fw-src"] "" []))).

Definition ex_state_seen : @State Z string string string :=
  ex_state 0 {["lu" := 0%nat]} {[0%nat := ex_monitor_seen]}.

Lemma ex_state_seen_wf : wf ex_state_seen.
Proof.
  intros name a Hn. unfold ex_state_seen, ex_state in Hn; simpl in Hn.
  apply lookup_singleton_Some in Hn as [<- <-]. by eexists.
Qed.

(** The spec of "lu" gets a run step. *)
Definition ex_reset : addr * State :=
  ensureMonitorExists "lu" (ex_spec ["fw-src"] "" [ex_make]) ex_state_seen.

Lemma ensureMonitorExists_reset_witness :
  (storedFor ex_state_seen "lu" (ex_spec ["fw-src"] "" [ex_make])
   <-> monitors ex_state_seen !! "lu" = Some (fst ex_reset) /\
       snd ex_reset = ex_state_seen)
  /\
  (~ storedFor ex_state_seen "lu" (ex_spec ["fw-src"] "" [ex_make]) ->
   heap ex_state_seen !! fst ex_reset = None /\
   monitors (snd ex_reset) = <["lu" := fst ex_reset]> (monitors ex_state_seen) /\
   heap (snd ex_reset)
     = <[fst ex_reset := newMonitor (ex_spec ["fw-src"] "" [ex_make])]>
         (heap ex_state_seen) /\
   world (snd ex_reset) = world ex_state_seen /\
   (exists m', heap (snd ex_reset) !! fst ex_reset = Some m' /\
               spec m' = ex_spec ["fw-src"] "" [ex_make] /\
               modTimeByPath m' = ∅ /\ lastFileEvents m' = ∅ /\ containers m' = ∅) /\
   (forall fwn fw ev,
       GetFileWatch (client ex_r) fwn (world (snd ex_reset)) = Ok fw ->
       last (FileEvents fw) = Some ev ->
       fst (reconcileOneFileWatch ex_r (fst ex_reset) fwn (snd ex_reset))
         = (true, None))).
Proof.
  apply (ensureMonitorExists_reset ex_r "lu" (ex_spec ["fw-src"] "" [ex_make])
           ex_state_seen (snd ex_reset) (fst ex_reset)).
  - apply ex_state_seen_wf.
  - apply surjective_pairing.
Defined.

Lemma reconcileFileWatches_idempotent_witness :
  reconcileFileWatches ex_r 0%nat ex_state_seen = ((false, None), ex_state_seen) /\
  modTimeByPath (heap (snd (reconcileFileWatches ex_r 0%nat ex_state_seen)) !!! 0%nat)
    = modTimeByPath ex_monitor_seen.
Proof.
  apply (reconcileFileWatches_idempotent ex_r 0%nat ex_state_seen ex_monitor_seen).
  - reflexivity.
  - intros fwn Hin. apply list_elem_of_singleton in Hin as ->.
    exists {| FileEvents := [ex_late; ex_early] |}. split; [reflexivity|].
    right. by exists ex_early.
Defined.

(** A monitor of "lu" that has not seen any file. *)
Definition ex_state_new : @State Z string string string :=
  ex_state 0 {["lu" := 0%nat]} {[0%nat := newMonitor (ex_spec ["fw-src"] "" [])]}.

Lemma modTimeByPath_keeps_later_witness :
  (fst (reconcileOneFileWatch ex_r 0%nat "fw-src" ex_state_new) = (true, None) /\
   modTimeByPath (heap (snd (reconcileOneFileWatch ex_r 0%nat "fw-src" ex_state_new))
                  !!! 0%nat) !! "/src/a.go"
     = Some (Z.max 3 5))
  /\
  modTimeByPath
    (heap (snd (reconcileOneFileWatch ex_r 0%nat "fw-log"
                  (set_world 10
                     (snd (reconcileOneFileWatch ex_r 0%nat "fw-log" ex_state_new)))))
     !!! 0%nat) !! "/src/a.go"
    = Some (Z.max 3 5).
Proof.
  assert ("/src/a.go" ∈ SeenFiles ex_early) as Hearly by apply list_elem_of_here.
  assert ("/src/a.go" ∈ SeenFiles ex_late) as Hlate by apply list_elem_of_here.
  split.
  - apply (proj1 (modTimeByPath_keeps_later ex_r 0%nat "fw-src" "/src/a.go" 3 5
                    (SeenFiles ex_early) (SeenFiles ex_late) ex_late ex_early
                    eq_refl Hearly Hlate (or_intror (conj eq_refl eq_refl)))
             ex_state_new (newMonitor (ex_spec ["fw-src"] "" [])) [] [] [] ex_early).
    + reflexivity.
    + reflexivity.
    + constructor.
    + reflexivity.
    + reflexivity.
    + discriminate.
  - apply (proj2 (modTimeByPath_keeps_later ex_r 0%nat "fw-log" "/src/a.go" 3 5
                    (SeenFiles ex_early) (SeenFiles ex_late) ex_late ex_early
                    eq_refl Hearly Hlate (or_intror (conj eq_refl eq_refl)))
             ex_state_new (newMonitor (ex_spec ["fw-src"] "" [])) 10%Z
             [] [] [] [] ex_late ex_early).
    + reflexivity.
    + reflexivity.
    + constructor.
    + constructor.
    + reflexivity.
    + reflexivity.
    + discriminate.
    + reflexivity.
    + reflexivity.
    + discriminate.
Defined.

(** *** Status post-processing and a failing pass on concrete states *)

(** The stored status of "lu" already has the failure UpdateFailed, since
    time 42. *)
Definition ex_obj : LiveUpdate := ex_lu (ex_failed "UpdateFailed" "Updating pod pod-c: timeout" 42).

Lemma transition_time_of_failure_witness :
  exists t,
    (fst (apply ex_r ex_pkg ex_obj (ex_spec [] "" [ex_make]) (ex_input ["a"; "c"])
            None (ex_state 0 ∅ ∅))
     = ({| Failed := Some {| Reason := Reason ex_updateFailed;
                             Message := Message ex_updateFailed;
                             LastTransitionTime := t |};
           Containers := Containers (fst (ex_sync ["a"; "c"])) |}, None)
     \/
     exists err,
       fst (StatusUpdate (client ex_r)
              (withStatus
                 {| Failed := Some {| Reason := Reason ex_updateFailed;
                                      Message := Message ex_updateFailed;
                                      LastTransitionTime := t |};
                    Containers := Containers (fst (ex_sync ["a"; "c"])) |}
                 ex_obj)
              (snd (NowMicro ex_pkg (world (snd (ex_sync ["a"; "c"])))))) = Some err /\
       fst (apply ex_r ex_pkg ex_obj (ex_spec [] "" [ex_make]) (ex_input ["a"; "c"])
              None (ex_state 0 ∅ ∅))
       = (emptyStatus, Some err)) /\
    (forall old, Failed (lu_Status ex_obj) = Some old ->
                 Reason old = Reason ex_updateFailed ->
                 t = LastTransitionTime old) /\
    (forall old, Failed (lu_Status ex_obj) = Some old ->
                 Reason old ≠ Reason ex_updateFailed ->
                 t = fst (NowMicro ex_pkg (world (snd (ex_sync ["a"; "c"]))))) /\
    (Failed (lu_Status ex_obj) = None ->
     t = fst (NowMicro ex_pkg (world (snd (ex_sync ["a"; "c"]))))).
Proof.
  apply (transition_time_of_failure ex_r ex_pkg ex_obj (ex_spec [] "" [ex_make])
           (ex_input ["a"; "c"]) None (ex_state 0 ∅ ∅) ex_updateFailed).
  reflexivity.
Defined.

Example ex_apply_same_reason :
  fst (apply ex_r ex_pkg ex_obj (ex_spec [] "" [ex_make]) (ex_input ["a"; "c"])
         None (ex_state 100 ∅ ∅))
  = ({| Failed := Some {| Reason := "UpdateFailed";
                          Message := "Updating pod pod-c: copy failed";
                          LastTransitionTime := 42 |};
        Containers := Containers (fst (ex_sync ["a"; "c"])) |}, None).
Proof. reflexivity. Qed.

Example ex_apply_other_reason :
  LastTransitionTime <$>
    Failed (fst (fst (apply ex_r ex_pkg (ex_lu (ex_failed "Invalid" "Mapping paths" 42))
                        (ex_spec [] "" [ex_make]) (ex_input ["a"; "c"])
                        None (ex_state 100 ∅ ∅))))
  = Some 100%Z.
Proof. reflexivity. Qed.

(** The first pass for "lu": the watch "fw-src" is fetched, the fetch of
    "fw-down" is refused. *)
Definition ex_pass : option error * State := Reconcile ex_r "lu" (ex_state 0 ∅ ∅).

Lemma reconcile_keeps_progress_witness :
  fst ex_pass = Some ex_refused /\
  exists a m',
    monitors (snd ex_pass) !! lu_Name (ex_lu emptyStatus) = Some a /\
    heap (snd ex_pass) !! a = Some m' /\
    (forall fwn fw ev,
        fwn ∈ ["fw-src"] ->
        GetFileWatch (client ex_r) fwn (world (ex_state 0 ∅ ∅)) = Ok fw ->
        last (FileEvents fw) = Some ev ->
        lastFileEvents m' !! fwn = Some ev /\
        (covered (modTimeByPath m') fw \/
         exists a0 m0, monitors (ex_state 0 ∅ ∅) !! lu_Name (ex_lu emptyStatus) = Some a0 /\
                       heap (ex_state 0 ∅ ∅) !! a0 = Some m0 /\
                       lastFileEvents m0 !! fwn = Some ev)) /\
    (hasChangesToSync m' = true ->
     exists a0 m0, monitors (ex_state 0 ∅ ∅) !! lu_Name (ex_lu emptyStatus) = Some a0 /\
                   heap (ex_state 0 ∅ ∅) !! a0 = Some m0 /\
                   hasChangesToSync m0 = true) /\
    (forall fwn, fwn ∈ ["fw-src"] ->
                 reconcileOneFileWatch ex_r a fwn (snd ex_pass)
                 = ((false, None), snd ex_pass)) /\
    fst (Reconcile ex_r "lu" (snd ex_pass)) = Some ex_refused /\
    heap (snd (Reconcile ex_r "lu" (snd ex_pass))) = heap (snd ex_pass).
Proof.
  apply (reconcile_keeps_progress_on_fetch_error ex_r "lu" (ex_state 0 ∅ ∅)
           (ex_lu emptyStatus) ["fw-src"] [] "fw-down" ex_refused).
  - intros name a Hn. unfold ex_state in Hn; simpl in Hn.
    by rewrite lookup_empty in Hn.
  - reflexivity.
  - reflexivity.
  - reflexivity.
  - reflexivity.
  - intros fwn e Hin. apply list_elem_of_singleton in Hin as ->. discriminate.
  - reflexivity.
  - reflexivity.
Defined.

Example ex_pass_monitor :
  lastFileEvents (heap (snd ex_pass) !!! 0%nat) !! "fw-src" = Some ex_early /\
  modTimeByPath (heap (snd ex_pass) !!! 0%nat) !! "/src/a.go" = Some 5%Z /\
  modTimeByPath (heap (snd ex_pass) !!! 0%nat) !! "/src/b.go" = Some 3%Z /\
  hasChangesToSync (heap (snd ex_pass) !!! 0%nat) = false.
Proof. repeat split. Qed.

(** ** Skipping the status write *)

(** The reconciler [r] with another status-subresource write. *)
Definition withStatusUpdate {W KubernetesApplyStatus KubernetesDiscoveryStatus
    ImageMapStatus : Type}
    (write : LiveUpdate -> W -> option error * W)
    (r : @Reconciler W KubernetesApplyStatus KubernetesDiscoveryStatus ImageMapStatus)
  : Reconciler :=
  {| client :=
       {| GetLiveUpdate := GetLiveUpdate (client r);
          GetFileWatch := GetFileWatch (client r);
          GetKubernetesApply := GetKubernetesApply (client r);
          GetKubernetesDiscovery := GetKubernetesDiscovery (client r);
          GetImageMap := GetImageMap (client r);
          StatusUpdate := write |};
     ExecUpdater := ExecUpdater r; DockerUpdater := DockerUpdater r;
     updateMode := updateMode r;
     dockerWillBuildToKubeContext := dockerWillBuildToKubeContext r |}.

(** X24: no redundant status write.  When the status computed by the sync
    attempt, stamped with its transition time, equals the stored status of
    the object, apply returns it without error and does not call the status
    write: whatever write the client has, the result and the state are the
    same. *)
Theorem apply_skips_write {W KubernetesApplyStatus KubernetesDiscoveryStatus
    ImageMapStatus : Type}
    (r : @Reconciler W KubernetesApplyStatus KubernetesDiscoveryStatus ImageMapStatus)
    (pkg : Imports) (obj : LiveUpdate) (sp : LiveUpdateSpec) (input : Input)
    (monitor : option addr) (s : State) :
  fst (stamped pkg obj (fst (applyInternal r pkg sp input s))
         (world (snd (applyInternal r pkg sp input s)))) = lu_Status obj ->
  fst (apply r pkg obj sp input monitor s) = (lu_Status obj, None) /\
  forall write,
    apply (withStatusUpdate write r) pkg obj sp input monitor s
    = apply r pkg obj sp input monitor s.
Proof.
  intros Hsame.
  assert (world (snd (recordContainers monitor (fst (applyInternal r pkg sp input s))
                        (snd (applyInternal r pkg sp input s))))
          = world (snd (applyInternal r pkg sp input s))) as Hw.
  { by destruct (recordContainers_heap_only monitor
                   (fst (applyInternal r pkg sp input s))
                   (snd (applyInternal r pkg sp input s))) as [h ->]. }
  assert (forall write,
             applyInternal (withStatusUpdate write r) pkg sp input s
             = applyInternal r pkg sp input s) as Hint by reflexivity.
  split.
  - rewrite apply_run. simpl. rewrite Hw, Hsame.
    by rewrite bool_decide_eq_false_2 by auto.
  - intros write. rewrite !apply_run. simpl. rewrite Hint, Hw, Hsame.
    by rewrite !bool_decide_eq_false_2 by auto.
Qed.

(** ** The further properties on concrete states *)

Definition ex_monitor_new : @monitor string string string :=
  newMonitor (ex_spec ["fw-src"] "" []).

Lemma reconcileOneFileWatch_merges_witness :
  fst (reconcileOneFileWatch ex_r 0%nat "fw-src" ex_state_new) = (true, None) /\
  exists m',
    heap (snd (reconcileOneFileWatch ex_r 0%nat "fw-src" ex_state_new)) !! 0%nat
      = Some m' /\
    (forall p, modTimeByPath m' !! p
               = latest p (modTimeByPath ex_monitor_new !! p)
                   [ex_late; ex_early]) /\
    lastFileEvents m' = <["fw-src" := ex_early]> ∅.
Proof.
  destruct (reconcileOneFileWatch_merges ex_r 0%nat "fw-src" ex_state_new
              ex_monitor_new
              {| FileEvents := [ex_late; ex_early] |} ex_early
              eq_refl eq_refl eq_refl) as (Hres & m' & Hm' & Htimes & Hlast & _).
  { discriminate. }
  split; [exact Hres|]. exists m'. by repeat split.
Defined.

Lemma reconcileFileWatches_monotone_witness :
  exists m',
    heap (snd (reconcileFileWatches ex_r 0%nat ex_state_seen)) !! 0%nat = Some m' /\
    grows (modTimeByPath ex_monitor_seen) (modTimeByPath m').
Proof.
  apply (reconcileFileWatches_monotone ex_r 0%nat ex_state_seen ex_monitor_seen).
  reflexivity.
Defined.

Lemma reconcileFileWatches_true_iff_witness :
  snd (fst (reconcileFileWatches ex_r 0%nat ex_state_new)) = None /\
  (fst (fst (reconcileFileWatches ex_r 0%nat ex_state_new)) = true
   <-> exists fwn,
         fwn ∈ FileWatchNames (spec ex_monitor_new) /\
         hasNew ex_r (world ex_state_new) ex_monitor_new fwn).
Proof.
  apply (reconcileFileWatches_true_iff ex_r 0%nat ex_state_new
           ex_monitor_new).
  - reflexivity.
  - intros fwn e Hin. apply list_elem_of_singleton in Hin as ->. discriminate.
Defined.

Lemma reconcileOneFileWatch_twice_witness :
  reconcileOneFileWatch ex_r 0%nat "fw-src"
    (snd (reconcileOneFileWatch ex_r 0%nat "fw-src" ex_state_new))
  = ((false, snd (fst (reconcileOneFileWatch ex_r 0%nat "fw-src" ex_state_new))),
     snd (reconcileOneFileWatch ex_r 0%nat "fw-src" ex_state_new)).
Proof.
  apply (reconcileOneFileWatch_twice ex_r 0%nat "fw-src" ex_state_new
           ex_monitor_new).
  reflexivity.
Defined.

Definition ex_state_kd : @State Z string string string :=
  ex_state 0 ∅ {[0%nat := ex_monitor_kd]}.

Lemma reconcileKubernetesResource_frame_witness :
  exists m',
    snd (reconcileKubernetesResource ex_r 0%nat ex_state_kd)
      = store 0%nat m' ex_state_kd /\
    spec m' = spec ex_monitor_kd /\
    modTimeByPath m' = modTimeByPath ex_monitor_kd /\
    lastFileEvents m' = lastFileEvents ex_monitor_kd /\
    hasChangesToSync m' = hasChangesToSync ex_monitor_kd /\
    containers m' = containers ex_monitor_kd /\
    (snd (fst (reconcileKubernetesResource ex_r 0%nat ex_state_kd)) ≠ None ->
     m' = ex_monitor_kd).
Proof.
  apply (reconcileKubernetesResource_frame ex_r 0%nat ex_state_kd ex_monitor_kd).
  reflexivity.
Defined.

Lemma reconcileKubernetesResource_twice_witness :
  reconcileKubernetesResource ex_r 0%nat
    (snd (reconcileKubernetesResource ex_r 0%nat ex_state_kd))
  = ((false, snd (fst (reconcileKubernetesResource ex_r 0%nat ex_state_kd))),
     snd (reconcileKubernetesResource ex_r 0%nat ex_state_kd)).
Proof.
  apply (reconcileKubernetesResource_twice ex_r 0%nat ex_state_kd ex_monitor_kd).
  reflexivity.
Defined.

Example ex_detect_once :
  fst (reconcileKubernetesResource ex_r 0%nat ex_state_kd) = (true, None) /\
  fst (reconcileKubernetesResource ex_r 0%nat
         (snd (reconcileKubernetesResource ex_r 0%nat ex_state_kd))) = (false, None).
Proof. split; reflexivity. Qed.

Lemma ensureMonitorExists_twice_witness :
  ensureMonitorExists "lu" (ex_spec ["fw-src"] "" [ex_make]) (snd ex_reset)
  = (fst ex_reset, snd ex_reset).
Proof.
  apply (ensureMonitorExists_twice "lu" (ex_spec ["fw-src"] "" [ex_make]) ex_state_seen).
  apply ex_state_seen_wf.
Defined.

Example ex_reset_keeps_old_object :
  fst ex_reset = 1%nat /\
  heap (snd ex_reset) !! 0%nat = Some ex_monitor_seen /\
  monitors (snd ex_reset) !! "lu" = Some 1%nat.
Proof. repeat split. Qed.

(** A second API server: the live update "lu-ok", whose file watch and
    discovery are there; "lu-managed", which carries the managed-by
    annotation; "lu-gone", which is being deleted; "lu-down", whose fetch is
    refused.  The other objects are those of the first. *)
Definition ex_lu_ok : LiveUpdate :=
  {| lu_Name := "lu-ok"; lu_Namespace := "default"; lu_ManagedBy := "";
     lu_DeletionTimestamp := None; lu_Spec := ex_spec ["fw-src"] "" [];
     lu_Status := emptyStatus |}.

Definition ex_lu_managed : LiveUpdate :=
  {| lu_Name := "lu-managed"; lu_Namespace := "default"; lu_ManagedBy := "buildcontrol";
     lu_DeletionTimestamp := None; lu_Spec := ex_spec ["fw-src"] "" [];
     lu_Status := emptyStatus |}.

Definition ex_lu_gone : LiveUpdate :=
  {| lu_Name := "lu-gone"; lu_Namespace := "default"; lu_ManagedBy := "";
     lu_DeletionTimestamp := Some 9%Z; lu_Spec := ex_spec ["fw-src"] "" [];
     lu_Status := emptyStatus |}.

Definition ex_client2 : @Client Z string string string :=
  {| GetLiveUpdate name w :=
       if bool_decide (name = "lu-ok") then Ok ex_lu_ok
       else if bool_decide (name = "lu-managed") then Ok ex_lu_managed
       else if bool_decide (name = "lu-gone") then Ok ex_lu_gone
       else if bool_decide (name = "lu-down") then Err ex_refused
       else Err ex_notFound;
     GetFileWatch := GetFileWatch ex_client;
     GetKubernetesApply := GetKubernetesApply ex_client;
     GetKubernetesDiscovery := GetKubernetesDiscovery ex_client;
     GetImageMap := GetImageMap ex_client;
     StatusUpdate obj w := (Some ex_refused, w) |}.

Definition ex_r2 : Reconciler :=
  {| client := ex_client2; ExecUpdater := ex_updater; DockerUpdater := ex_updater;
     updateMode := UpdateModeAuto; dockerWillBuildToKubeContext := false |}.

(** A table with a monitor for "lu-gone" and one for "other". *)
Definition ex_state_two : @State Z string string string :=
  ex_state 0 {["lu-gone" := 0%nat; "other" := 1%nat]}
    {[0%nat := ex_monitor_new; 1%nat := ex_monitor_seen]}.

Lemma ex_state_two_wf : wf ex_state_two.
Proof.
  intros name a Hn. unfold ex_state_two, ex_state in Hn |- *; simpl in Hn |- *.
  apply lookup_insert_Some in Hn as [[<- <-] | [_ Hn]]; [by eexists|].
  apply lookup_singleton_Some in Hn as [<- <-]. by eexists.
Qed.

Lemma ex_state_two_injective : tableInjective ex_state_two.
Proof.
  intros n1 n2 a H1 H2. unfold ex_state_two, ex_state in H1, H2; simpl in H1, H2.
  apply lookup_insert_Some in H1 as [[<- <-] | [_ H1]];
    apply lookup_insert_Some in H2 as [[<- ?] | [_ H2]]; try done.
  - apply lookup_singleton_Some in H2 as [<- ?]. done.
  - apply lookup_singleton_Some in H1 as [<- ?]. congruence.
  - apply lookup_singleton_Some in H1 as [<- _].
    by apply lookup_singleton_Some in H2 as [<- _].
Qed.

Lemma Reconcile_deleted_witness :
  fst (Reconcile ex_r2 "lu-gone" ex_state_two) = None /\
  monitors (snd (Reconcile ex_r2 "lu-gone" ex_state_two))
    = delete "lu-gone" (monitors ex_state_two) /\
  monitors (snd (Reconcile ex_r2 "lu-gone" ex_state_two)) !! "lu-gone" = None /\
  dispatched (snd (Reconcile ex_r2 "lu-gone" ex_state_two))
    = dispatched ex_state_two ++ [LiveUpdateDeleteAction "lu-gone"] /\
  heap (snd (Reconcile ex_r2 "lu-gone" ex_state_two)) = heap ex_state_two /\
  world (snd (Reconcile ex_r2 "lu-gone" ex_state_two)) = world ex_state_two /\
  updateCalls (snd (Reconcile ex_r2 "lu-gone" ex_state_two)) = updateCalls ex_state_two.
Proof.
  apply (Reconcile_deleted ex_r2 "lu-gone" ex_state_two).
  right. exists ex_lu_gone. split; [reflexivity | discriminate].
Defined.

Lemma Reconcile_get_error_witness :
  (Error <$> fst (Reconcile ex_r2 "lu-down" ex_state_two))
    = Some ("liveupdate reconcile: " +:+ Error ex_refused) /\
  dispatched (snd (Reconcile ex_r2 "lu-down" ex_state_two)) = dispatched ex_state_two /\
  monitors (snd (Reconcile ex_r2 "lu-down" ex_state_two)) = monitors ex_state_two /\
  heap (snd (Reconcile ex_r2 "lu-down" ex_state_two)) = heap ex_state_two /\
  world (snd (Reconcile ex_r2 "lu-down" ex_state_two)) = world ex_state_two.
Proof.
  apply (Reconcile_get_error ex_r2 "lu-down" ex_state_two ex_refused); reflexivity.
Defined.

Lemma Reconcile_managed_witness :
  fst (Reconcile ex_r2 "lu-managed" ex_state_two) = None /\
  dispatched (snd (Reconcile ex_r2 "lu-managed" ex_state_two))
    = dispatched ex_state_two ++ [LiveUpdateUpsertAction ex_lu_managed] /\
  monitors (snd (Reconcile ex_r2 "lu-managed" ex_state_two)) = monitors ex_state_two /\
  heap (snd (Reconcile ex_r2 "lu-managed" ex_state_two)) = heap ex_state_two /\
  world (snd (Reconcile ex_r2 "lu-managed" ex_state_two)) = world ex_state_two.
Proof.
  apply (Reconcile_managed ex_r2 "lu-managed" ex_state_two ex_lu_managed).
  - reflexivity.
  - reflexivity.
  - discriminate.
Defined.

Lemma Reconcile_never_syncs_witness :
  world (snd (Reconcile ex_r2 "lu-ok" ex_state_two)) = world ex_state_two /\
  updateCalls (snd (Reconcile ex_r2 "lu-ok" ex_state_two)) = updateCalls ex_state_two.
Proof.
  apply (Reconcile_never_syncs ex_r2 "lu-ok" ex_state_two). apply ex_state_two_wf.
Defined.

Lemma Reconcile_ok_clears_flag_witness :
  exists a m',
    monitors (snd (Reconcile ex_r2 "lu-ok" ex_state_two)) !! lu_Name ex_lu_ok = Some a /\
    heap (snd (Reconcile ex_r2 "lu-ok" ex_state_two)) !! a = Some m' /\
    spec m' = lu_Spec ex_lu_ok /\
    hasChangesToSync m' = false.
Proof.
  apply (Reconcile_ok_clears_flag ex_r2 "lu-ok" ex_state_two ex_lu_ok).
  - apply ex_state_two_wf.
  - reflexivity.
  - reflexivity.
  - reflexivity.
  - reflexivity.
Defined.

Example ex_pass_ok :
  fst (Reconcile ex_r2 "lu-ok" ex_state_two) = None /\
  monitors (snd (Reconcile ex_r2 "lu-ok" ex_state_two)) !! "lu-ok" = Some 2%nat /\
  lastKubernetesDiscovery (heap (snd (Reconcile ex_r2 "lu-ok" ex_state_two)) !!! 2%nat)
    = Some {| kd_Status := "running" |} /\
  modTimeByPath (heap (snd (Reconcile ex_r2 "lu-ok" ex_state_two)) !!! 2%nat)
    !! "/src/a.go" = Some 5%Z.
Proof. repeat split. Qed.

Lemma Reconcile_other_names_witness :
  monitors (snd (Reconcile ex_r2 "lu-ok" ex_state_two)) !! "other" = Some 1%nat /\
  heap (snd (Reconcile ex_r2 "lu-ok" ex_state_two)) !! 1%nat = Some ex_monitor_seen.
Proof.
  apply (Reconcile_other_names ex_r2 "lu-ok" ex_state_two "other" 1%nat ex_monitor_seen).
  - apply ex_state_two_wf.
  - apply ex_state_two_injective.
  - discriminate.
  - intros lu [= <-]. discriminate.
  - reflexivity.
  - reflexivity.
Defined.

Lemma reachable_inv_witness :
  wf (snd (Reconcile ex_r2 "lu-gone"
             (set_world 7 (snd (Reconcile ex_r2 "lu-ok" (initialState 0%Z)))))) /\
  tableInjective (snd (Reconcile ex_r2 "lu-gone"
             (set_world 7 (snd (Reconcile ex_r2 "lu-ok" (initialState 0%Z)))))) /\
  flagsClear (snd (Reconcile ex_r2 "lu-gone"
             (set_world 7 (snd (Reconcile ex_r2 "lu-ok" (initialState 0%Z)))))).
Proof.
  apply (reachable_inv ex_r2 ex_pkg).
  apply reachable_Reconcile, reachable_world, reachable_Reconcile, reachable_initial.
Defined.

(** The run step would fail only while the clock reads less than -5; it reads
    0 at the start, so the command succeeds in both containers. *)
Lemma applyInternal_all_succeed_witness :
  Failed (fst (ex_sync_flaky (-5) [ex_make] ["x"; "y"])) = None /\
  Forall2 (fun c st => statusOf c st /\ LastExecError st = "")
          (in_Containers (ex_input ["x"; "y"]))
          (Containers (fst (ex_sync_flaky (-5) [ex_make] ["x"; "y"]))).
Proof.
  apply (applyInternal_all_succeed (ex_r_flaky (-5)) ex_pkg (ex_spec [] "" [ex_make])
           (ex_input ["x"; "y"]) (ex_state 0 ∅ ∅) [["make"]] []
           (ChangedFiles (ex_input ["x"; "y"]))).
  - reflexivity.
  - reflexivity.
  - repeat constructor.
Defined.

Lemma applyInternal_update_failed_witness :
  Failed (fst (ex_sync ["a"; "b"; "c"; "d"]))
  = Some {| Reason := "UpdateFailed";
            Message := "Updating pod " +:+ c_PodID (ex_container "c") +:+ ": "
                       +:+ Error ex_copyFailed;
            LastTransitionTime := 0 |} /\
  Forall2 statusOf ([ex_container "a"] ++ [ex_container "b"])
          (Containers (fst (ex_sync ["a"; "b"; "c"; "d"]))) /\
  updateCalls (snd (ex_sync ["a"; "b"; "c"; "d"]))
  = updateCalls (ex_state 0 ∅ ∅)
    ++ ([ex_container "a"] ++ [ex_container "b"]) ++ [ex_container "c"].
Proof.
  apply (applyInternal_update_failed ex_r ex_pkg (ex_spec [] "" [ex_make])
           (ex_input ["a"; "b"; "c"; "d"]) (ex_state 0 ∅ ∅) [["make"]] []
           (ChangedFiles (ex_input ["a"; "b"; "c"; "d"]))
           [ex_container "a"] [ex_container "b"] [ex_container "d"]
           (ex_container "c") ex_copyFailed).
  - reflexivity.
  - reflexivity.
  - reflexivity.
  - repeat constructor.
  - repeat constructor. exists ex_runFail. split; [reflexivity | by eexists].
  - reflexivity.
  - reflexivity.
Defined.

Lemma applyInternal_times_witness :
  Forall (fun st => LastFileTimeSynced st = in_LastFileTimeSynced (ex_input ["a"; "b"]))
         (Containers (fst (ex_sync ["a"; "b"]))).
Proof.
  apply (applyInternal_times ex_r ex_pkg (ex_spec [] "" [ex_make])
           (ex_input ["a"; "b"]) (ex_state 0 ∅ ∅)).
  reflexivity.
Defined.

(** When the input gives no time, each entry carries the clock's reading
    after its update. *)
Example ex_sync_clock :
  map LastFileTimeSynced
    (Containers
       (fst (applyInternal ex_r ex_pkg (ex_spec [] "" [ex_make])
               {| IsDC := false; in_Containers := map ex_container ["a"; "d"];
                  ChangedFiles := []; in_LastFileTimeSynced := 0 |}
               (ex_state 100 ∅ ∅))))
  = [100%Z; 101%Z].
Proof. reflexivity. Qed.

Definition ex_state_one : @State Z string string string :=
  ex_state 0 {["lu" := 0%nat]} {[0%nat := ex_monitor_new]}.

Lemma apply_records_containers_witness :
  exists m',
    heap (snd (apply ex_r ex_pkg (ex_lu emptyStatus) (ex_spec [] "" [ex_make])
                 (ex_input ["a"; "c"]) (Some 0%nat) ex_state_one)) !! 0%nat
      = Some m' /\
    containers m' !! ("a", "pod-a", "default")
      = Some {| lastFileTimeSynced := 7; unrecoverable := true |} /\
    containers m' !! ("c", "pod-c", "default") = None.
Proof.
  destruct (apply_records_containers ex_r ex_pkg (ex_lu emptyStatus)
              (ex_spec [] "" [ex_make]) (ex_input ["a"; "c"]) 0%nat ex_state_one
              ex_monitor_new eq_refl) as (m' & Hm' & Hlisted & Hother & _).
  exists m'. split; [exact Hm'|]. split.
  - destruct (Hlisted (statusAt (ex_container "a") 7))
      as (c' & Hin & Hkey & Hlook); [apply list_elem_of_here|].
    apply list_elem_of_singleton in Hin as ->. exact Hlook.
  - rewrite Hother; [reflexivity|].
    intros c Hin. apply list_elem_of_singleton in Hin as ->. discriminate.
Defined.

Lemma apply_skips_write_witness :
  fst (apply ex_r2 ex_pkg (ex_lu emptyStatus) (ex_spec [] "" [ex_make])
         (ex_input []) None (ex_state 0 ∅ ∅))
  = (lu_Status (ex_lu emptyStatus), None) /\
  forall write,
    apply (withStatusUpdate write ex_r2) ex_pkg (ex_lu emptyStatus)
      (ex_spec [] "" [ex_make]) (ex_input []) None (ex_state 0 ∅ ∅)
    = apply ex_r2 ex_pkg (ex_lu emptyStatus) (ex_spec [] "" [ex_make])
        (ex_input []) None (ex_state 0 ∅ ∅).
Proof.
  apply (apply_skips_write ex_r2 ex_pkg (ex_lu emptyStatus) (ex_spec [] "" [ex_make])
           (ex_input []) None (ex_state 0 ∅ ∅)).
  reflexivity.
Defined.

(** With a status that differs from the stored one, the refused write comes
    back as the error, with the empty status. *)
Example ex_apply_write_refused :
  fst (apply ex_r2 ex_pkg (ex_lu emptyStatus) (ex_spec [] "" [ex_make])
         (ex_input ["a"]) None (ex_state 0 ∅ ∅))
  = (emptyStatus, Some ex_refused).
Proof. reflexivity. Qed.

Lemma Reconcile_twice_witness :
  fst (Reconcile ex_r2 "lu-ok" (snd (Reconcile ex_r2 "lu-ok" ex_state_two))) = None /\
  monitors (snd (Reconcile ex_r2 "lu-ok" (snd (Reconcile ex_r2 "lu-ok" ex_state_two))))
    = monitors (snd (Reconcile ex_r2 "lu-ok" ex_state_two)) /\
  heap (snd (Reconcile ex_r2 "lu-ok" (snd (Reconcile ex_r2 "lu-ok" ex_state_two))))
    = heap (snd (Reconcile ex_r2 "lu-ok" ex_state_two)).
Proof.
  apply (Reconcile_twice ex_r2 "lu-ok" ex_state_two ex_lu_ok).
  - apply ex_state_two_wf.
  - reflexivity.
  - reflexivity.
  - reflexivity.
  - reflexivity.
Defined.
